(** * bdix-list: connectivity testing scripts

    A shallow embedding of the four probing scripts of the repository
    (the multi-attempt analysis of [list.ts], the fast check, the listing
    of working URLs and the fetch-based test of [test-ping.ts]) together
    with the properties of their deduplication, probing, batching and
    aggregation steps.

    Conventions of the embedding:
    - a JavaScript [number] is an IEEE 754 binary64 value, Rocq's primitive
      [float]; arithmetic is the primitive, correctly rounded one;
    - array lengths, loop counters and the integral configuration fields
      ([attempts], [batchSize]) are [nat]; [nat2num] gives the number they
      denote where the source divides;
    - [Date.now()] readings are integral milliseconds, in [Z];
    - an [async] function is a function into [outcome]: it returns a value
      or raises (rejects), and [try_catch] is the source's [try]/[catch];
    - every answer of the outside world (DNS, ping, fetch, the clock) is
      read from an [Env.t] record, one per probed endpoint;
    - console output and file writes are not modelled: each script returns
      the object it would serialise, and the two reports that are only
      printed ([generateDetailedReport], [testPing]) return the values
      they print. *)

From stdpp Require Import gmap strings list pretty sorting.
From Stdlib Require Import Ascii ZArith Floats.
From Equations Require Import Equations.

(** ** Numbers *)

Definition number : Set := float.

(** The number nearest to an integer (round to nearest, ties to even);
    exact on the safe integers, those below [2 ^ 53] in magnitude. *)
Definition Z2num (z : Z) : number :=
  SF2Prim (binary_normalize prec emax z 0 false).

Definition nat2num (n : nat) : number := Z2num (Z.of_nat n).

Definition is_neg_zero (x : number) : bool := is_zero x && get_sign x.
Definition is_pos_zero (x : number) : bool := is_zero x && negb (get_sign x).

(** ** Exceptions and promises *)

(** A thrown value: an [Error] object with its message, or any other value
    with the text [String(value)] gives for it. *)
Inductive thrown : Type :=
| ErrorObject (message : string)
| OtherValue (text : string).

(** [error instanceof Error ? error.message : String(error)] *)
Definition error_text (error : thrown) : string :=
  match error with
  | ErrorObject message => message
  | OtherValue text => text
  end.

Inductive outcome (A : Type) : Type :=
| Returned (a : A)
| Raised (error : thrown).
Arguments Returned {A} a.
Arguments Raised {A} error.

#[global] Instance outcome_ret : MRet outcome := λ A, Returned.
#[global] Instance outcome_bind : MBind outcome := λ A B f m,
  match m with
  | Returned a => f a
  | Raised error => Raised error
  end.

Definition try_catch {A} (body : outcome A) (handler : thrown → outcome A) : outcome A :=
  match body with
  | Returned a => Returned a
  | Raised error => handler error
  end.

(** [await Promise.all(items.map(f))]: every call is made, the results are
    gathered in order, and a rejection rejects the whole. *)
Fixpoint Promise_all {A B} (f : A → outcome B) (items : list A) : outcome (list B) :=
  match items with
  | [] => Returned []
  | item :: rest =>
      match f item, Promise_all f rest with
      | Returned b, Returned bs => Returned (b :: bs)
      | Raised error, _ => Raised error
      | _, Raised error => Raised error
      end
  end.

(** ** Strings *)

Fixpoint span (p : ascii → bool) (s : string) : string * string :=
  match s with
  | EmptyString => (EmptyString, EmptyString)
  | String c rest =>
      if p c then let '(taken, remaining) := span p rest in (String c taken, remaining)
      else (EmptyString, s)
  end.

Fixpoint strip_prefix (pre s : string) : option string :=
  match pre, s with
  | EmptyString, _ => Some s
  | String a pre', String b s' => if Ascii.eqb a b then strip_prefix pre' s' else None
  | String _ _, EmptyString => None
  end.

Definition startsWith (s pre : string) : bool :=
  match strip_prefix pre s with Some _ => true | None => false end.

Definition is_empty (s : string) : bool :=
  match s with EmptyString => true | String _ _ => false end.

Definition is_digit (c : ascii) : bool :=
  let n := nat_of_ascii c in (48 <=? n)%nat && (n <=? 57)%nat.

(** [StrWhiteSpaceChar], restricted to its ASCII members. *)
Definition is_space (c : ascii) : bool :=
  let n := nat_of_ascii c in ((9 <=? n)%nat && (n <=? 13)%nat) || (n =? 32)%nat.

Definition digit_value (c : ascii) : Z := Z.of_nat (nat_of_ascii c) - 48.

Definition digits_value (ds : string) : Z :=
  foldl (λ acc c, 10 * acc + digit_value c)%Z 0%Z (String.list_ascii_of_string ds).

Definition take_sign (s : string) : bool * string :=
  match s with
  | String "-" rest => (true, rest)
  | String "+" rest => (false, rest)
  | _ => (false, s)
  end.

(** The number nearest to [± d × 10 ^ k]. For [k < 0] the quotient is
    rounded once, by the division of the binary64 specification applied to
    the two exact integers. *)
Definition decimal_to_number (neg : bool) (d : Z) (k : Z) : number :=
  match d with
  | Zpos p =>
      if (0 <=? k)%Z
      then SF2Prim (binary_normalize prec emax (cond_Zopp neg (Zpos p * 10 ^ k)) 0 false)
      else SF2Prim (SFdiv prec emax (S754_finite neg p 0)
                                    (S754_finite false (Z.to_pos (10 ^ (- k))) 0))
  | _ => if neg then (-0)%float else 0%float
  end.

(** [parseFloat]: the longest prefix that is a [StrDecimalLiteral], after
    leading white space; [NaN] when there is none. *)
Definition parseFloat (s : string) : number :=
  let '(_, s) := span is_space s in
  let '(neg, s) := take_sign s in
  if startsWith s "Infinity" then (if neg then neg_infinity else infinity) else
  let '(int_digits, s) := span is_digit s in
  let '(frac_digits, s) :=
    match s with
    | String "." rest => span is_digit rest
    | _ => (EmptyString, s)
    end in
  if is_empty int_digits && is_empty frac_digits then nan else
  let exponent :=
    match s with
    | String "e" rest | String "E" rest =>
        let '(eneg, rest) := take_sign rest in
        let '(exp_digits, _) := span is_digit rest in
        cond_Zopp eneg (digits_value exp_digits)
    | _ => 0%Z
    end in
  decimal_to_number neg (digits_value (int_digits ++ frac_digits))
    (exponent - Z.of_nat (String.length frac_digits)).

(** [parseInt] on the strings the scripts give it, a run of decimal digits
    (a port): the integer of the leading digits, [NaN] when there are none. *)
Definition parseInt (s : string) : number :=
  let '(_, s) := span is_space s in
  let '(neg, s) := take_sign s in
  let '(ds, _) := span is_digit s in
  if is_empty ds then nan else Z2num (cond_Zopp neg (digits_value ds)).

(** [Number::toString]. The shortest decimal that reads back as a finite
    non-zero number is left to the engine: [Number_digits] stands for it. *)
Section NumberToString.
Variable Number_digits : number → string.

Definition Number_toString (x : number) : string :=
  match Prim2SF x with
  | S754_nan => "NaN"
  | S754_zero _ => "0"
  | S754_infinity false => "Infinity"
  | S754_infinity true => "-Infinity"
  | S754_finite _ _ _ => Number_digits x
  end.

Fixpoint zeros (n : nat) : string :=
  match n with
  | O => EmptyString
  | S n' => String "0" (zeros n')
  end.

(** The last steps of [Number.prototype.toFixed]: the digits of [n], padded
    with zeros to more than [f] of them, with the point before the last [f]. *)
Definition place_point (digits : string) (f : nat) : string :=
  let k := String.length digits in
  let digits := if (k <=? f)%nat then zeros (f + 1 - k) +:+ digits else digits in
  let k := String.length digits in
  if (f =? 0)%nat then digits
  else String.substring 0 (k - f) digits +:+ "." +:+ String.substring (k - f) f digits.

(** [x.toFixed(fractionDigits)] for [0 <= fractionDigits <= 100]. The
    integer [n] is the one with [n / 10 ^ f] nearest to [|x|], the larger
    of the two on a tie, computed on the exact value [m * 2 ^ e]. *)
Definition toFixed (x : number) (fractionDigits : nat) : string :=
  match Prim2SF x with
  | S754_finite s m e =>
      let num := (if 0 <=? e then Zpos m * 2 ^ e else Zpos m)%Z in
      let den := (if 0 <=? e then 1 else 2 ^ (- e))%Z in
      let sign := if s then "-" else "" in
      if (10 ^ 21 * den <=? num)%Z then sign +:+ Number_toString (abs x)
      else
        let n := ((2 * num * 10 ^ Z.of_nat fractionDigits + den) / (2 * den))%Z in
        sign +:+ place_point (pretty (Z.to_N n)) fractionDigits
  | S754_zero _ => place_point "0" fractionDigits
  | S754_nan | S754_infinity _ => Number_toString x
  end.

End NumberToString.

(** [Math.min(...values)] and [Math.max(...values)] *)
Definition Math_min (values : list number) : number :=
  if existsb is_nan values then nan
  else foldl (λ lowest x,
                if (is_neg_zero x && is_pos_zero lowest) || (x <? lowest)%float
                then x else lowest) infinity values.

Definition Math_max (values : list number) : number :=
  if existsb is_nan values then nan
  else foldl (λ highest x,
                if (is_pos_zero x && is_neg_zero highest) || (highest <? x)%float
                then x else highest) neg_infinity values.

(** [Math.pow(base, 2)], taken to be the correctly rounded square. *)
Definition Math_pow_2 (base : number) : number := (base * base)%float.

(** [Array.prototype.sort(comparefn)]. The sort is stable and reads only
    the sign of [comparefn]; it is modelled by the stable insertion sort,
    which moves an element past a neighbour exactly when [comparefn] is
    positive on the pair. The language fixes the outcome of the sort only
    for a consistent [comparefn], one that yields a number on every pair
    and orders the elements by its sign; there the model gives that
    outcome. Where [comparefn] yields [NaN] (taken as zero here) or is
    otherwise inconsistent, the order is left to the engine, and nothing
    is claimed of it. *)
Section ArraySort.
Context {A R : Type} (is_positive : R → bool) (comparefn : A → A → R).

Fixpoint sort_insert (x : A) (sorted : list A) : list A :=
  match sorted with
  | [] => [x]
  | y :: rest =>
      if is_positive (comparefn x y) then y :: sort_insert x rest
      else x :: y :: rest
  end.

Definition Array_sort (items : list A) : list A := foldr sort_insert [] items.

End ArraySort.

Definition positive_number (v : number) : bool := (0 <? v)%float.
Definition positive_Z (v : Z) : bool := (0 <? v)%Z.

(** [items.slice(start, end)] for [start <= end] *)
Definition slice {A} (items : list A) (start finish : nat) : list A :=
  take (finish - start) (drop start items).

(** ** The catalog *)

Module UrlEntry.
Record t : Type := mk { name : string; url : string; type : string }.
End UrlEntry.

(** *** Removing duplicates

    [listUpUrls] and [fastCheck] filter the catalog against a [Set] of the
    addresses seen so far. *)
Fixpoint filter_unseen (seen : gset string) (urls : list UrlEntry.t) : list UrlEntry.t :=
  match urls with
  | [] => []
  | item :: rest =>
      if decide (UrlEntry.url item ∈ seen) then filter_unseen seen rest
      else item :: filter_unseen ({[UrlEntry.url item]} ∪ seen) rest
  end.

Definition uniqueUrls_Set (urls : list UrlEntry.t) : list UrlEntry.t :=
  filter_unseen ∅ urls.

(** [runAdvancedPingTest] builds a [Map] from address to entry and reads
    its values back. A [Map] keeps its keys in insertion order; setting a
    key that is present replaces the value where the key stands. *)
Fixpoint Map_set {V} (m : list (string * V)) (key : string) (value : V) : list (string * V) :=
  match m with
  | [] => [(key, value)]
  | (k, v) :: rest =>
      if decide (k = key) then (k, value) :: rest
      else (k, v) :: Map_set rest key value
  end.

Definition Map_new {V} (entries : list (string * V)) : list (string * V) :=
  foldl (λ m kv, Map_set m kv.1 kv.2) [] entries.

Definition Map_values {V} (m : list (string * V)) : list V := m.*2.

Definition uniqueUrls_Map (urls : list UrlEntry.t) : list UrlEntry.t :=
  Map_values (Map_new ((λ item, (UrlEntry.url item, item)) <$> urls)).

(** ** The outside world *)

(** [new URL(urlString)], read through the three properties the scripts use. *)
Module URL.
Record t : Type := mk { hostname : string; port : string; protocol : string }.
End URL.

(** What [ping.promise.probe] resolves to; [time] is [None] for ['unknown']. *)
Module PingResponse.
Record t : Type := mk { alive : bool; time : option number }.
End PingResponse.

(** What [fetch] resolves to. *)
Module Response.
Record t : Type := mk { ok : bool; status : nat }.
End Response.

Inductive HttpMethod : Set := HEAD | GET.

(** The answers one endpoint's probe receives. [ping_probe hostname
    timeout i] is the result of the [i]-th call for the host, and
    [ping_elapsed hostname i] the milliseconds that call took. *)
Module Env.
Record t : Type := mk {
  now_start : Z;
  now_end : Z;
  timestamp : string;
  dns_lookup : string → outcome string;
  dns_elapsed : string → Z;
  ping_probe : string → number → nat → outcome PingResponse.t;
  ping_elapsed : string → nat → Z;
  fetch : string → HttpMethod → outcome Response.t
}.
End Env.

(** ** The fallback patterns for addresses [new URL] rejects *)

Definition host_char (c : ascii) : bool :=
  negb (Ascii.eqb c ":") && negb (Ascii.eqb c "/").

(** What remains of the string after [^https?:\/\/]. *)
Definition after_scheme (urlString : string) : option string :=
  rest ← strip_prefix "http" urlString;
  match strip_prefix "s://" rest with
  | Some rest' => Some rest'
  | None => strip_prefix "://" rest
  end.

(** [urlString.match(/^https?:\/\/([^:/]+)(?::(\d+))?/)]: the two groups
    of the match, the second [None] when it took no part. *)
Definition match_host_port (urlString : string) : option (string * option string) :=
  rest ← after_scheme urlString;
  let '(host, rest) := span host_char rest in
  if is_empty host then None
  else Some (host,
             match rest with
             | String ":" more =>
                 let '(digits, _) := span is_digit more in
                 if is_empty digits then None else Some digits
             | _ => None
             end).

(** [urlString.match(/^https?:\/\/([^:/]+)/)]: the group of the match. *)
Definition match_host (urlString : string) : option string :=
  rest ← after_scheme urlString;
  let '(host, _) := span host_char rest in
  if is_empty host then None else Some host.

(** ** More of the standard objects *)

(** [s.split(sep)] for a separator of one character: the parts between the
    separators, one part at least. *)
Fixpoint split (sep : ascii) (s : string) : list string :=
  match s with
  | EmptyString => [EmptyString]
  | String c rest =>
      if Ascii.eqb c sep then EmptyString :: split sep rest
      else match split sep rest with
           | part :: parts => String c part :: parts
           | [] => [String c EmptyString]
           end
  end.

(** [`${parts[i]}`]: the text of an element, ["undefined"] past the end. *)
Definition template_part (parts : list string) (i : nat) : string :=
  default "undefined" (parts !! i).

(** [value || fallback] on an optional string: [undefined] and the empty
    string are the falsy ones. *)
Definition or_else (value : option string) (fallback : string) : string :=
  match value with
  | Some text => if is_empty text then fallback else text
  | None => fallback
  end.

(** A plain object used as a record of arrays, with its keys in insertion
    order: [if (!record[key]) record[key] = []; record[key].push(value)].
    (An array is truthy, so the test asks whether the key is there.) *)
Fixpoint Record_push {V} (record : list (string * list V)) (key : string) (value : V)
    : list (string * list V) :=
  match record with
  | [] => [(key, [value])]
  | (k, values) :: rest =>
      if decide (k = key) then (k, values ++ [value]) :: rest
      else (k, values) :: Record_push rest key value
  end.

(** * list.ts: the multi-attempt analysis *)

Module ListTs.

Module PingStatistics.
Record t : Type := mk {
  min : number; max : number; avg : number; stddev : number; loss : number
}.
End PingStatistics.

Module DnsInfo.
Record t : Type := mk {
  ip : option string; hostname : string; resolveTime : Z; error : option string
}.
End DnsInfo.

Inductive Status : Set := UP | DOWN | PARTIAL.

#[global] Instance Status_eq_dec : EqDecision Status.
Proof. solve_decision. Defined.

Module RawPing.
Record t : Type := mk { alive : bool; time : number; attempt : nat }.
End RawPing.

Module PingResult.
Record t : Type := mk {
  url : string;
  name : string;
  type : string;
  status : Status;
  attempts : nat;
  successfulPings : nat;
  statistics : PingStatistics.t;
  dnsInfo : DnsInfo.t;
  port : option number;
  isHttps : bool;
  totalTime : Z;
  timestamp : string;
  error : option string;
  rawPingResults : list RawPing.t
}.
End PingResult.

Module PingConfig.
Record t : Type := mk {
  attempts : nat;
  timeout : number;
  interval : number;
  batchSize : nat;
  enableDnsLookup : bool;
  enablePortCheck : bool
}.
End PingConfig.

Definition DEFAULT_CONFIG : PingConfig.t :=
  PingConfig.mk 5 5000%float 500%float 8 true true.

Module HostAndPort.
Record t : Type := mk { hostname : string; port : option number; isHttps : bool }.
End HostAndPort.

(** [Math.min], [Math.max], mean and population standard deviation of the
    successful samples; no sample at all counts as total loss. *)
Definition calculateStatistics (times : list number) : PingStatistics.t :=
  match times with
  | [] => PingStatistics.mk 0%float 0%float 0%float 0%float 100%float
  | _ :: _ =>
      let min := Math_min times in
      let max := Math_max times in
      let avg := (foldl (λ sum time, sum + time) 0 times / nat2num (length times))%float in
      let variance :=
        (foldl (λ sum time, sum + Math_pow_2 (time - avg)) 0 times
           / nat2num (length times))%float in
      let stddev := sqrt variance in
      PingStatistics.mk min max avg stddev 0%float
  end.

Inductive Event : Type :=
| ProbeStarted (batchNum : nat) (entry : UrlEntry.t)
| BatchCollected (batchNum : nat) (results : nat)
| BatchDelay (ms : nat).

Section Scripts.
Variable URL_parse : string → option URL.t.
Variable Number_digits : number → string.

Definition extractHostAndPort (urlString : string) : outcome HostAndPort.t :=
  match URL_parse urlString with
  | Some url =>
      let https := bool_decide (URL.protocol url = "https:") in
      Returned
        (HostAndPort.mk (URL.hostname url)
           (Some (if is_empty (URL.port url)
                  then (if https then 443 else 80)%float
                  else parseInt (URL.port url)))
           https)
  | None =>
      match match_host_port urlString with
      | Some (host, digits) =>
          if is_empty host then Raised (ErrorObject "Invalid URL format")
          else
            Returned
              (HostAndPort.mk host
                 (Some match digits with
                       | Some ds => parseInt ds
                       | None => (if startsWith urlString "https" then 443 else 80)%float
                       end)
                 (startsWith urlString "https"))
      | None => Raised (ErrorObject "Invalid URL format")
      end
  end.

Definition performDnsLookup (env : Env.t) (hostname : string) : outcome DnsInfo.t :=
  try_catch
    (address ← Env.dns_lookup env hostname;
     mret (DnsInfo.mk (Some address) hostname (Env.dns_elapsed env hostname) None))
    (λ error,
     mret (DnsInfo.mk None hostname (Env.dns_elapsed env hostname)
             (Some (error_text error)))).

(** One turn of the attempts loop: the probe, its record in
    [rawPingResults] and, when the host answered, its time in
    [successfulTimes]. A probe that raises is recorded as a failed attempt
    that took the whole timeout. *)
Definition ping_attempt (env : Env.t) (config : PingConfig.t) (hostname : string)
    (acc : list RawPing.t * list number) (i : nat) : list RawPing.t * list number :=
  let '(rawPingResults, successfulTimes) := acc in
  match Env.ping_probe env hostname (PingConfig.timeout config / 1000)%float i with
  | Returned result =>
      let pingTime :=
        match PingResponse.time result with
        | None => Z2num (Env.ping_elapsed env hostname i)
        | Some time => parseFloat (Number_toString Number_digits time)
        end in
      let rawPingResults :=
        rawPingResults ++ [RawPing.mk (PingResponse.alive result) pingTime (i + 1)] in
      if PingResponse.alive result
      then (rawPingResults, successfulTimes ++ [pingTime])
      else (rawPingResults, successfulTimes)
  | Raised _ =>
      (rawPingResults ++ [RawPing.mk false (PingConfig.timeout config) (i + 1)],
       successfulTimes)
  end.

(** [for (let i = 0; i < config.attempts; i++)] *)
Definition ping_attempts (env : Env.t) (config : PingConfig.t) (hostname : string)
    : list RawPing.t * list number :=
  foldl (ping_attempt env config hostname) ([], []) (seq 0 (PingConfig.attempts config)).

Definition advancedPingUrl (env : Env.t) (entry : UrlEntry.t) (config : PingConfig.t)
    : outcome PingResult.t :=
  try_catch
    (host ← extractHostAndPort (UrlEntry.url entry);
     let hostname := HostAndPort.hostname host in
     dnsInfo ← (if PingConfig.enableDnsLookup config
                then performDnsLookup env hostname
                else mret (DnsInfo.mk None hostname 0%Z None));
     let '(rawPingResults, successfulTimes) := ping_attempts env config hostname in
     let successfulPings := length successfulTimes in
     let statistics := calculateStatistics successfulTimes in
     let loss :=
       ((nat2num (PingConfig.attempts config) - nat2num successfulPings)
          / nat2num (PingConfig.attempts config) * 100)%float in
     let statistics :=
       PingStatistics.mk (PingStatistics.min statistics) (PingStatistics.max statistics)
         (PingStatistics.avg statistics) (PingStatistics.stddev statistics) loss in
     let status :=
       if (successfulPings =? PingConfig.attempts config)%nat then UP
       else if (0 <? successfulPings)%nat then PARTIAL
       else DOWN in
     mret (PingResult.mk (UrlEntry.url entry) (UrlEntry.name entry) (UrlEntry.type entry)
             status (PingConfig.attempts config) successfulPings statistics dnsInfo
             (HostAndPort.port host) (HostAndPort.isHttps host)
             (Env.now_end env - Env.now_start env)%Z (Env.timestamp env) None
             rawPingResults))
    (λ error,
     mret (PingResult.mk (UrlEntry.url entry) (UrlEntry.name entry) (UrlEntry.type entry)
             DOWN (PingConfig.attempts config) 0
             (PingStatistics.mk 0%float 0%float 0%float 0%float 100%float)
             (DnsInfo.mk None (UrlEntry.url entry) 0%Z None)
             None false
             (Env.now_end env - Env.now_start env)%Z (Env.timestamp env)
             (Some (error_text error)) [])).

(** The batch loop of [runAdvancedPingTest],
    [for (let i = 0; i < uniqueUrls.length; i += config.batchSize)].
    The loop does not end for a zero batch size, so it runs on [fuel]:
    [None] is a loop still running when the fuel is spent. Beside the
    results it returns the trace of what it did: every probe of a batch
    started ([batch.map]), the batch collected ([await Promise.all]), the
    pause before the next batch. *)
Fixpoint batch_loop (fuel : nat) (world : UrlEntry.t → Env.t) (config : PingConfig.t)
    (uniqueUrls : list UrlEntry.t) (i : nat)
    (results : list PingResult.t) (trace : list Event)
    : option (outcome (list PingResult.t * list Event)) :=
  match fuel with
  | O => None
  | S fuel' =>
      if (i <? length uniqueUrls)%nat then
        let batch := slice uniqueUrls i (i + PingConfig.batchSize config) in
        let batchNum := (i / PingConfig.batchSize config + 1)%nat in
        let trace := trace ++ (ProbeStarted batchNum <$> batch) in
        match Promise_all (λ entry, advancedPingUrl (world entry) entry config) batch with
        | Raised error => Some (Raised error)
        | Returned batchResults =>
            let results := results ++ batchResults in
            let trace := trace ++ [BatchCollected batchNum (length batchResults)] in
            let trace :=
              if (i + PingConfig.batchSize config <? length uniqueUrls)%nat
              then trace ++ [BatchDelay 1000] else trace in
            batch_loop fuel' world config uniqueUrls
              (i + PingConfig.batchSize config) results trace
        end
      else Some (Returned (results, trace))
  end.

(** The comparison [runAdvancedPingTest] sorts the results by: fully
    reachable sites first, by average time among themselves. *)
Definition by_status_then_avg (a b : PingResult.t) : number :=
  if bool_decide (PingResult.status a = UP) && negb (bool_decide (PingResult.status b = UP))
  then (-1)%float
  else if negb (bool_decide (PingResult.status a = UP)) && bool_decide (PingResult.status b = UP)
  then 1%float
  else if bool_decide (PingResult.status a = UP) && bool_decide (PingResult.status b = UP)
  then (PingStatistics.avg (PingResult.statistics a)
          - PingStatistics.avg (PingResult.statistics b))%float
  else 0%float.

Definition run_config : PingConfig.t :=
  PingConfig.mk 3 5000%float 300%float 6 true true.

(** The sorted results are what the script writes to [ping-results.json]. *)
Definition runAdvancedPingTest (fuel : nat) (world : UrlEntry.t → Env.t)
    (urls : list UrlEntry.t) : option (outcome (list PingResult.t * list Event)) :=
  let uniqueUrls := uniqueUrls_Map urls in
  match batch_loop fuel world run_config uniqueUrls 0 [] [] with
  | Some (Returned (results, trace)) =>
      Some (Returned (Array_sort positive_number by_status_then_avg results, trace))
  | other => other
  end.

End Scripts.

(** [categorizeByNetwork]: the results filed by the first three parts of
    the resolved address, those without an address under ['Unknown']. The
    keys are never index-like nor names of [Object.prototype] (each is
    ['Unknown'] or ends in [.x]), so the object lists them in insertion
    order and finds only what was put there. *)
Definition subnet_of (ip : string) : string :=
  let parts := split "." ip in
  template_part parts 0 +:+ "." +:+ template_part parts 1 +:+ "."
    +:+ template_part parts 2 +:+ ".x".

Definition network_of (result : PingResult.t) : string :=
  match DnsInfo.ip (PingResult.dnsInfo result) with
  | Some ip => if is_empty ip then "Unknown" else subnet_of ip
  | None => "Unknown"
  end.

Definition categorizeByNetwork (results : list PingResult.t)
    : list (string * list PingResult.t) :=
  foldl (λ categories result, Record_push categories (network_of result) result)
    [] results.

(** What [generateDetailedReport] prints, value by value. *)
Module NetworkRow.
Record t : Type := mk {
  subnet : string; sites : nat; upCount : nat; partialCount : nat; downCount : Z
}.
End NetworkRow.

Module FastestRow.
Record t : Type := mk {
  site : PingResult.t;
  label : string;
  avg : string; min : string; max : string;
  consistency : string;
  ip : string;
  scheme : string
}.
End FastestRow.

Module UnstableRow.
Record t : Type := mk {
  site : PingResult.t;
  label : string;
  successRate : string;
  avgWhenSuccessful : option string
}.
End UnstableRow.

Module FailedRow.
Record t : Type := mk {
  site : PingResult.t;
  label : string;
  failure : string;
  dnsFailure : option string
}.
End FailedRow.

Module Report.
Record t : Type := mk {
  fullyUp : nat;
  partiallyUp : nat;
  down : nat;
  overallSuccessRate : string;
  responseTimeStats : option (string * string * string);
  networks : list NetworkRow.t;
  fastest : list FastestRow.t;
  unstable : list UnstableRow.t;
  failed : list FailedRow.t
}.
End Report.

Section Reporting.
Variable Number_digits : number → string.

(** [result.name || result.url] *)
Definition label_of (result : PingResult.t) : string :=
  or_else (Some (PingResult.name result)) (PingResult.url result).

Definition network_row (entry : string * list PingResult.t) : NetworkRow.t :=
  let '(subnet, sites) := entry in
  let upCount := length (filter (λ s, PingResult.status s = UP) sites) in
  let partialCount := length (filter (λ s, PingResult.status s = PARTIAL) sites) in
  NetworkRow.mk subnet (length sites) upCount partialCount
    (Z.of_nat (length sites) - Z.of_nat upCount - Z.of_nat partialCount).

Definition fastest_row (result : PingResult.t) : FastestRow.t :=
  let statistics := PingResult.statistics result in
  FastestRow.mk result (label_of result)
    (toFixed Number_digits (PingStatistics.avg statistics) 2)
    (toFixed Number_digits (PingStatistics.min statistics) 2)
    (toFixed Number_digits (PingStatistics.max statistics) 2)
    (if (PingStatistics.stddev statistics <? 10)%float then "🎯"
     else if (PingStatistics.stddev statistics <? 50)%float then "📊" else "📈")
    (or_else (DnsInfo.ip (PingResult.dnsInfo result)) "N/A")
    (if PingResult.isHttps result then "HTTPS" else "HTTP").

Definition unstable_row (result : PingResult.t) : UnstableRow.t :=
  let statistics := PingResult.statistics result in
  UnstableRow.mk result (label_of result)
    (toFixed Number_digits (100 - PingStatistics.loss statistics)%float 1)
    (if (0 <? PingStatistics.avg statistics)%float
     then Some (toFixed Number_digits (PingStatistics.avg statistics) 2) else None).

(** [result.error || result.dnsInfo.error || 'Complete ping failure'] *)
Definition failure_of (result : PingResult.t) : string :=
  or_else (PingResult.error result)
    (or_else (DnsInfo.error (PingResult.dnsInfo result)) "Complete ping failure").

Definition failed_row (result : PingResult.t) : FailedRow.t :=
  FailedRow.mk result (label_of result) (failure_of result)
    (match DnsInfo.error (PingResult.dnsInfo result) with
     | Some text => if is_empty text then None else Some text
     | None => None
     end).

Definition generateDetailedReport (results : list PingResult.t) : Report.t :=
  let upResults := filter (λ r, PingResult.status r = UP) results in
  let partialResults := filter (λ r, PingResult.status r = PARTIAL) results in
  let downResults := filter (λ r, PingResult.status r = DOWN) results in
  let overall :=
    toFixed Number_digits
      ((nat2num (length upResults) + nat2num (length partialResults) * 0.5)
         / nat2num (length results) * 100)%float 1 in
  let stats :=
    if (0 <? length upResults)%nat then
      let avgResponseTime :=
        (foldl (λ sum r, sum + PingStatistics.avg (PingResult.statistics r)) 0 upResults
           / nat2num (length upResults))%float in
      let minResponseTime :=
        Math_min ((λ r, PingStatistics.min (PingResult.statistics r)) <$> upResults) in
      let maxResponseTime :=
        Math_max ((λ r, PingStatistics.max (PingResult.statistics r)) <$> upResults) in
      Some (toFixed Number_digits minResponseTime 2,
            toFixed Number_digits avgResponseTime 2,
            toFixed Number_digits maxResponseTime 2)
    else None in
  let categories := categorizeByNetwork results in
  let networks :=
    slice (Array_sort positive_Z
             (λ a b : string * list PingResult.t,
                Z.of_nat (length b.2) - Z.of_nat (length a.2))%Z
             categories) 0 10 in
  let fastest :=
    slice (Array_sort positive_number
             (λ a b, PingStatistics.avg (PingResult.statistics a)
                     - PingStatistics.avg (PingResult.statistics b))%float
             upResults) 0 15 in
  let unstable :=
    if (0 <? length partialResults)%nat then
      slice (Array_sort positive_Z
               (λ a b, Z.of_nat (PingResult.successfulPings b)
                       - Z.of_nat (PingResult.successfulPings a))%Z
               partialResults) 0 10
    else [] in
  Report.mk (length upResults) (length partialResults) (length downResults)
    overall stats (network_row <$> networks) (fastest_row <$> fastest)
    (unstable_row <$> unstable) (failed_row <$> slice downResults 0 15).

End Reporting.

End ListTs.

(** * list.ts: the probes in flight

    The functions above give what an [async] function returns. To say
    which probes are under way together, the prober and the batch loop are
    given once more with their [await]s in place: a call runs a function
    up to its first [await] on the outside (a lookup, a ping, a timer) and
    leaves it suspended there; the function goes on when the awaited
    answer arrives, up to its next [await] or its end. An [await] on the
    promise of an [async] callee adds no wait on the outside and is no
    step of its own. *)
Module Async.
Import ListTs.

Inductive Request : Type :=
| dnsLookup (hostname : string)
| ping_promise_probe (hostname : string) (timeout : number)
| setTimeout (ms : number).

(** An [async] function under way: settled (returned or threw), or
    suspended at an [await], with how it goes on once resumed. The answers
    of the outside are read from the endpoint's [Env.t], as above. *)
Inductive task (A : Type) : Type :=
| Settled (result : outcome A)
| Await (request : Request) (resume : task A).
Arguments Settled {A} result.
Arguments Await {A} request resume.

#[global] Instance task_ret : MRet task := λ A a, Settled (Returned a).

Fixpoint task_bind {A B} (f : A → task B) (t : task A) : task B :=
  match t with
  | Settled (Returned a) => f a
  | Settled (Raised error) => Settled (Raised error)
  | Await request resume => Await request (task_bind f resume)
  end.

#[global] Instance task_mbind : MBind task := λ A B f t, task_bind f t.

(** [try { body } catch (error) { handler }] around [await]s *)
Fixpoint try_catch {A} (body : task A) (handler : thrown → task A) : task A :=
  match body with
  | Settled (Returned a) => Settled (Returned a)
  | Settled (Raised error) => handler error
  | Await request resume => Await request (try_catch resume handler)
  end.

(** [await promise], the promise being one of the outside that settles
    with [answer]. *)
Definition await {A} (request : Request) (answer : outcome A) : task A :=
  Await request (Settled answer).

(** A synchronous call: its outcome, at once. *)
Definition now {A} (result : outcome A) : task A := Settled result.

(** What a task settles with when it is resumed to its end. *)
Fixpoint complete {A} (t : task A) : outcome A :=
  match t with
  | Settled result => result
  | Await _ resume => complete resume
  end.

Definition is_settled {A} (t : task A) : bool :=
  match t with Settled _ => true | Await _ _ => false end.

(** The [await]s a task has before it. *)
Fixpoint awaits {A} (t : task A) : nat :=
  match t with
  | Settled _ => 0
  | Await _ resume => S (awaits resume)
  end.

(** ** [Promise.all] over calls of an [async] function

    What happens to the promises of a batch, step by step: each call, in
    order, with whether it left its function suspended; then each
    resumption of a suspended function, with whether it ran to the end. *)
Inductive Step : Type :=
| Called (index : nat) (in_flight : bool)
| Resumed (index : nat) (request : Request) (settled : bool).

(** Resuming the [n]-th of the suspended tasks, counted from the left;
    [position] is the index of the first task of the list. *)
Fixpoint resume_nth {A} (n position : nat) (states : list (task A))
    : option (Step * task A * list (task A)) :=
  match states with
  | [] => None
  | Settled result :: rest =>
      '(step, resumed, rest') ← resume_nth n (S position) rest;
      Some (step, resumed, Settled result :: rest')
  | Await request resume :: rest =>
      match n with
      | O => Some (Resumed position request (is_settled resume), resume, resume :: rest)
      | S n' =>
          '(step, resumed, rest') ← resume_nth n' (S position) rest;
          Some (step, resumed, Await request resume :: rest')
      end
  end.

Definition in_flight {A} (states : list (task A)) : nat :=
  length (filter (λ t, is_settled t = false) states).

(** The first of the promises that is rejected, if any. *)
Fixpoint first_rejection {A} (states : list (task A)) : option thrown :=
  match states with
  | [] => None
  | Settled (Raised error) :: _ => Some error
  | _ :: rest => first_rejection rest
  end.

(** The values of promises that are all fulfilled. *)
Fixpoint fulfilled {A} (states : list (task A)) : list A :=
  match states with
  | [] => []
  | Settled (Returned a) :: rest => a :: fulfilled rest
  | _ :: rest => fulfilled rest
  end.

(** The event loop while [Promise.all] is awaited. Which of the awaited
    answers arrives next is the outside's choice: [oracle turn] picks
    among the suspended tasks. The wait ends when every promise is
    fulfilled, or at once when one is rejected. Every turn resumes one
    task past one [await], so the [await]s left bound the turns. *)
Fixpoint drive {A} (turns : nat) (oracle : nat → nat) (turn : nat)
    (states : list (task A)) (steps : list Step)
    : outcome (list A) * list Step * nat :=
  match turns with
  | O => (Returned (fulfilled states), steps, turn)
  | S turns' =>
      match resume_nth (oracle turn `mod` in_flight states) 0 states with
      | None => (Returned (fulfilled states), steps, turn)
      | Some (step, resumed, states') =>
          match resumed with
          | Settled (Raised error) => (Raised error, steps ++ [step], S turn)
          | _ => drive turns' oracle (S turn) states' (steps ++ [step])
          end
      end
  end.

(** [await Promise.all(items.map(f))]: [map] calls [f] on every item, each
    call running up to its first [await]; then the wait. *)
Definition Promise_all {A B} (oracle : nat → nat) (turn : nat)
    (f : A → task B) (items : list A) : outcome (list B) * list Step * nat :=
  let states := f <$> items in
  let calls := imap (λ index t, Called index (negb (is_settled t))) states in
  match first_rejection states with
  | Some error => (Raised error, calls, turn)
  | None => drive (sum_list (awaits <$> states)) oracle turn states calls
  end.

Inductive Event : Type :=
| InBatch (batchNum : nat) (step : Step)
| Collected (batchNum : nat) (results : nat)
| Paused (ms : nat).

Section Scripts.
Variable URL_parse : string → option URL.t.
Variable Number_digits : number → string.

Definition performDnsLookup (env : Env.t) (hostname : string) : task DnsInfo.t :=
  try_catch
    (address ← await (dnsLookup hostname) (Env.dns_lookup env hostname);
     mret (DnsInfo.mk (Some address) hostname (Env.dns_elapsed env hostname) None))
    (λ error,
     mret (DnsInfo.mk None hostname (Env.dns_elapsed env hostname)
             (Some (error_text error)))).

(** One turn of the attempts loop: the awaited probe and, unless the
    attempt is the last, the awaited pause; a probe that raises leaves the
    [try] block, pause included. *)
Definition ping_attempt (env : Env.t) (config : PingConfig.t) (hostname : string)
    (acc : list RawPing.t * list number) (i : nat)
    : task (list RawPing.t * list number) :=
  let '(rawPingResults, successfulTimes) := acc in
  try_catch
    (result ← await (ping_promise_probe hostname (PingConfig.timeout config / 1000)%float)
                (Env.ping_probe env hostname (PingConfig.timeout config / 1000)%float i);
     let pingTime :=
       match PingResponse.time result with
       | None => Z2num (Env.ping_elapsed env hostname i)
       | Some time => parseFloat (Number_toString Number_digits time)
       end in
     let rawPingResults :=
       rawPingResults ++ [RawPing.mk (PingResponse.alive result) pingTime (i + 1)] in
     let acc :=
       if PingResponse.alive result
       then (rawPingResults, successfulTimes ++ [pingTime])
       else (rawPingResults, successfulTimes) in
     if (i <? PingConfig.attempts config - 1)%nat
     then (_ ← await (setTimeout (PingConfig.interval config)) (Returned ()); mret acc)
     else mret acc)
    (λ _,
     mret (rawPingResults ++ [RawPing.mk false (PingConfig.timeout config) (i + 1)],
           successfulTimes)).

(** [for (let i = 0; i < config.attempts; i++)] *)
Fixpoint ping_attempts_over (env : Env.t) (config : PingConfig.t) (hostname : string)
    (indices : list nat) (acc : list RawPing.t * list number)
    : task (list RawPing.t * list number) :=
  match indices with
  | [] => mret acc
  | i :: rest =>
      acc ← ping_attempt env config hostname acc i;
      ping_attempts_over env config hostname rest acc
  end.

Definition ping_attempts (env : Env.t) (config : PingConfig.t) (hostname : string)
    : task (list RawPing.t * list number) :=
  ping_attempts_over env config hostname (seq 0 (PingConfig.attempts config)) ([], []).

Definition advancedPingUrl (env : Env.t) (entry : UrlEntry.t) (config : PingConfig.t)
    : task PingResult.t :=
  try_catch
    (host ← now (extractHostAndPort URL_parse (UrlEntry.url entry));
     let hostname := HostAndPort.hostname host in
     dnsInfo ← (if PingConfig.enableDnsLookup config
                then performDnsLookup env hostname
                else mret (DnsInfo.mk None hostname 0%Z None));
     '(rawPingResults, successfulTimes) ← ping_attempts env config hostname;
     let successfulPings := length successfulTimes in
     let statistics := calculateStatistics successfulTimes in
     let loss :=
       ((nat2num (PingConfig.attempts config) - nat2num successfulPings)
          / nat2num (PingConfig.attempts config) * 100)%float in
     let statistics :=
       PingStatistics.mk (PingStatistics.min statistics) (PingStatistics.max statistics)
         (PingStatistics.avg statistics) (PingStatistics.stddev statistics) loss in
     let status :=
       if (successfulPings =? PingConfig.attempts config)%nat then UP
       else if (0 <? successfulPings)%nat then PARTIAL
       else DOWN in
     mret (PingResult.mk (UrlEntry.url entry) (UrlEntry.name entry) (UrlEntry.type entry)
             status (PingConfig.attempts config) successfulPings statistics dnsInfo
             (HostAndPort.port host) (HostAndPort.isHttps host)
             (Env.now_end env - Env.now_start env)%Z (Env.timestamp env) None
             rawPingResults))
    (λ error,
     mret (PingResult.mk (UrlEntry.url entry) (UrlEntry.name entry) (UrlEntry.type entry)
             DOWN (PingConfig.attempts config) 0
             (PingStatistics.mk 0%float 0%float 0%float 0%float 100%float)
             (DnsInfo.mk None (UrlEntry.url entry) 0%Z None)
             None false
             (Env.now_end env - Env.now_start env)%Z (Env.timestamp env)
             (Some (error_text error)) [])).

(** The batch loop of [runAdvancedPingTest] with its two [await]s: on
    [Promise.all] over the calls of a batch, and on the timer before the
    next batch. It runs on [fuel] as above. *)
Fixpoint batch_loop (fuel : nat) (oracle : nat → nat) (turn : nat)
    (world : UrlEntry.t → Env.t) (config : PingConfig.t)
    (uniqueUrls : list UrlEntry.t) (i : nat)
    (results : list PingResult.t) (trace : list Event)
    : option (outcome (list PingResult.t * list Event)) :=
  match fuel with
  | O => None
  | S fuel' =>
      if (i <? length uniqueUrls)%nat then
        let batch := slice uniqueUrls i (i + PingConfig.batchSize config) in
        let batchNum := (i / PingConfig.batchSize config + 1)%nat in
        let '(batchResults, steps, turn) :=
          Promise_all oracle turn
            (λ entry, advancedPingUrl (world entry) entry config) batch in
        let trace := trace ++ (InBatch batchNum <$> steps) in
        match batchResults with
        | Raised error => Some (Raised error)
        | Returned batchResults =>
            let results := results ++ batchResults in
            let trace := trace ++ [Collected batchNum (length batchResults)] in
            let trace :=
              if (i + PingConfig.batchSize config <? length uniqueUrls)%nat
              then trace ++ [Paused 1000] else trace in
            batch_loop fuel' oracle turn world config uniqueUrls
              (i + PingConfig.batchSize config) results trace
        end
      else Some (Returned (results, trace))
  end.

End Scripts.

End Async.

(** * The fast check and the listing of working URLs *)

(** [extractHostname], the same in both scripts: [new URL], else the
    pattern, else the address itself. *)
Definition extractHostname (URL_parse : string → option URL.t) (urlString : string) : string :=
  match URL_parse urlString with
  | Some url => URL.hostname url
  | None =>
      match match_host urlString with
      | Some host => if is_empty host then urlString else host
      | None => urlString
      end
  end.

(** The readings of the clock a whole run takes. *)
Module Clock.
Record t : Type := mk { startTime : Z; endTime : Z; timestamp : string }.
End Clock.

Module FastCheck.

Inductive Status : Set := UP | DOWN.

#[global] Instance Status_eq_dec : EqDecision Status.
Proof. solve_decision. Defined.

Module SimpleResult.
Record t : Type := mk { url : string; name : string; status : Status; responseTime : Z }.
End SimpleResult.

Module Summary.
Record t : Type := mk { total : nat; up : nat; down : nat; successRate : number }.
End Summary.

Module UpSite.
Record t : Type := mk { url : string; time : Z }.
End UpSite.

Module SimpleOutput.
Record t : Type := mk {
  timestamp : string;
  totalTime : Z;
  summary : Summary.t;
  upSites : list UpSite.t;
  downSites : list string
}.
End SimpleOutput.

Section Scripts.
Variable URL_parse : string → option URL.t.
Variable Number_digits : number → string.

Definition quickPing (env : Env.t) (entry : UrlEntry.t) : outcome SimpleResult.t :=
  let hostname := extractHostname URL_parse (UrlEntry.url entry) in
  try_catch
    (result ← Env.ping_probe env hostname 2%float 0;
     mret (SimpleResult.mk (UrlEntry.url entry) (UrlEntry.name entry)
             (if PingResponse.alive result then UP else DOWN)
             (Env.now_end env - Env.now_start env)%Z))
    (λ _,
     mret (SimpleResult.mk (UrlEntry.url entry) (UrlEntry.name entry) DOWN
             (Env.now_end env - Env.now_start env)%Z)).

(** [parseFloat(((up / total) * 100).toFixed(1))] *)
Definition successRate (up total : nat) : number :=
  parseFloat (toFixed Number_digits (nat2num up / nat2num total * 100)%float 1).

(** What the script writes to [quick-results.json]. *)
Definition fastCheck (clock : Clock.t) (world : UrlEntry.t → Env.t)
    (urls : list UrlEntry.t) : outcome SimpleOutput.t :=
  let uniqueUrls := uniqueUrls_Set urls in
  results ← Promise_all (λ entry, quickPing (world entry) entry) uniqueUrls;
  let totalTime := (Clock.endTime clock - Clock.startTime clock)%Z in
  let upSites := filter (λ r, SimpleResult.status r = UP) results in
  let downSites := filter (λ r, SimpleResult.status r = DOWN) results in
  let upSites :=
    Array_sort positive_Z
      (λ a b, SimpleResult.responseTime a - SimpleResult.responseTime b)%Z upSites in
  mret (SimpleOutput.mk (Clock.timestamp clock) totalTime
          (Summary.mk (length results) (length upSites) (length downSites)
             (successRate (length upSites) (length results)))
          ((λ s, UpSite.mk (SimpleResult.url s) (SimpleResult.responseTime s)) <$> upSites)
          (SimpleResult.url <$> downSites)).

End Scripts.

End FastCheck.

Module ListUp.

Module CheckResult.
Record t : Type := mk { url : string; name : string; isUp : bool }.
End CheckResult.

Module WorkingUrl.
Record t : Type := mk { url : string; name : string }.
End WorkingUrl.

Module DetailedList.
Record t : Type := mk {
  timestamp : string;
  total_checked : nat;
  working_count : nat;
  success_rate : number;
  working_urls : list WorkingUrl.t
}.
End DetailedList.

Section Scripts.
Variable URL_parse : string → option URL.t.
Variable Number_digits : number → string.

Definition checkUrl (env : Env.t) (entry : UrlEntry.t) : outcome CheckResult.t :=
  let hostname := extractHostname URL_parse (UrlEntry.url entry) in
  try_catch
    (result ← Env.ping_probe env hostname 2%float 0;
     mret (CheckResult.mk (UrlEntry.url entry) (UrlEntry.name entry)
             (PingResponse.alive result)))
    (λ _, mret (CheckResult.mk (UrlEntry.url entry) (UrlEntry.name entry) false)).

(** The lines of [working-urls.txt] and the object of [working-urls.json]. *)
Definition listUpUrls (clock : Clock.t) (world : UrlEntry.t → Env.t)
    (urls : list UrlEntry.t) : outcome (list string * DetailedList.t) :=
  let uniqueUrls := uniqueUrls_Set urls in
  results ← Promise_all (λ entry, checkUrl (world entry) entry) uniqueUrls;
  let upUrls := filter (λ r, CheckResult.isUp r = true) results in
  let workingUrls := CheckResult.url <$> upUrls in
  mret (workingUrls,
        DetailedList.mk (Clock.timestamp clock) (length uniqueUrls) (length upUrls)
          (parseFloat
             (toFixed Number_digits
                (nat2num (length upUrls) / nat2num (length uniqueUrls) * 100)%float 1))
          ((λ site, WorkingUrl.mk (CheckResult.url site) (CheckResult.name site)) <$> upUrls)).

End Scripts.

End ListUp.

(** * test-ping.ts: the fetch-based probe *)

Module TestPing.

Inductive Status : Set := UP | DOWN.

Module PingResult.
Record t : Type := mk {
  url : string;
  name : string;
  type : string;
  status : Status;
  responseTime : Z;
  statusCode : option nat;
  error : option string
}.
End PingResult.

(** A [HEAD] request, a [GET] request when the [HEAD] one raises, and
    whatever the [GET] raises reported as an unreachable endpoint. *)
Definition pingUrl (env : Env.t) (entry : UrlEntry.t) : outcome PingResult.t :=
  try_catch
    (response ← try_catch (Env.fetch env (UrlEntry.url entry) HEAD)
                  (λ _, Env.fetch env (UrlEntry.url entry) GET);
     mret (PingResult.mk (UrlEntry.url entry) (UrlEntry.name entry) (UrlEntry.type entry)
             (if Response.ok response then UP else DOWN)
             (Env.now_end env - Env.now_start env)%Z
             (Some (Response.status response)) None))
    (λ error,
     mret (PingResult.mk (UrlEntry.url entry) (UrlEntry.name entry) (UrlEntry.type entry)
             DOWN (Env.now_end env - Env.now_start env)%Z None
             (Some (error_text error)))).

#[global] Instance Status_eq_dec : EqDecision Status.
Proof. solve_decision. Defined.

Module Summary.
Record t : Type := mk {
  upCount : nat;
  downCount : nat;
  successRate : string;
  avgResponseTime : option string
}.
End Summary.



End TestPing.

(** * Vocabulary of the properties *)

(** A finite number above zero. *)
Definition finite_pos (x : number) : Prop :=
  ∃ m e, Prim2SF x = S754_finite false m e.

(** The binary64 form of a safe integer [c]: a full mantissa [c * 2 ^ -e]. *)
Definition represents (c m : positive) (e : Z) : Prop :=
  (Z.pos (digits2_pos m) = 53 ∧ -52 <= e <= 0 ∧ Z.pos m = Z.pos c * 2 ^ (- e))%Z.

(** A count the numbers hold exactly. *)
Definition safe_integer (n : nat) : Prop := (Z.of_nat n < 2 ^ 53)%Z.

(** The catalog cut into consecutive batches of [size] entries, the last
    one possibly shorter. *)
Equations? chunks {A} (size : nat) (items : list A) : list (list A)
  by wf (length items) lt :=
  chunks size [] := [];
  chunks 0 (x :: rest) := [x :: rest];
  chunks (S n) (x :: rest) := (x :: take n rest) :: chunks (S n) (drop n rest).
Proof. rewrite length_drop. lia. Qed.

(** What the batch loop does for the batches from number [k] on: the
    probes of a batch are started, the batch is collected, and the loop
    pauses when another batch follows. *)
Fixpoint trace_of_batches (k : nat) (batches : list (list UrlEntry.t)) : list ListTs.Event :=
  match batches with
  | [] => []
  | batch :: rest =>
      (ListTs.ProbeStarted k <$> batch)
        ++ [ListTs.BatchCollected k (length batch)]
        ++ (match rest with [] => [] | _ :: _ => [ListTs.BatchDelay 1000] end)
        ++ trace_of_batches (S k) rest
  end.

(** The place of an event in the order of the batches: the probes of batch
    [k] stand at [2 k], its collection at [2 k + 1]; a pause has none. *)
Definition phase (event : ListTs.Event) : option nat :=
  match event with
  | ListTs.ProbeStarted k _ => Some (2 * k)
  | ListTs.BatchCollected k _ => Some (2 * k + 1)
  | ListTs.BatchDelay _ => None
  end.

Definition phases (trace : list ListTs.Event) : list nat := omap phase trace.

(** The [i]-th attempt on a host succeeds when the probe returns and
    reports the host alive. *)
Definition attempt_succeeds (env : Env.t) (config : ListTs.PingConfig.t)
    (hostname : string) (i : nat) : bool :=
  match Env.ping_probe env hostname (ListTs.PingConfig.timeout config / 1000)%float i with
  | Returned result => PingResponse.alive result
  | Raised _ => false
  end.

(** How many of the attempts the configuration asks for succeed. *)
Definition successful_attempts (env : Env.t) (config : ListTs.PingConfig.t)
    (hostname : string) : nat :=
  length (filter (λ i, attempt_succeeds env config hostname i = true)
            (seq 0 (ListTs.PingConfig.attempts config))).

(** How many of them fail. *)
Definition failed_attempts (env : Env.t) (config : ListTs.PingConfig.t)
    (hostname : string) : nat :=
  length (filter (λ i, attempt_succeeds env config hostname i = false)
            (seq 0 (ListTs.PingConfig.attempts config))).

(** What the attempts loop records of the [i]-th attempt: whether it
    succeeded, its number, and the whole timeout for its time when the
    probe raised. *)
Definition records_attempt (env : Env.t) (config : ListTs.PingConfig.t)
    (hostname : string) (i : nat) (r : ListTs.RawPing.t) : Prop :=
  ListTs.RawPing.alive r = attempt_succeeds env config hostname i
  ∧ ListTs.RawPing.attempt r = i + 1
  ∧ ∀ error,
      Env.ping_probe env hostname (ListTs.PingConfig.timeout config / 1000)%float i
      = Raised error
      → ListTs.RawPing.time r = ListTs.PingConfig.timeout config.

(** What [performDnsLookup] makes of the answer of the resolver. *)
Definition dns_record (env : Env.t) (hostname : string) : ListTs.DnsInfo.t :=
  match Env.dns_lookup env hostname with
  | Returned address =>
      ListTs.DnsInfo.mk (Some address) hostname (Env.dns_elapsed env hostname) None
  | Raised error =>
      ListTs.DnsInfo.mk None hostname (Env.dns_elapsed env hostname)
        (Some (error_text error))
  end.

(** How many of the recorded attempts are marked alive. *)
Definition alive_count (raw : list ListTs.RawPing.t) : nat :=
  length (filter (λ r, ListTs.RawPing.alive r = true) raw).

(** A result may stand before another in the sorted results of the
    multi-attempt analysis: before a fully reachable one stand only fully
    reachable ones of at most its average. And a fully reachable result
    [avg_known] has an average that is a number. *)
Definition precedes (a b : ListTs.PingResult.t) : Prop :=
  ListTs.PingResult.status b = ListTs.UP
  → ListTs.PingResult.status a = ListTs.UP
    ∧ (ListTs.PingStatistics.avg (ListTs.PingResult.statistics a)
       <=? ListTs.PingStatistics.avg (ListTs.PingResult.statistics b))%float = true.

Definition avg_known (r : ListTs.PingResult.t) : Prop :=
  ListTs.PingResult.status r = ListTs.UP
  → is_nan (ListTs.PingStatistics.avg (ListTs.PingResult.statistics r)) = false.

(** The pairs [runAdvancedPingTest] builds its [Map] from, and the
    property that every value of a [Map] is filed under its own address. *)
Definition url_entries (urls : list UrlEntry.t) : list (string * UrlEntry.t) :=
  (λ item, (UrlEntry.url item, item)) <$> urls.

Definition keyed (m : list (string * UrlEntry.t)) : Prop :=
  Forall (λ kv, kv.1 = UrlEntry.url kv.2) m.

(** The entry of a catalog that comes first, and last, with an address. *)
Definition first_with_url (address : string) (urls : list UrlEntry.t) : option UrlEntry.t :=
  head (filter (λ item, UrlEntry.url item = address) urls).

Definition last_with_url (address : string) (urls : list UrlEntry.t) : option UrlEntry.t :=
  last (filter (λ item, UrlEntry.url item = address) urls).

(** Three entries, two of them with one address, and a world for the
    examples: every host resolves and answers, in 12.5 ms from the third
    attempt on and without a time before. *)
Definition entry_A : UrlEntry.t := UrlEntry.mk "A" "http://a.example" "FTP".
Definition entry_B : UrlEntry.t := UrlEntry.mk "B" "http://a.example" "TV".
Definition entry_C : UrlEntry.t := UrlEntry.mk "C" "http://b.example" "UNKNOWN".
Definition entry_localhost : UrlEntry.t := UrlEntry.mk "local" "localhost" "UNKNOWN".

Definition rejecting_parser (urlString : string) : option URL.t := None.
Definition no_digits (x : number) : string := "12.5".

Definition answering_env : Env.t :=
  Env.mk 1000 1250 "2025-01-01T00:00:00.000Z"
    (λ _, Returned "10.0.0.1") (λ _, 3%Z)
    (λ _ _ i, Returned (PingResponse.mk true (if (i <? 2)%nat then None else Some 12.5%float)))
    (λ _ _, 12%Z)
    (λ _ _, Returned (Response.mk true 200)).

(** A world where the first two attempts on any host fail. *)
Definition flaky_env : Env.t :=
  Env.mk 1000 1250 "2025-01-01T00:00:00.000Z"
    (λ _, Raised (ErrorObject "getaddrinfo ENOTFOUND")) (λ _, 3%Z)
    (λ _ _ i, if (i <? 1)%nat then Raised (ErrorObject "spawn ping ENOENT")
              else Returned (PingResponse.mk (negb (i <? 2)%nat) (Some 12.5%float)))
    (λ _ _, 12%Z)
    (λ _ _, Raised (ErrorObject "The operation timed out.")).

(** A world where the resolver answers and every probe raises. *)
Definition silent_env : Env.t :=
  Env.mk 1000 1250 "2025-01-01T00:00:00.000Z"
    (λ _, Returned "10.0.0.1") (λ _, 3%Z)
    (λ _ _ _, Raised (ErrorObject "connect ETIMEDOUT"))
    (λ _ _, 12%Z)
    (λ _ _, Raised (ErrorObject "The operation timed out.")).

Definition sample_clock : Clock.t := Clock.mk 1000 3000 "2025-01-01T00:00:02.000Z".

(** Every character of a string passes a test; a string stops a run of
    such characters when it is empty or begins with one that fails it. *)
Definition chars_all (p : ascii → bool) (s : string) : Prop :=
  Forall (λ c, p c = true) (String.list_ascii_of_string s).

Definition stops (p : ascii → bool) (s : string) : Prop :=
  match s with EmptyString => True | String c _ => p c = false end.

(** What may follow the host and port of an address: nothing, or a path. *)
Definition starts_path (tail : string) : Prop :=
  match tail with EmptyString => True | String c _ => c = "/"%char end.

(** An address written out from its parts. *)
Definition address (https : bool) (host : string) (port : option string) (tail : string)
    : string :=
  (if https then "https://" else "http://") +:+ host
    +:+ match port with Some digits => ":" +:+ digits | None => "" end +:+ tail.

(** The place of a binary64 value in the order of the numbers: its sign
    class first, then exponent and mantissa, read downwards for the
    negative ones. Both zeros share a place; [NaN] has none. *)
Definition SF_key (f : spec_float) : Z * (Z * Z) :=
  match f with
  | S754_zero _ | S754_nan => (0, (0, 0))
  | S754_infinity s => (if s then -2 else 2, (0, 0))
  | S754_finite s m e => if s then (-1, (- e, - Z.pos m)) else (1, (e, Z.pos m))
  end%Z.

Definition key_le (a b : Z * (Z * Z)) : Prop :=
  (a.1 < b.1 ∨ a.1 = b.1 ∧ (a.2.1 < b.2.1 ∨ a.2.1 = b.2.1 ∧ a.2.2 <= b.2.2))%Z.

Definition key_lt (a b : Z * (Z * Z)) : Prop :=
  (a.1 < b.1 ∨ a.1 = b.1 ∧ (a.2.1 < b.2.1 ∨ a.2.1 = b.2.1 ∧ a.2.2 < b.2.2))%Z.

(** A number that is not [NaN]. *)
Definition is_number (x : number) : Prop := is_nan x = false.

(** A string without a dot. *)
Definition dotless (s : string) : Prop :=
  Forall (λ c, c ≠ "."%char) (String.list_ascii_of_string s).

(** The results filed key by key, and the keys in the order in which they
    first appear. *)
Definition grouped (keys : list string) (results : list ListTs.PingResult.t)
    : list (string * list ListTs.PingResult.t) :=
  (λ k, (k, filter (λ r, ListTs.network_of r = k) results)) <$> keys.

Definition in_order_of_appearance (keys : list string) : list string :=
  foldl (λ seen k, if decide (k ∈ seen) then seen else seen ++ [k]) [] keys.

(** The single probe of the two quick scripts finds the host of an entry
    alive. *)
Definition answers (URL_parse : string → option URL.t) (env : Env.t) (entry : UrlEntry.t)
    : bool :=
  match Env.ping_probe env (extractHostname URL_parse (UrlEntry.url entry)) 2%float 0 with
  | Returned result => PingResponse.alive result
  | Raised _ => false
  end.

(** A parser that accepts one FTP address, and two configurations at the
    edge: no attempts, and batches of no entries. *)
Definition ftp_parser (urlString : string) : option URL.t :=
  if String.eqb urlString "ftp://ftp.example/pub"
  then Some (URL.mk "ftp.example" "" "ftp:") else None.

Definition no_attempts_config : ListTs.PingConfig.t :=
  ListTs.PingConfig.mk 0 5000%float 500%float 8 true true.

Definition zero_batch_config : ListTs.PingConfig.t :=
  ListTs.PingConfig.mk 3 5000%float 300%float 0 true true.

(** The steps a task takes from where it stands, resumption by
    resumption, and the calls of a list of tasks. *)
Fixpoint steps_of {A} (index : nat) (t : Async.task A) : list Async.Step :=
  match t with
  | Async.Settled _ => []
  | Async.Await request resume =>
      Async.Resumed index request (Async.is_settled resume) :: steps_of index resume
  end.

Definition calls_of {A} (tasks : list (Async.task A)) : list Async.Step :=
  imap (λ index t, Async.Called index (negb (Async.is_settled t))) tasks.

Definition step_index (step : Async.Step) : nat :=
  match step with
  | Async.Called index _ | Async.Resumed index _ _ => index
  end.

(** Steps that interleave the resumptions of the tasks: every step is one
    of a task of the list, and the steps of each task are its own, all of
    them and in their order. *)
Definition interleaves {A} (tasks : list (Async.task A)) (steps : list Async.Step) : Prop :=
  Forall (λ step, step_index step < length tasks) steps
  ∧ ∀ index t, tasks !! index = Some t
               → filter (λ step, step_index step = index) steps = steps_of index t.

(** The trace of a run in batches, from batch number [k] on: for each
    batch the calls of all its probes, then their resumptions interleaved
    in some way, then the collection of the results, then the pause when
    another batch follows. *)
Fixpoint in_batches {A} (k : nat) (batches : list (list (Async.task A)))
    (trace : list Async.Event) : Prop :=
  match batches with
  | [] => trace = []
  | tasks :: rest =>
      ∃ resumptions later,
        interleaves tasks resumptions
        ∧ trace
          = (Async.InBatch k <$> calls_of tasks)
              ++ (Async.InBatch k <$> resumptions)
              ++ [Async.Collected k (length tasks)]
              ++ match rest with [] => [] | _ :: _ => [Async.Paused 1000] end
              ++ later
        ∧ in_batches (S k) rest later
  end.

(** The place of an event in the order of a run: the calls of batch [k],
    then its resumptions, then its collection; a pause has none. *)
Definition stage (event : Async.Event) : option nat :=
  match event with
  | Async.InBatch k (Async.Called _ _) => Some (3 * k)
  | Async.InBatch k (Async.Resumed _ _ _) => Some (3 * k + 1)
  | Async.Collected k _ => Some (3 * k + 2)
  | Async.Paused _ => None
  end.

Definition stages (trace : list Async.Event) : list nat := omap stage trace.

(** A configuration with one attempt per site and batches of two, and two
    ways the world may take its turns among the probes in flight: each in
    turn, or always the first. *)
Definition pairs_config : ListTs.PingConfig.t :=
  ListTs.PingConfig.mk 1 5000%float 300%float 2 true true.

Definition each_in_turn (turn : nat) : nat := turn.
Definition first_in_flight (turn : nat) : nat := 0.

(** The comparison of the sort yields a number on every two of the
    results. The fully reachable ones then have finite averages, and the
    comparison is a consistent one. *)
Definition comparable (results : list ListTs.PingResult.t) : Prop :=
  Forall (λ a, Forall (λ b, is_nan (ListTs.by_status_then_avg a b) = false) results)
    results.

(** A world where the host [a.example] is flaky and every other host
    answers. *)
Definition mixed_world (entry : UrlEntry.t) : Env.t :=
  if String.eqb (UrlEntry.url entry) "http://a.example" then flaky_env else answering_env.

(** * Properties *)

(** ** Binary64 arithmetic on counts *)

Section Binary64.
Local Open Scope Z_scope.

Lemma digits2_pos_iter_xO (p k : positive) :
  digits2_pos (Pos.iter xO p k) = (digits2_pos p + k)%positive.
Proof.
  induction k as [|k IH] using Pos.peano_ind.
  - simpl. lia.
  - rewrite Pos.iter_succ. simpl. rewrite IH. lia.
Qed.

Lemma digits2_pos_lower (p : positive) :
  2 ^ (Z.pos (digits2_pos p) - 1) <= Z.pos p.
Proof.
  induction p as [p IH|p IH|]; simpl digits2_pos; [| |simpl; lia].
  all: replace (Z.pos (Pos.succ (digits2_pos p)) - 1)
         with (Z.succ (Z.pos (digits2_pos p) - 1)) by lia.
  all: rewrite Z.pow_succ_r by lia; lia.
Qed.

Lemma digits2_pos_safe (p : positive) :
  Z.pos p < 2 ^ 53 → Z.pos (digits2_pos p) <= 53.
Proof.
  intros Hp. pose proof (digits2_pos_lower p) as Hl.
  destruct (Z_le_gt_dec (Z.pos (digits2_pos p)) 53) as [|Hgt]; [done|].
  assert (2 ^ 53 <= 2 ^ (Z.pos (digits2_pos p) - 1)) by (apply Z.pow_le_mono_r; lia).
  lia.
Qed.

(** A mantissa of full width is left alone by the rounding. *)
Lemma binary_round_aux_canonical (s : bool) (m : positive) (e : Z) :
  Z.pos (digits2_pos m) = 53 → -1074 <= e <= 971 →
  binary_round_aux prec emax s (Z.pos m) e loc_Exact = S754_finite s m e.
Proof.
  intros Hd He.
  assert (Hf : fexp prec emax (Z.pos (digits2_pos m) + e) - e = 0).
  { rewrite Hd. unfold fexp, emin, prec, emax. lia. }
  unfold binary_round_aux, shr_fexp. simpl Zdigits2. simpl shr_record_of_loc.
  rewrite Hf. simpl. rewrite Hf. simpl.
  change (emax - prec) with 971. destruct (Z.leb_spec e 971); [done | lia].
Qed.

Lemma binary_round_safe (p : positive) :
  Z.pos p < 2 ^ 53 →
  ∃ m e, binary_round prec emax false p 0 = S754_finite false m e
         ∧ valid_binary (S754_finite false m e) = true.
Proof.
  intros Hp. pose proof (digits2_pos_safe p Hp) as Hd.
  unfold binary_round.
  assert (Hf : fexp prec emax (Z.pos (digits2_pos p) + 0) = Z.pos (digits2_pos p) - 53).
  { unfold fexp, emin, prec, emax. lia. }
  rewrite Hf. unfold shl_align.
  destruct (Z.pos (digits2_pos p) - 53 - 0) as [|k|k] eqn:Hk; [| lia |].
  - exists p, 0. rewrite binary_round_aux_canonical by lia. split; [done|].
    simpl. unfold bounded, canonical_mantissa, fexp, emin, prec, emax.
    replace (Z.pos (digits2_pos p)) with 53 by lia. done.
  - exists (Pos.iter xO p k), (Z.pos (digits2_pos p) - 53).
    assert (Hdk : Z.pos (digits2_pos (Pos.iter xO p k)) = 53).
    { rewrite digits2_pos_iter_xO. lia. }
    rewrite binary_round_aux_canonical by lia. split; [done|].
    simpl. unfold bounded, canonical_mantissa. rewrite Hdk.
    unfold fexp, emin, prec, emax.
    apply andb_true_intro; split; [apply Z.eqb_eq | apply Z.leb_le]; lia.
Qed.

Lemma Z2num_finite_pos (z : Z) : 1 <= z < 2 ^ 53 → finite_pos (Z2num z).
Proof.
  intros Hz. destruct z as [|p|p]; try lia.
  destruct (binary_round_safe p) as (m & e & Hr & Hv); [lia|].
  exists m, e. unfold Z2num. simpl binary_normalize. rewrite Hr.
  by apply Prim2SF_SF2Prim.
Qed.

Lemma nat2num_finite_pos (n : nat) :
  (1 ≤ n)%nat → safe_integer n → finite_pos (nat2num n).
Proof. intros Hn Hs. apply Z2num_finite_pos. unfold safe_integer in Hs. lia. Qed.

Lemma nat2num_0 : nat2num 0 = 0%float.
Proof. reflexivity. Qed.

Lemma sub_zero_finite (x : number) : finite_pos x → (x - 0)%float = x.
Proof.
  intros (m & e & Hx). apply Prim2SF_inj. rewrite sub_spec, Hx. reflexivity.
Qed.

Lemma sub_diag_finite (x : number) : finite_pos x → (x - x)%float = 0%float.
Proof.
  intros (m & e & Hx). apply Prim2SF_inj. rewrite sub_spec, Hx.
  unfold SF64sub, SFsub. rewrite Z.min_id. unfold shl_align.
  rewrite !Z.sub_diag. reflexivity.
Qed.

Lemma zero_div_finite (x : number) : finite_pos x → (0 / x)%float = 0%float.
Proof.
  intros (m & e & Hx). apply Prim2SF_inj. rewrite div_spec, Hx. reflexivity.
Qed.

Lemma div_diag_finite (x : number) : finite_pos x → (x / x)%float = 1%float.
Proof.
  intros (m & e & Hx). apply Prim2SF_inj. rewrite div_spec, Hx.
  unfold SF64div, SFdiv, SFdiv_core_binary.
  rewrite !Z.sub_diag.
  change (Z.min (fexp prec emax 0) 0) with (-53).
  change (0 - -53) with 53.
  cbv beta iota zeta.
  assert (Hq : Z.div_eucl (Z.shiftl (Z.pos m) 53) (Z.pos m) = (2 ^ 53, 0)).
  { rewrite Z.shiftl_mul_pow2 by lia. rewrite Z.mul_comm.
    pose proof (Z.div_mul (2 ^ 53) (Z.pos m) ltac:(lia)) as Hd.
    pose proof (Z.mod_mul (2 ^ 53) (Z.pos m) ltac:(lia)) as Hm.
    unfold Z.div, Z.modulo in Hd, Hm.
    destruct (Z.div_eucl (2 ^ 53 * Z.pos m) (Z.pos m)) as [q r].
    by subst. }
  rewrite Hq.
  assert (Hl : new_location (Z.pos m) 0 = loc_Exact).
  { unfold new_location. destruct (Z.even (Z.pos m)); reflexivity. }
  rewrite Hl. vm_compute. reflexivity.
Qed.

Lemma Zpos_iter_xO (p k : positive) :
  Z.pos (Pos.iter xO p k) = Z.pos p * 2 ^ Z.pos k.
Proof.
  induction k as [|k IH] using Pos.peano_ind.
  - simpl. lia.
  - rewrite Pos.iter_succ, Pos2Z.inj_succ, Z.pow_succ_r by lia.
    rewrite Pos2Z.inj_xO, IH. lia.
Qed.

Lemma iter_pos_shr_1 (t m : positive) :
  iter_pos shr_1 t (Build_shr_record (Z.pos (Pos.iter xO m t)) false false)
  = Build_shr_record (Z.pos m) false false.
Proof.
  revert m. induction t as [t IH|t IH|]; intros m; simpl.
  - by rewrite !IH.
  - by rewrite !IH.
  - done.
Qed.

Lemma digits2_pos_upper (p : positive) : Z.pos p < 2 ^ Z.pos (digits2_pos p).
Proof.
  induction p as [p IH|p IH|]; simpl digits2_pos; [| |simpl; lia].
  all: rewrite Pos2Z.inj_succ, Z.pow_succ_r by lia; lia.
Qed.

(** The shape of a positive integer scaled by a power of two. *)
Lemma scaled_pos (m p : positive) (k : Z) :
  0 <= k → Z.pos m = Z.pos p * 2 ^ k →
  (k = 0 ∧ m = p) ∨ (∃ d, k = Z.pos d ∧ m = Pos.iter xO p d).
Proof.
  intros Hk Hm. destruct k as [|d|d]; [left|right|lia].
  - split; [done|]. simpl in Hm. lia.
  - exists d. split; [done|]. apply Pos2Z.inj. by rewrite Zpos_iter_xO.
Qed.

Lemma digits2_pos_scaled (m p : positive) (k : Z) :
  0 <= k → Z.pos m = Z.pos p * 2 ^ k →
  Z.pos (digits2_pos m) = Z.pos (digits2_pos p) + k.
Proof.
  intros Hk Hm. destruct (scaled_pos m p k Hk Hm) as [[-> ->]|(d & -> & ->)]; [lia|].
  rewrite digits2_pos_iter_xO. lia.
Qed.

Lemma represents_unique c m e m' e' :
  represents c m e → represents c m' e' → m = m' ∧ e = e'.
Proof.
  intros (Hd & He & Hm) (Hd' & He' & Hm').
  pose proof (digits2_pos_scaled m c (- e) ltac:(lia) Hm).
  pose proof (digits2_pos_scaled m' c (- e') ltac:(lia) Hm').
  assert (e = e') as -> by lia. split; [|done]. apply Pos2Z.inj. lia.
Qed.

(** Rounding an exact multiple [c * 2 ^ -e] of a power of two at exponent
    [e] gives the form of [c]. *)
Lemma binary_round_exact (c P : positive) (e : Z) :
  Z.pos c < 2 ^ 53 → -52 <= e <= 0 → Z.pos P = Z.pos c * 2 ^ (- e) →
  ∃ m' e', binary_round prec emax false P e = S754_finite false m' e'
           ∧ represents c m' e'.
Proof.
  intros Hc He HP.
  pose proof (digits2_pos_safe c Hc) as Hdc.
  pose proof (digits2_pos_scaled P c (- e) ltac:(lia) HP) as HdP.
  set (e' := Z.pos (digits2_pos c) - 53).
  assert (Hf : fexp prec emax (Z.pos (digits2_pos P) + e) = e').
  { unfold fexp, emin, prec, emax, e'. lia. }
  unfold binary_round. rewrite Hf. unfold shl_align.
  destruct (e' - e) as [|t|d] eqn:Ht.
  - exists P, e. rewrite binary_round_aux_canonical by lia.
    split; [done|]. unfold represents. repeat split; (done || lia).
  - (* the mantissa has [t] bits too many, all of them zero *)
    assert (Hm' : ∃ m', Z.pos m' = Z.pos c * 2 ^ (- e')).
    { exists (Z.to_pos (Z.pos c * 2 ^ (- e'))). rewrite Z2Pos.id; [done|].
      apply Z.mul_pos_pos; [lia|]. apply Z.pow_pos_nonneg; lia. }
    destruct Hm' as [m' Hm'].
    assert (HPm : P = Pos.iter xO m' t).
    { apply Pos2Z.inj. rewrite Zpos_iter_xO, Hm', HP.
      rewrite <- Z.mul_assoc, <- Z.pow_add_r by lia. do 2 f_equal. lia. }
    assert (Hdm : Z.pos (digits2_pos m') = 53).
    { rewrite (digits2_pos_scaled m' c (- e') ltac:(lia) Hm'). unfold e'. lia. }
    exists m', e'. split; [|unfold represents; repeat split; (done || lia)].
    unfold binary_round_aux, shr_fexp. simpl Zdigits2. simpl shr_record_of_loc.
    rewrite Hf. replace (e' - e) with (Z.pos t) by lia. unfold shr.
    rewrite HPm, iter_pos_shr_1. simpl.
    assert (Hf' : fexp prec emax (Z.pos (digits2_pos m') + (e + Z.pos t))
                  - (e + Z.pos t) = 0).
    { rewrite Hdm. unfold fexp, emin, prec, emax. lia. }
    rewrite Hf'. simpl. change (emax - prec) with 971.
    replace (e + Z.pos t) with e' by lia.
    destruct (Z.leb_spec e' 971); [done|lia].
  - exists (Pos.iter xO P d), e'.
    assert (Hd : Z.pos (digits2_pos (Pos.iter xO P d)) = 53).
    { rewrite digits2_pos_iter_xO. lia. }
    rewrite binary_round_aux_canonical by lia. split; [done|].
    unfold represents. split; [done|]. split; [lia|].
    rewrite Zpos_iter_xO, HP, <- Z.mul_assoc, <- Z.pow_add_r by lia.
    do 2 f_equal. lia.
Qed.

Lemma Z2num_represents (p : positive) :
  Z.pos p < 2 ^ 53 →
  ∃ m e, Prim2SF (Z2num (Z.pos p)) = S754_finite false m e ∧ represents p m e.
Proof.
  intros Hp.
  destruct (binary_round_exact p p 0 Hp ltac:(lia) ltac:(simpl; lia))
    as (m & e & Hr & Hrep).
  exists m, e. split; [|done].
  unfold Z2num. simpl binary_normalize. rewrite Hr.
  apply Prim2SF_SF2Prim. destruct Hrep as (Hd & He & _).
  simpl. unfold bounded, canonical_mantissa. rewrite Hd.
  unfold fexp, emin, prec, emax.
  apply andb_true_intro; split; [apply Z.eqb_eq | apply Z.leb_le]; lia.
Qed.

(** Subtraction of safe integers is exact. *)
Lemma Z2num_sub (a k : Z) :
  0 <= k <= a → a < 2 ^ 53 → (Z2num a - Z2num k)%float = Z2num (a - k).
Proof.
  intros Hk Ha.
  destruct (decide (k = 0)) as [->|Hk0].
  { rewrite Z.sub_0_r. destruct (decide (a = 0)) as [->|]; [done|].
    apply sub_zero_finite, Z2num_finite_pos. lia. }
  destruct (decide (k = a)) as [->|Hka].
  { rewrite Z.sub_diag. apply sub_diag_finite, Z2num_finite_pos. lia. }
  destruct a as [|pa|]; try lia. destruct k as [|pk|]; try lia.
  destruct (Z.pos pa - Z.pos pk) as [|pc|] eqn:Hc; try lia.
  destruct (Z2num_represents pa) as (ma & ea & Hpa & Hda & Hea & Hma); [lia|].
  destruct (Z2num_represents pk) as (mk & ek & Hpk & Hdk & Hek & Hmk); [lia|].
  destruct (Z2num_represents pc) as (mc & ec & Hpc & Hrc); [lia|].
  assert (Hle : ek <= ea).
  { pose proof (digits2_pos_scaled ma pa (- ea) ltac:(lia) Hma).
    pose proof (digits2_pos_scaled mk pk (- ek) ltac:(lia) Hmk).
    pose proof (digits2_pos_lower pk). pose proof (digits2_pos_upper pa).
    destruct (Z_le_gt_dec (Z.pos (digits2_pos pk)) (Z.pos (digits2_pos pa))); [lia|].
    assert (2 ^ Z.pos (digits2_pos pa) <= 2 ^ (Z.pos (digits2_pos pk) - 1))
      by (apply Z.pow_le_mono_r; lia).
    lia. }
  apply Prim2SF_inj. rewrite sub_spec, Hpa, Hpk, Hpc.
  unfold SF64sub, SFsub. rewrite Z.min_r by lia. unfold shl_align.
  rewrite Z.sub_diag. cbn [fst cond_Zopp].
  assert (Hdiff : ∃ P,
    Z.pos (match ek - ea with
           | Z.neg d => (Pos.iter xO ma d, ek)
           | _ => (ma, ea)
           end).1 - Z.pos mk = Z.pos P
    ∧ Z.pos P = Z.pos pc * 2 ^ (- ek)).
  { assert (Hval : Z.pos (match ek - ea with
                          | Z.neg d => (Pos.iter xO ma d, ek)
                          | _ => (ma, ea)
                          end).1 = Z.pos pa * 2 ^ (- ek)).
    { destruct (ek - ea) as [|d|d] eqn:Hd; try lia; cbn [fst].
      - rewrite Hma. do 2 f_equal. lia.
      - rewrite Zpos_iter_xO, Hma, <- Z.mul_assoc, <- Z.pow_add_r by lia.
        do 2 f_equal. lia. }
    rewrite Hval, Hmk, <- Z.mul_sub_distr_r, Hc.
    exists (Z.to_pos (Z.pos pc * 2 ^ (- ek))). rewrite Z2Pos.id; [done|].
    apply Z.mul_pos_pos; [lia|]. apply Z.pow_pos_nonneg; lia. }
  destruct Hdiff as (P & -> & HP). simpl binary_normalize.
  destruct (binary_round_exact pc P ek ltac:(lia) ltac:(lia) HP)
    as (m' & e' & -> & Hrep').
  destruct (represents_unique _ _ _ _ _ Hrep' Hrc) as [-> ->]. done.
Qed.

Lemma nat2num_sub (attempts successes : nat) :
  (successes ≤ attempts)%nat → safe_integer attempts →
  (nat2num attempts - nat2num successes)%float = nat2num (attempts - successes).
Proof.
  intros Hle Hsafe. unfold nat2num, safe_integer in *.
  rewrite Z2num_sub by lia. f_equal. lia.
Qed.

(** *** The order of numbers and the sign of their difference *)

(** The rounding keeps the sign it is given. *)
Lemma binary_round_aux_sign (s : bool) (m e : Z) (l : location) :
  binary_round_aux prec emax s m e l = S754_zero s
  ∨ binary_round_aux prec emax s m e l = S754_infinity s
  ∨ binary_round_aux prec emax s m e l = S754_nan
  ∨ ∃ m' e', binary_round_aux prec emax s m e l = S754_finite s m' e'.
Proof.
  unfold binary_round_aux.
  destruct (shr_fexp prec emax m e l) as [mrs' e'].
  destruct (shr_fexp prec emax _ e' loc_Exact) as [mrs'' e''].
  destruct (shr_m mrs'') as [|m'|m']; [by left| |by right; right; left].
  destruct (e'' <=? emax - prec); [|by right; left].
  right; right; right. eauto.
Qed.

Lemma shr_1_m (mrs : shr_record) :
  0 <= shr_m mrs → shr_m (shr_1 mrs) = shr_m mrs / 2.
Proof.
  destruct mrs as [m r s]. simpl. intros Hm.
  destruct m as [|[p|p|]|p]; simpl; try done; try lia.
  - rewrite Pos2Z.inj_xI. apply (Z.div_unique _ _ _ 1); lia.
  - rewrite Pos2Z.inj_xO. apply (Z.div_unique _ _ _ 0); lia.
Qed.

Lemma iter_pos_shr_1_m (n : positive) (mrs : shr_record) :
  0 <= shr_m mrs → shr_m (iter_pos shr_1 n mrs) = shr_m mrs / 2 ^ Z.pos n.
Proof.
  revert mrs. induction n as [n IH|n IH|]; intros mrs Hm; simpl iter_pos.
  - assert (0 <= shr_m (shr_1 mrs)).
    { rewrite shr_1_m by done. apply Z.div_pos; lia. }
    assert (0 <= shr_m (iter_pos shr_1 n (shr_1 mrs))).
    { rewrite IH by done. apply Z.div_pos; [done|]. apply Z.pow_pos_nonneg; lia. }
    rewrite !IH, shr_1_m by done.
    rewrite !Z.div_div by (try apply Z.pow_pos_nonneg; lia).
    f_equal. replace (Z.pos n~1) with (1 + Z.pos n + Z.pos n) by lia.
    rewrite !Z.pow_add_r by lia. lia.
  - assert (0 <= shr_m (iter_pos shr_1 n mrs)).
    { rewrite IH by done. apply Z.div_pos; [done|]. apply Z.pow_pos_nonneg; lia. }
    rewrite !IH by done.
    rewrite !Z.div_div by (try apply Z.pow_pos_nonneg; lia).
    f_equal. replace (Z.pos n~0) with (Z.pos n + Z.pos n) by lia.
    by rewrite Z.pow_add_r by lia.
  - rewrite shr_1_m by done. done.
Qed.

Lemma shr_record_of_loc_m (m : Z) (l : location) : shr_m (shr_record_of_loc m l) = m.
Proof. by destruct l as [|[]]. Qed.

(** Above the least exponent the shift of the rounding leaves a positive
    mantissa positive. *)
Lemma shr_fexp_pos (m : positive) (e : Z) (l : location) :
  -1074 <= e →
  0 < shr_m (shr_fexp prec emax (Z.pos m) e l).1
  ∧ -1074 <= (shr_fexp prec emax (Z.pos m) e l).2.
Proof.
  intros He. unfold shr_fexp, shr. simpl Zdigits2.
  destruct (fexp prec emax (Z.pos (digits2_pos m) + e) - e) as [|n|n] eqn:Hn;
    cbn [fst snd]; rewrite ?shr_record_of_loc_m; try (split; lia).
  rewrite iter_pos_shr_1_m by (rewrite shr_record_of_loc_m; lia).
  rewrite shr_record_of_loc_m. split; [|lia].
  assert (Hn' : Z.pos n = Z.pos (digits2_pos m) - 53).
  { unfold fexp, emin, prec, emax in Hn. lia. }
  pose proof (digits2_pos_lower m) as Hlow.
  apply Z.div_str_pos. split; [apply Z.pow_pos_nonneg; lia|].
  etrans; [|apply Hlow]. apply Z.pow_le_mono_r; lia.
Qed.

Lemma round_nearest_even_pos (m : Z) (l : location) :
  0 < m → 0 < round_nearest_even m l.
Proof.
  intros Hm. destruct l as [|[]]; simpl; try lia. destruct (Z.even m); lia.
Qed.

(** So a positive mantissa at a representable exponent never rounds to
    zero: the result is a finite number or an infinity of the sign. *)
Lemma binary_round_aux_nonzero (s : bool) (m : positive) (e : Z) (l : location) :
  -1074 <= e →
  binary_round_aux prec emax s (Z.pos m) e l = S754_infinity s
  ∨ ∃ m' e', binary_round_aux prec emax s (Z.pos m) e l = S754_finite s m' e'.
Proof.
  intros He. unfold binary_round_aux.
  pose proof (shr_fexp_pos m e l He) as [Hm1 He1].
  destruct (shr_fexp prec emax (Z.pos m) e l) as [mrs' e']. cbn [fst snd] in *.
  pose proof (round_nearest_even_pos (shr_m mrs') (loc_of_shr_record mrs') Hm1) as Hr.
  destruct (round_nearest_even (shr_m mrs') (loc_of_shr_record mrs')) as [|m2|m2];
    try lia.
  pose proof (shr_fexp_pos m2 e' loc_Exact He1) as [Hm3 _].
  destruct (shr_fexp prec emax (Z.pos m2) e' loc_Exact) as [mrs'' e'']. cbn [fst] in *.
  destruct (shr_m mrs'') as [|m3|m3]; try lia.
  destruct (e'' <=? emax - prec); eauto.
Qed.

Lemma binary_round_nonzero (s : bool) (m : positive) (e : Z) :
  -1074 <= e →
  binary_round prec emax s m e = S754_infinity s
  ∨ ∃ m' e', binary_round prec emax s m e = S754_finite s m' e'.
Proof.
  intros He. unfold binary_round, shl_align.
  destruct (fexp prec emax (Z.pos (digits2_pos m) + e) - e) eqn:Hf.
  - by apply binary_round_aux_nonzero.
  - by apply binary_round_aux_nonzero.
  - apply binary_round_aux_nonzero. unfold fexp, emin, prec, emax. lia.
Qed.


Lemma shl_align_value (m : positive) (e ez : Z) :
  ez <= e → Z.pos (shl_align m e ez).1 = Z.pos m * 2 ^ (e - ez).
Proof.
  intros He. unfold shl_align. destruct (ez - e) as [|d|d] eqn:Hd; cbn [fst]; try lia.
  - replace (e - ez) with 0 by lia. lia.
  - rewrite Zpos_iter_xO. do 2 f_equal. lia.
Qed.

Lemma bounded_canonical (m : positive) (e : Z) :
  bounded prec emax m e = true →
  -1074 <= e ∧ Z.pos (digits2_pos m) <= 53 ∧ (-1074 < e → Z.pos (digits2_pos m) = 53).
Proof.
  unfold bounded, canonical_mantissa, fexp, emin, prec, emax.
  intros [Hc _]%andb_prop. apply Z.eqb_eq in Hc. lia.
Qed.

(** Of two numbers in canonical form the one with the larger exponent is
    the larger. *)
Lemma larger_exponent (mx my : positive) (ex ey : Z) :
  bounded prec emax mx ex = true → bounded prec emax my ey = true →
  ey < ex → Z.pos my < Z.pos mx * 2 ^ (ex - ey).
Proof.
  intros (Hex & Hdx & Hfull)%bounded_canonical (Hey & Hdy & _)%bounded_canonical Hlt.
  pose proof (digits2_pos_lower mx) as Hlow. rewrite Hfull in Hlow by lia.
  pose proof (digits2_pos_upper my) as Hup.
  assert (2 ^ Z.pos (digits2_pos my) <= 2 ^ 53) by (apply Z.pow_le_mono_r; lia).
  assert (2 ^ 1 <= 2 ^ (ex - ey)) by (apply Z.pow_le_mono_r; lia).
  change (2 ^ (53 - 1)) with 4503599627370496 in Hlow.
  change (2 ^ 53) with 9007199254740992 in *. change (2 ^ 1) with 2 in *. nia.
Qed.

(** The sign of the exact difference decides the comparison. *)
Lemma SFleb_of_difference (sx sy : bool) (mx my : positive) (ex ey : Z) :
  bounded prec emax mx ex = true → bounded prec emax my ey = true →
  cond_Zopp sx (Z.pos (shl_align mx ex (Z.min ex ey)).1)
    - cond_Zopp sy (Z.pos (shl_align my ey (Z.min ex ey)).1) <= 0 →
  SFleb (S754_finite sx mx ex) (S754_finite sy my ey) = true.
Proof.
  intros Hx Hy. rewrite !shl_align_value by lia. intros Hd.
  unfold SFleb, SFcompare.
  destruct sx, sy; simpl in Hd; try done.
  - (* both negative *)
    destruct (Z.compare_spec ex ey) as [->|Hlt|Hgt]; [| |done].
    + rewrite Z.min_id, Z.sub_diag in Hd. change (2 ^ 0) with 1 in Hd.
      change (Pos.compare_cont Eq mx my) with (mx ?= my)%positive.
      rewrite Pos2Z.inj_compare.
      destruct (Z.compare_spec (Z.pos mx) (Z.pos my)); simpl; (done || lia).
    + pose proof (larger_exponent my mx ey ex Hy Hx Hlt).
      rewrite Z.min_l, Z.sub_diag in Hd by lia. change (2 ^ 0) with 1 in Hd. lia.
  - (* the first positive, the second negative *)
    assert (0 < 2 ^ (ex - Z.min ex ey)) by (apply Z.pow_pos_nonneg; lia).
    assert (0 < 2 ^ (ey - Z.min ex ey)) by (apply Z.pow_pos_nonneg; lia). nia.
  - (* both positive *)
    destruct (Z.compare_spec ex ey) as [->|Hlt|Hgt]; [|done|].
    + rewrite Z.min_id, Z.sub_diag in Hd. change (2 ^ 0) with 1 in Hd.
      change (Pos.compare_cont Eq mx my) with (mx ?= my)%positive.
      rewrite Pos2Z.inj_compare.
      destruct (Z.compare_spec (Z.pos mx) (Z.pos my)); simpl; (done || lia).
    + pose proof (larger_exponent mx my ex ey Hx Hy Hgt).
      rewrite Z.min_r, Z.sub_diag in Hd by lia. change (2 ^ 0) with 1 in Hd. lia.
Qed.

Lemma SFltb_zero_positive (m : positive) (e : Z) :
  SFltb (S754_zero false) (S754_finite false m e) = true
  ∧ SFltb (S754_zero false) (S754_infinity false) = true.
Proof. done. Qed.

(** A difference that is not above zero: the first number is at most the
    second. *)
Lemma SFsub_not_positive (x y : spec_float) :
  valid_binary x = true → valid_binary y = true →
  x ≠ S754_nan → y ≠ S754_nan →
  SFltb (S754_zero false) (SFsub prec emax x y) = false →
  SFleb x y = true.
Proof.
  intros Hx Hy Hxn Hyn.
  destruct x as [sx|sx| |sx mx ex], y as [sy|sy| |sy my ey]; try done;
    try (by destruct sx, sy).
  simpl in Hx, Hy. unfold SFsub.
  pose proof (bounded_canonical mx ex Hx) as (Hex & _).
  pose proof (bounded_canonical my ey Hy) as (Hey & _).
  destruct (cond_Zopp sx (Z.pos (shl_align mx ex (Z.min ex ey)).1)
            - cond_Zopp sy (Z.pos (shl_align my ey (Z.min ex ey)).1))
    as [|d|d] eqn:Hd.
  - intros _. apply SFleb_of_difference; [done|done|lia].
  - simpl binary_normalize.
    destruct (binary_round_nonzero false d (Z.min ex ey) ltac:(lia))
      as [->|(m' & e' & ->)]; done.
  - intros _. apply SFleb_of_difference; [done|done|lia].
Qed.

(** On numbers: when [a - b] is not positive and neither is [NaN],
    [a <= b]. *)
Lemma sub_not_positive_leb (a b : number) :
  is_nan a = false → is_nan b = false →
  positive_number (a - b)%float = false → (a <=? b)%float = true.
Proof.
  unfold positive_number, is_nan. rewrite !eqb_spec, ltb_spec, leb_spec, sub_spec.
  intros Ha Hb. apply SFsub_not_positive; try apply Prim2SF_valid.
  - intros Hnan. by rewrite Hnan in Ha.
  - intros Hnan. by rewrite Hnan in Hb.
Qed.


(** And when [a - b] is positive, [b <= a]. *)
Lemma SFsub_positive (x y : spec_float) :
  valid_binary x = true → valid_binary y = true →
  SFltb (S754_zero false) (SFsub prec emax x y) = true →
  SFleb y x = true.
Proof.
  intros Hx Hy.
  destruct x as [sx|sx| |sx mx ex], y as [sy|sy| |sy my ey]; try done;
    try (by destruct sx, sy).
  simpl in Hx, Hy. unfold SFsub.
  destruct (cond_Zopp sx (Z.pos (shl_align mx ex (Z.min ex ey)).1)
            - cond_Zopp sy (Z.pos (shl_align my ey (Z.min ex ey)).1))
    as [|d|d] eqn:Hd.
  - done.
  - intros _. apply SFleb_of_difference; [done|done|]. rewrite (Z.min_comm ey ex). lia.
  - simpl binary_normalize. unfold binary_round.
    destruct (shl_align d (Z.min ex ey) _) as [mz ez].
    by destruct (binary_round_aux_sign true (Z.pos mz) ez loc_Exact)
      as [->|[->|[->|(m' & e' & ->)]]].
Qed.

Lemma sub_positive_leb (a b : number) :
  positive_number (a - b)%float = true → (b <=? a)%float = true.
Proof.
  unfold positive_number. rewrite ltb_spec, leb_spec, sub_spec.
  apply SFsub_positive; apply Prim2SF_valid.
Qed.

(** The two ends of the loss scale. *)
Lemma loss_of_none (attempts : nat) :
  (1 ≤ attempts)%nat → safe_integer attempts →
  ((nat2num attempts - nat2num 0) / nat2num attempts * 100)%float = 100%float.
Proof.
  intros Hn Hs. pose proof (nat2num_finite_pos _ Hn Hs) as Hf.
  rewrite nat2num_0, sub_zero_finite, div_diag_finite by done. reflexivity.
Qed.

Lemma loss_of_all (attempts : nat) :
  (1 ≤ attempts)%nat → safe_integer attempts →
  ((nat2num attempts - nat2num attempts) / nat2num attempts * 100)%float = 0%float.
Proof.
  intros Hn Hs. pose proof (nat2num_finite_pos _ Hn Hs) as Hf.
  rewrite sub_diag_finite, zero_div_finite by done. reflexivity.
Qed.

End Binary64.

(** ** Removing duplicates *)

Section Deduplication.
Implicit Types (urls : list UrlEntry.t) (seen : gset string) (item : UrlEntry.t).

Lemma filter_unseen_sublist seen urls : filter_unseen seen urls `sublist_of` urls.
Proof.
  revert seen. induction urls as [|item rest IH]; intros seen; simpl; [done|].
  case_decide; [apply sublist_cons | apply sublist_skip]; apply IH.
Qed.

Lemma filter_unseen_length seen urls : length (filter_unseen seen urls) ≤ length urls.
Proof. apply sublist_length, filter_unseen_sublist. Qed.

Lemma elem_of_filter_unseen seen urls address :
  address ∈ UrlEntry.url <$> filter_unseen seen urls
  ↔ address ∈ UrlEntry.url <$> urls ∧ address ∉ seen.
Proof.
  revert seen. induction urls as [|item rest IH]; intros seen; csimpl.
  - rewrite elem_of_nil. naive_solver.
  - case_decide as Hseen; csimpl; rewrite ?elem_of_cons, IH.
    + naive_solver.
    + rewrite not_elem_of_union, not_elem_of_singleton.
      destruct (decide (address = UrlEntry.url item)); naive_solver.
Qed.

Lemma filter_unseen_NoDup seen urls : NoDup (UrlEntry.url <$> filter_unseen seen urls).
Proof.
  revert seen. induction urls as [|item rest IH]; intros seen; csimpl.
  - constructor.
  - case_decide; [apply IH|]. csimpl. constructor; [|apply IH].
    rewrite elem_of_filter_unseen. set_solver.
Qed.

Lemma filter_unseen_first seen urls item :
  item ∈ filter_unseen seen urls → first_with_url (UrlEntry.url item) urls = Some item.
Proof.
  unfold first_with_url. revert seen.
  induction urls as [|x rest IH]; intros seen; simpl; [by intros ?%elem_of_nil|].
  assert (Hin : ∀ s, item ∈ filter_unseen s rest → UrlEntry.url item ∉ s).
  { intros s Hi. eapply (proj1 (elem_of_filter_unseen s rest _)).
    by apply list_elem_of_fmap_2. }
  case_decide as Hseen.
  - intros Hi. rewrite filter_cons_False; [by eapply IH|].
    intros Heq. apply (Hin _ Hi). by rewrite <- Heq.
  - intros [->|Hi]%elem_of_cons.
    + by rewrite filter_cons_True.
    + rewrite filter_cons_False; [by eapply IH|].
      intros Heq. apply (Hin _ Hi). rewrite <- Heq. set_solver.
Qed.

Lemma filter_unseen_idempotent seen urls :
  filter_unseen seen (filter_unseen seen urls) = filter_unseen seen urls.
Proof.
  revert seen. induction urls as [|item rest IH]; intros seen; simpl; [done|].
  case_decide as Hseen; [apply IH|]. simpl.
  rewrite decide_False by done. by rewrite IH.
Qed.

(** The [Map]: keys stay where they are, a fresh key goes last. *)
Lemma Map_set_fresh {V} (m : list (string * V)) key value :
  key ∉ m.*1 → Map_set m key value = m ++ [(key, value)].
Proof.
  induction m as [|[k v] m IH]; csimpl; [done|].
  intros Hk. rewrite decide_False by set_solver. rewrite IH by set_solver. done.
Qed.

Lemma Map_set_keys {V} (m : list (string * V)) key value :
  key ∈ m.*1 → (Map_set m key value).*1 = m.*1.
Proof.
  induction m as [|[k v] m IH]; csimpl; [by intros ?%elem_of_nil|].
  case_decide as Hk; [done|].
  intros Hin. csimpl. rewrite IH; [done|]. set_solver.
Qed.

Lemma Map_set_length {V} (m : list (string * V)) key value :
  length (Map_set m key value) ≤ S (length m).
Proof.
  induction m as [|[k v] m IH]; csimpl; [lia|]. case_decide; csimpl; lia.
Qed.

Lemma Map_set_NoDup {V} (m : list (string * V)) key value :
  NoDup m.*1 → NoDup (Map_set m key value).*1.
Proof.
  intros Hm. destruct (decide (key ∈ m.*1)) as [Hin|Hout].
  - by rewrite Map_set_keys.
  - rewrite Map_set_fresh by done. rewrite fmap_app. csimpl.
    apply NoDup_app. split_and!; [done| |apply NoDup_singleton].
    intros k Hk ->%list_elem_of_singleton. done.
Qed.

Lemma Map_set_keyed m item :
  keyed m → keyed (Map_set m (UrlEntry.url item) item).
Proof.
  unfold keyed. induction m as [|[k v] m IH]; csimpl; intros Hm.
  - by repeat constructor.
  - inversion Hm as [|? ? Hkv Hrest]; subst.
    case_decide as Hk; constructor; auto.
Qed.

Lemma Map_fold_invariant urls (m : list (string * UrlEntry.t)) :
  NoDup m.*1 → keyed m →
  let m' := foldl (λ m kv, Map_set m kv.1 kv.2) m (url_entries urls) in
  NoDup m'.*1 ∧ keyed m' ∧ length m' ≤ length m + length urls.
Proof.
  revert m. induction urls as [|item rest IH]; intros m Hnd Hk; csimpl.
  - split_and!; [done|done|lia].
  - destruct (IH (Map_set m (UrlEntry.url item) item)) as (? & ? & Hlen);
      [by apply Map_set_NoDup | by apply Map_set_keyed |].
    split_and!; [done|done|].
    pose proof (Map_set_length m (UrlEntry.url item) item). simpl in *. lia.
Qed.

Lemma Map_fold_fresh (m l : list (string * UrlEntry.t)) :
  NoDup (m.*1 ++ l.*1) →
  foldl (λ m kv, Map_set m kv.1 kv.2) m l = m ++ l.
Proof.
  revert m. induction l as [|[k v] l IH]; intros m Hnd; csimpl.
  - by rewrite app_nil_r.
  - csimpl in Hnd. apply NoDup_app in Hnd as (Hm & Hdisj & Hl).
    rewrite Map_set_fresh; [|intros Hin; apply (Hdisj _ Hin); set_solver].
    rewrite IH; [by rewrite <- app_assoc|].
    rewrite fmap_app. csimpl. rewrite <- app_assoc. csimpl.
    apply NoDup_app. split_and!; [done| |done].
    intros x Hx. apply (Hdisj x Hx).
Qed.

Lemma keyed_url_entries (m : list (string * UrlEntry.t)) :
  keyed m → url_entries m.*2 = m.
Proof.
  unfold keyed, url_entries. induction 1 as [|[k v] m Hkv _ IH]; csimpl; [done|].
  simpl in Hkv. by rewrite IH, Hkv.
Qed.

Lemma uniqueUrls_Map_idempotent urls :
  uniqueUrls_Map (uniqueUrls_Map urls) = uniqueUrls_Map urls.
Proof.
  unfold uniqueUrls_Map, Map_values, Map_new.
  destruct (Map_fold_invariant urls []) as (Hnd & Hk & _); [constructor|constructor|].
  fold (url_entries urls) in *. simpl in Hnd, Hk.
  set (m := foldl _ [] (url_entries urls)) in *.
  fold (url_entries m.*2). rewrite keyed_url_entries by done.
  by rewrite Map_fold_fresh.
Qed.

Lemma uniqueUrls_Map_length urls : length (uniqueUrls_Map urls) ≤ length urls.
Proof.
  unfold uniqueUrls_Map, Map_values, Map_new.
  destruct (Map_fold_invariant urls []) as (_ & _ & Hlen); [constructor|constructor|].
  fold (url_entries urls). rewrite length_fmap. simpl in Hlen. lia.
Qed.

End Deduplication.

Section DeduplicationClaims.
Implicit Types (urls : list UrlEntry.t) (item : UrlEntry.t).

Lemma last_cons_alt {A} (x : A) (l : list A) :
  last (x :: l) = match last l with Some y => Some y | None => Some x end.
Proof. destruct l as [|y l]; [done|]. rewrite last_cons_cons. by destruct (last (y :: l)) eqn:E; [|apply last_None in E]. Qed.

Lemma elem_of_Map_set {V} (m : list (string * V)) key value k v :
  (k, v) ∈ Map_set m key value → (k = key ∧ v = value) ∨ (k, v) ∈ m.
Proof.
  induction m as [|[k' v'] m IH]; csimpl.
  - intros ?%list_elem_of_singleton. naive_solver.
  - case_decide as Hk; rewrite !elem_of_cons; naive_solver.
Qed.

Lemma Map_set_elem_of {V} (m : list (string * V)) key value :
  (key, value) ∈ Map_set m key value.
Proof.
  induction m as [|[k' v'] m IH]; csimpl; [apply list_elem_of_singleton; done|].
  case_decide as Hk; subst; rewrite elem_of_cons; auto.
Qed.

Lemma NoDup_fst_inj {V} (m : list (string * V)) k v v' :
  NoDup m.*1 → (k, v) ∈ m → (k, v') ∈ m → v = v'.
Proof.
  induction m as [|[k0 v0] m IH]; csimpl; [by intros _ ?%elem_of_nil|].
  intros [Hk Hm]%NoDup_cons [Heq|Hin]%elem_of_cons [Heq'|Hin']%elem_of_cons.
  - congruence.
  - exfalso. apply Hk. inversion Heq; subst. by apply (list_elem_of_fmap_2 fst _ (k0, v')).
  - exfalso. apply Hk. inversion Heq'; subst. by apply (list_elem_of_fmap_2 fst _ (k0, v)).
  - by apply IH.
Qed.

Lemma Map_fold_last urls (m : list (string * UrlEntry.t)) k v :
  NoDup m.*1 →
  (k, v) ∈ foldl (λ m kv, Map_set m kv.1 kv.2) m (url_entries urls) →
  last_with_url k urls = Some v ∨ (last_with_url k urls = None ∧ (k, v) ∈ m).
Proof.
  unfold last_with_url. revert m.
  induction urls as [|item rest IH]; intros m Hnd; csimpl; [by right|].
  intros Hin. apply IH in Hin; [|by apply Map_set_NoDup].
  destruct (decide (UrlEntry.url item = k)) as [Hk|Hk].
  - rewrite filter_cons_True by done. rewrite last_cons_alt. left.
    destruct Hin as [->|[-> Hin]]; [done|]. subst k.
    f_equal. eapply NoDup_fst_inj; [|apply Map_set_elem_of|apply Hin].
    by apply Map_set_NoDup.
  - rewrite filter_cons_False by done.
    destruct Hin as [?|[? Hin]]; [by left|right]. split; [done|].
    apply elem_of_Map_set in Hin as [[? ?]|?]; [congruence|done].
Qed.

(** X1 ([listUpUrls], [fastCheck], the [Set] filter). What the filter
    computes: one entry for every address, each the first of the catalog
    with its address, in the order of the catalog. *)
Theorem uniqueUrls_Set_first_occurrence urls :
  NoDup (UrlEntry.url <$> uniqueUrls_Set urls)
  ∧ (∀ address, address ∈ UrlEntry.url <$> uniqueUrls_Set urls
                ↔ address ∈ UrlEntry.url <$> urls)
  ∧ uniqueUrls_Set urls `sublist_of` urls
  ∧ (∀ item, item ∈ uniqueUrls_Set urls
             → first_with_url (UrlEntry.url item) urls = Some item)
  ∧ (∀ first second, UrlEntry.url first = UrlEntry.url second
                     → uniqueUrls_Set [first; second] = [first]).
Proof.
  unfold uniqueUrls_Set. split_and!.
  - apply filter_unseen_NoDup.
  - intros address. rewrite elem_of_filter_unseen. set_solver.
  - apply filter_unseen_sublist.
  - intros item. apply filter_unseen_first.
  - intros first second Heq. simpl.
    rewrite decide_False by set_solver. rewrite decide_True by set_solver. done.
Qed.

(** What the [Map] computes: one entry for every address, in the order the
    addresses first appear, each entry the last of the catalog with its
    address. *)
Theorem uniqueUrls_Map_last_occurrence urls :
  NoDup (UrlEntry.url <$> uniqueUrls_Map urls)
  ∧ (∀ item, item ∈ uniqueUrls_Map urls
             → last_with_url (UrlEntry.url item) urls = Some item)
  ∧ (∀ first second, UrlEntry.url first = UrlEntry.url second
                     → uniqueUrls_Map [first; second] = [second]).
Proof.
  unfold uniqueUrls_Map, Map_values, Map_new. fold (url_entries urls).
  destruct (Map_fold_invariant urls []) as (Hnd & Hk & _); [constructor|constructor|].
  simpl in Hnd, Hk. set (m := foldl _ [] (url_entries urls)) in *.
  assert (Hkeys : UrlEntry.url <$> m.*2 = m.*1).
  { clear Hnd. induction Hk as [|[k v] ? Hkv _ IH]; csimpl; [done|].
    simpl in Hkv. by rewrite IH, Hkv. }
  split_and!.
  - by rewrite Hkeys.
  - intros item [[k v] [-> Hin]]%list_elem_of_fmap. simpl.
    assert (k = UrlEntry.url v) as ->.
    { unfold keyed in Hk. rewrite Forall_forall in Hk. apply (Hk _ Hin). }
    apply (Map_fold_last urls []) in Hin as [?|[_ ?%elem_of_nil]]; [done|done|constructor].
  - intros first second Heq. simpl. by rewrite decide_True.
Qed.

(** C1. Deduplication by address keeps exactly one entry per distinct
    address, in first-seen order, and the kept entry is the first
    occurrence of its address. The [Set] filter of the fast check and of
    the listing does so; the [Map] of the multi-attempt analysis does not:
    on the catalog A, B, C, where A and B have one address, it keeps B,
    the last occurrence, in the place of A. *)
Theorem uniqueUrls_Map_keeps_last :
  UrlEntry.url entry_A = UrlEntry.url entry_B
  ∧ first_with_url (UrlEntry.url entry_A) [entry_A; entry_B; entry_C] = Some entry_A
  ∧ uniqueUrls_Map [entry_A; entry_B; entry_C] = [entry_B; entry_C]
  ∧ uniqueUrls_Map [entry_A; entry_B] = [entry_B]
  ∧ uniqueUrls_Set [entry_A; entry_B; entry_C] = [entry_A; entry_C]
  ∧ uniqueUrls_Set [entry_A; entry_B] = [entry_A].
Proof. vm_compute. by repeat split. Qed.

(** C7. Deduplication is idempotent, its output is no longer than its
    input, and the empty catalog stays empty; for the [Set] filter and for
    the [Map]. *)
Theorem dedupe_idempotent_and_shorter urls :
  (uniqueUrls_Set (uniqueUrls_Set urls) = uniqueUrls_Set urls
   ∧ length (uniqueUrls_Set urls) ≤ length urls
   ∧ uniqueUrls_Set [] = [])
  ∧ (uniqueUrls_Map (uniqueUrls_Map urls) = uniqueUrls_Map urls
     ∧ length (uniqueUrls_Map urls) ≤ length urls
     ∧ uniqueUrls_Map [] = []).
Proof.
  split; split_and!; try reflexivity.
  - apply filter_unseen_idempotent.
  - apply filter_unseen_length.
  - apply uniqueUrls_Map_idempotent.
  - apply uniqueUrls_Map_length.
Qed.

End DeduplicationClaims.

(** ** Latency statistics *)

(** C6. The statistics of no successful sample at all: minimum, maximum,
    mean and standard deviation are 0 and the loss is 100 percent. *)
Theorem calculateStatistics_empty :
  ListTs.calculateStatistics []
  = ListTs.PingStatistics.mk 0%float 0%float 0%float 0%float 100%float.
Proof. reflexivity. Qed.

(** The samples 10, 20, 30 of the specification. *)
Example calculateStatistics_10_20_30 :
  ListTs.calculateStatistics [10; 20; 30]%float
  = ListTs.PingStatistics.mk 10%float 30%float 20%float
      (sqrt (200 / 3))%float 0%float.
Proof. vm_compute. reflexivity. Qed.

(** ** The multi-attempt prober *)

Section AdvancedPing.
Import ListTs.
Variable URL_parse : string → option URL.t.
Variable Number_digits : number → string.
Local Abbreviation extractHostAndPort := (ListTs.extractHostAndPort URL_parse).
Local Abbreviation ping_attempt := (ListTs.ping_attempt Number_digits).
Local Abbreviation ping_attempts := (ListTs.ping_attempts Number_digits).
Local Abbreviation advancedPingUrl := (ListTs.advancedPingUrl URL_parse Number_digits).

Lemma performDnsLookup_result env hostname :
  performDnsLookup env hostname = Returned (dns_record env hostname).
Proof.
  unfold performDnsLookup, dns_record. by destruct (Env.dns_lookup env hostname).
Qed.

Lemma ping_attempt_step env config hostname raw times i :
  ∃ r t,
    ping_attempt env config hostname (raw, times) i
    = (raw ++ [r], if attempt_succeeds env config hostname i then times ++ [t] else times)
    ∧ records_attempt env config hostname i r.
Proof.
  unfold ListTs.ping_attempt, records_attempt, attempt_succeeds.
  destruct (Env.ping_probe env hostname _ i) as [[alive time]|error]; simpl.
  - destruct alive; [eexists _, _ | eexists _, 0%float]; by split_and!.
  - eexists _, 0%float; by split_and!.
Qed.

Lemma alive_count_recorded env config hostname indices recorded :
  Forall2 (records_attempt env config hostname) indices recorded →
  alive_count recorded
  = length (filter (λ i, attempt_succeeds env config hostname i = true) indices).
Proof.
  unfold alive_count.
  induction 1 as [|i r indices recorded (Halive & _) _ IH]; [done|].
  destruct (attempt_succeeds env config hostname i) eqn:Hs.
  - rewrite !filter_cons_True by done. simpl. by rewrite IH.
  - rewrite !filter_cons_False by (rewrite ?Halive, ?Hs; done). done.
Qed.

Lemma ping_attempt_fold env config hostname (indices : list nat) raw times :
  ∃ recorded times',
    foldl (ping_attempt env config hostname) (raw, times) indices
    = (raw ++ recorded, times')
    ∧ length times'
      = length times
        + length (filter (λ i, attempt_succeeds env config hostname i = true) indices)
    ∧ Forall2 (records_attempt env config hostname) indices recorded.
Proof.
  revert raw times. induction indices as [|i rest IH]; intros raw times; cbn [foldl].
  - exists [], times. rewrite app_nil_r. simpl. split_and!; [done|lia|constructor].
  - destruct (ping_attempt_step env config hostname raw times i) as (r & t & -> & Hr).
    edestruct IH as (recorded & times' & -> & Ht & Hrec).
    exists (r :: recorded), times'. rewrite <- app_assoc. split; [done|].
    split; [|by constructor]. rewrite Ht.
    destruct (attempt_succeeds env config hostname i) eqn:Hs.
    + rewrite filter_cons_True by done. rewrite length_app. simpl. lia.
    + rewrite filter_cons_False; [lia|]. by rewrite Hs.
Qed.

Lemma ping_attempts_counts env config hostname :
  ∃ raw times,
    ping_attempts env config hostname = (raw, times)
    ∧ length times = successful_attempts env config hostname
    ∧ Forall2 (records_attempt env config hostname)
        (seq 0 (PingConfig.attempts config)) raw.
Proof.
  unfold ListTs.ping_attempts, successful_attempts.
  destruct (ping_attempt_fold env config hostname (seq 0 (PingConfig.attempts config)) [] [])
    as (raw & times & -> & Ht & Hr).
  exists raw, times. by split_and!.
Qed.

Lemma successful_attempts_le env config hostname :
  successful_attempts env config hostname ≤ PingConfig.attempts config.
Proof.
  unfold successful_attempts.
  etrans; [apply length_filter|]. by rewrite length_seq.
Qed.


Lemma failed_attempts_complement env config hostname :
  failed_attempts env config hostname
  = PingConfig.attempts config - successful_attempts env config hostname.
Proof.
  unfold failed_attempts, successful_attempts.
  pose proof (length_seq (PingConfig.attempts config) 0) as Hlen.
  revert Hlen. generalize (seq 0 (PingConfig.attempts config)).
  generalize (PingConfig.attempts config). intros n indices <-.
  induction indices as [|i rest IH]; [done|].
  pose proof (length_filter (λ i, attempt_succeeds env config hostname i = true) rest).
  destruct (attempt_succeeds env config hostname i) eqn:Hs.
  - rewrite filter_cons_False by (by rewrite Hs).
    rewrite filter_cons_True by done. simpl. lia.
  - rewrite filter_cons_True by done.
    rewrite filter_cons_False by (by rewrite Hs). simpl. lia.
Qed.

(** The result for an endpoint whose host name could be extracted. *)
Lemma advancedPingUrl_probed env entry config host :
  extractHostAndPort (UrlEntry.url entry) = Returned host →
  ∃ result,
    advancedPingUrl env entry config = Returned result
    ∧ PingResult.successfulPings result
      = successful_attempts env config (HostAndPort.hostname host)
    ∧ PingResult.attempts result = PingConfig.attempts config
    ∧ PingResult.status result
      = (if (PingResult.successfulPings result =? PingConfig.attempts config)%nat then UP
         else if (0 <? PingResult.successfulPings result)%nat then PARTIAL else DOWN)
    ∧ PingStatistics.loss (PingResult.statistics result)
      = ((nat2num (PingConfig.attempts config)
            - nat2num (PingResult.successfulPings result))
           / nat2num (PingConfig.attempts config) * 100)%float
    ∧ Forall2 (records_attempt env config (HostAndPort.hostname host))
        (seq 0 (PingConfig.attempts config)) (PingResult.rawPingResults result)
    ∧ PingResult.dnsInfo result
      = (if PingConfig.enableDnsLookup config
         then dns_record env (HostAndPort.hostname host)
         else DnsInfo.mk None (HostAndPort.hostname host) 0%Z None)
    ∧ PingResult.totalTime result = (Env.now_end env - Env.now_start env)%Z
    ∧ PingResult.error result = None.
Proof.
  intros Hhost. unfold ListTs.advancedPingUrl. rewrite Hhost. simpl.
  destruct (ping_attempts_counts env config (HostAndPort.hostname host))
    as (raw & times & Hp & Ht & Hr).
  assert ((if PingConfig.enableDnsLookup config
           then performDnsLookup env (HostAndPort.hostname host)
           else mret (DnsInfo.mk None (HostAndPort.hostname host) 0%Z None))
          = Returned (if PingConfig.enableDnsLookup config
                      then dns_record env (HostAndPort.hostname host)
                      else DnsInfo.mk None (HostAndPort.hostname host) 0%Z None)) as ->.
  { destruct (PingConfig.enableDnsLookup config);
      [apply performDnsLookup_result | done]. }
  simpl. rewrite Hp. simpl.
  eexists. split; [reflexivity|]. simpl. rewrite Ht. by split_and!.
Qed.

Lemma recorded_alive_count env config hostname raw :
  Forall2 (records_attempt env config hostname) (seq 0 (PingConfig.attempts config)) raw →
  alive_count raw = successful_attempts env config hostname
  ∧ length raw = PingConfig.attempts config.
Proof.
  intros Hraw. split.
  - by apply alive_count_recorded.
  - rewrite <- (Forall2_length _ _ _ Hraw). apply length_seq.
Qed.

(** The result for an endpoint whose address yields no host name. *)
Lemma advancedPingUrl_rejected env entry config error :
  extractHostAndPort (UrlEntry.url entry) = Raised error →
  advancedPingUrl env entry config
  = Returned
      (PingResult.mk (UrlEntry.url entry) (UrlEntry.name entry) (UrlEntry.type entry)
         DOWN (PingConfig.attempts config) 0
         (PingStatistics.mk 0%float 0%float 0%float 0%float 100%float)
         (DnsInfo.mk None (UrlEntry.url entry) 0%Z None) None false
         (Env.now_end env - Env.now_start env)%Z (Env.timestamp env)
         (Some (error_text error)) []).
Proof. intros Hhost. unfold ListTs.advancedPingUrl. by rewrite Hhost. Qed.

Lemma advancedPingUrl_returns env entry config :
  ∃ result, advancedPingUrl env entry config = Returned result.
Proof.
  destruct (extractHostAndPort (UrlEntry.url entry)) as [host|error] eqn:Hhost.
  - destruct (advancedPingUrl_probed env entry config host Hhost) as (r & ? & _). eauto.
  - rewrite (advancedPingUrl_rejected env entry config error Hhost). eauto.
Qed.

Lemma filter_length_all {A} (P : A → Prop) `{∀ x, Decision (P x)} (l : list A) :
  length (filter P l) = length l ↔ Forall P l.
Proof.
  induction l as [|x l IH]; [by split|].
  destruct (decide (P x)) as [Hx|Hx].
  - rewrite filter_cons_True by done. simpl. rewrite Forall_cons.
    split; [intros ?; split; [done|apply IH; lia] | intros [_ ?%IH]; lia].
  - rewrite filter_cons_False by done. simpl. rewrite Forall_cons.
    pose proof (length_filter P l). split; [lia | tauto].
Qed.

Lemma filter_length_none {A} (P : A → Prop) `{∀ x, Decision (P x)} (l : list A) :
  length (filter P l) = 0 ↔ Forall (λ x, ¬ P x) l.
Proof.
  induction l as [|x l IH]; [by split|].
  destruct (decide (P x)) as [Hx|Hx].
  - rewrite filter_cons_True by done. simpl. rewrite Forall_cons.
    split; [lia | tauto].
  - rewrite filter_cons_False by done. rewrite Forall_cons, IH. tauto.
Qed.

Lemma all_attempts_succeed env config hostname :
  successful_attempts env config hostname = PingConfig.attempts config
  ↔ ∀ i, i < PingConfig.attempts config → attempt_succeeds env config hostname i = true.
Proof.
  unfold successful_attempts.
  pose proof (filter_length_all
    (λ i, attempt_succeeds env config hostname i = true)
    (seq 0 (PingConfig.attempts config))) as Hiff.
  rewrite length_seq in Hiff. rewrite Hiff, Forall_forall. clear Hiff.
  setoid_rewrite elem_of_seq. split; intros Hall i ?; apply Hall; lia.
Qed.

Lemma no_attempt_succeeds env config hostname :
  successful_attempts env config hostname = 0
  ↔ ∀ i, i < PingConfig.attempts config → attempt_succeeds env config hostname i = false.
Proof.
  unfold successful_attempts. rewrite filter_length_none, Forall_forall.
  setoid_rewrite elem_of_seq. setoid_rewrite not_true_iff_false.
  split; intros Hall i ?; apply Hall; lia.
Qed.

Lemma some_attempt_succeeds env config hostname :
  0 < successful_attempts env config hostname
  ↔ ∃ i, i < PingConfig.attempts config ∧ attempt_succeeds env config hostname i = true.
Proof.
  split.
  - unfold successful_attempts. intros Hpos.
    destruct (filter _ (seq 0 (PingConfig.attempts config))) as [|i rest] eqn:Hf;
      [simpl in Hpos; lia|].
    assert (Hi : i ∈ filter (λ i, attempt_succeeds env config hostname i = true)
                   (seq 0 (PingConfig.attempts config))) by (rewrite Hf; left).
    apply list_elem_of_filter in Hi as [Hs Hi%elem_of_seq]. exists i. split; [lia|done].
  - intros (i & Hi & Hs).
    destruct (decide (successful_attempts env config hostname = 0)) as [H0|]; [|lia].
    rewrite no_attempt_succeeds in H0. rewrite H0 in Hs by done. done.
Qed.

Lemma some_attempt_fails env config hostname :
  successful_attempts env config hostname ≠ PingConfig.attempts config
  ↔ ∃ i, i < PingConfig.attempts config ∧ attempt_succeeds env config hostname i = false.
Proof.
  split.
  - unfold successful_attempts. intros Hnot.
    pose proof (filter_length_all
      (λ i, attempt_succeeds env config hostname i = true)
      (seq 0 (PingConfig.attempts config))) as Hiff.
    rewrite length_seq in Hiff. rewrite Hiff in Hnot.
    apply not_Forall_Exists in Hnot; [|apply _].
    apply Exists_exists in Hnot as (i & Hi%elem_of_seq & Hs%not_true_iff_false).
    exists i. split; [lia|done].
  - rewrite all_attempts_succeed.
    intros (i & Hi & Hs) Hall. rewrite Hall in Hs by done. done.
Qed.


(** C4. An endpoint whose host is probed with at least one attempt is
    fully reachable exactly when every attempt succeeds, partially
    reachable exactly when some attempt succeeds and some attempt fails,
    and unreachable exactly when no attempt succeeds; the loss is
    [((attempts - successes) / attempts) * 100], which for a count of
    attempts the numbers hold exactly is the number of failed attempts
    divided by the number of attempts, times 100: 0 for 5 of 5, 40 for 3
    of 5, 100 for 0 of 5. *)
Theorem advancedPingUrl_classification env entry config host :
  extractHostAndPort (UrlEntry.url entry) = Returned host →
  1 ≤ PingConfig.attempts config →
  ∃ result,
    advancedPingUrl env entry config = Returned result
    ∧ (PingResult.status result = UP
       ↔ ∀ i, i < PingConfig.attempts config
              → attempt_succeeds env config (HostAndPort.hostname host) i = true)
    ∧ (PingResult.status result = PARTIAL
       ↔ (∃ i, i < PingConfig.attempts config
               ∧ attempt_succeeds env config (HostAndPort.hostname host) i = true)
         ∧ (∃ i, i < PingConfig.attempts config
                 ∧ attempt_succeeds env config (HostAndPort.hostname host) i = false))
    ∧ (PingResult.status result = DOWN
       ↔ ∀ i, i < PingConfig.attempts config
              → attempt_succeeds env config (HostAndPort.hostname host) i = false)
    ∧ PingResult.successfulPings result
      = successful_attempts env config (HostAndPort.hostname host)
    ∧ PingStatistics.loss (PingResult.statistics result)
      = ((nat2num (PingConfig.attempts config)
            - nat2num (successful_attempts env config (HostAndPort.hostname host)))
           / nat2num (PingConfig.attempts config) * 100)%float
    ∧ (safe_integer (PingConfig.attempts config)
       → PingStatistics.loss (PingResult.statistics result)
         = (nat2num (failed_attempts env config (HostAndPort.hostname host))
              / nat2num (PingConfig.attempts config) * 100)%float)
    ∧ (PingConfig.attempts config = 5 →
       (PingResult.successfulPings result = 5
        → PingResult.status result = UP
          ∧ PingStatistics.loss (PingResult.statistics result) = 0%float)
       ∧ (PingResult.successfulPings result = 3
          → PingResult.status result = PARTIAL
            ∧ PingStatistics.loss (PingResult.statistics result) = 40%float)
       ∧ (PingResult.successfulPings result = 0
          → PingResult.status result = DOWN
            ∧ PingStatistics.loss (PingResult.statistics result) = 100%float)).
Proof.
  intros Hhost Hpos.
  destruct (advancedPingUrl_probed env entry config host Hhost)
    as (result & Hres & Hsp & _ & Hstatus & Hloss & _).
  exists result. split; [done|].
  rewrite <- all_attempts_succeed, <- no_attempt_succeeds.
  rewrite <- some_attempt_succeeds, <- some_attempt_fails.
  rewrite Hstatus, Hloss, Hsp.
  set (successes := successful_attempts env config (HostAndPort.hostname host)).
  split_and!.
  - destruct (Nat.eqb_spec successes (PingConfig.attempts config));
      [done|]. destruct (0 <? successes)%nat; split; (done || lia).
  - destruct (Nat.eqb_spec successes (PingConfig.attempts config));
      [split; [done|lia]|].
    destruct (Nat.ltb_spec 0 successes); split; (done || lia).
  - destruct (Nat.eqb_spec successes (PingConfig.attempts config));
      [split; [done|lia]|].
    destruct (Nat.ltb_spec 0 successes); split; (done || lia).
  - done.
  - done.
  - intros Hsafe. rewrite failed_attempts_complement. fold successes.
    rewrite nat2num_sub; [done| |done].
    apply successful_attempts_le.
  - intros ->. split_and!; intros ->; by vm_compute.
Qed.

(** C10. With at least one attempt configured, the result of the
    multi-attempt prober has [0 <= successfulPings <= attempts] and
    [loss = ((attempts - successfulPings) / attempts) * 100], when the
    endpoint was probed and when its address was rejected alike; a fully
    reachable endpoint has loss 0 and an unreachable one loss 100; and for
    a probed endpoint the attempts recorded alive are [successfulPings]
    many. The number of attempts is a count the numbers hold exactly. *)
Theorem advancedPingUrl_invariant env entry config :
  1 ≤ PingConfig.attempts config →
  safe_integer (PingConfig.attempts config) →
  ∃ result,
    advancedPingUrl env entry config = Returned result
    ∧ 0 ≤ PingResult.successfulPings result ≤ PingResult.attempts result
    ∧ PingResult.attempts result = PingConfig.attempts config
    ∧ PingStatistics.loss (PingResult.statistics result)
      = ((nat2num (PingResult.attempts result)
            - nat2num (PingResult.successfulPings result))
           / nat2num (PingResult.attempts result) * 100)%float
    ∧ (PingResult.status result = UP
       → PingStatistics.loss (PingResult.statistics result) = 0%float)
    ∧ (PingResult.status result = DOWN
       → PingStatistics.loss (PingResult.statistics result) = 100%float)
    ∧ (∀ host, extractHostAndPort (UrlEntry.url entry) = Returned host
               → alive_count (PingResult.rawPingResults result)
                 = PingResult.successfulPings result
                 ∧ length (PingResult.rawPingResults result)
                   = PingResult.attempts result).
Proof.
  intros Hpos Hsafe.
  destruct (extractHostAndPort (UrlEntry.url entry)) as [host|error] eqn:Hhost.
  - destruct (advancedPingUrl_probed env entry config host Hhost)
      as (result & Hres & Hsp & Hatt & Hstatus & Hloss & Hrecorded & _).
    exists result. split; [done|].
    destruct (recorded_alive_count _ _ _ _ Hrecorded) as [Halive Hraw].
    rewrite <- Hsp in Halive.
    pose proof (successful_attempts_le env config (HostAndPort.hostname host)).
    rewrite Hatt, Hloss. split_and!; [lia|lia|done|done| | |].
    + rewrite Hstatus.
      destruct (Nat.eqb_spec (PingResult.successfulPings result)
                  (PingConfig.attempts config)) as [->|];
        [intros _; by apply loss_of_all|].
      by destruct (0 <? PingResult.successfulPings result)%nat.
    + rewrite Hstatus.
      destruct (Nat.eqb_spec (PingResult.successfulPings result)
                  (PingConfig.attempts config)); [done|].
      destruct (Nat.ltb_spec 0 (PingResult.successfulPings result)); [done|].
      intros _. replace (PingResult.successfulPings result) with 0 by lia.
      by apply loss_of_none.
    + done.
  - rewrite (advancedPingUrl_rejected env entry config error Hhost).
    eexists. split; [reflexivity|]. simpl.
    split_and!; [lia|lia|done| |done| |done].
    + symmetry. by apply loss_of_none.
    + done.
Qed.

(** C8, as the scripts have it. A probe never raises: whatever the network
    answers, [pingUrl] and [advancedPingUrl] return a result. [pingUrl]
    turns every failure (both requests raise) into a result that is DOWN
    and carries the elapsed time and the text of the error. So does
    [advancedPingUrl] for an address it rejects. For an endpoint it probes,
    a failed lookup leaves its text in [dnsInfo], and an attempt that
    raises is recorded as a failed attempt that took the whole timeout,
    without its text: when every attempt raises the result is DOWN and
    its [error] is empty. *)
Theorem probes_never_raise env entry config :
  (∃ result,
     TestPing.pingUrl env entry = Returned result
     ∧ ∀ head_error get_error,
         Env.fetch env (UrlEntry.url entry) HEAD = Raised head_error
         → Env.fetch env (UrlEntry.url entry) GET = Raised get_error
         → TestPing.PingResult.status result = TestPing.DOWN
           ∧ TestPing.PingResult.responseTime result
             = (Env.now_end env - Env.now_start env)%Z
           ∧ TestPing.PingResult.error result = Some (error_text get_error))
  ∧ (∃ result,
       advancedPingUrl env entry config = Returned result
       ∧ PingResult.totalTime result = (Env.now_end env - Env.now_start env)%Z
       ∧ (∀ error,
            extractHostAndPort (UrlEntry.url entry) = Raised error
            → PingResult.status result = DOWN
              ∧ PingResult.successfulPings result = 0
              ∧ PingResult.error result = Some (error_text error))
       ∧ (∀ host,
            extractHostAndPort (UrlEntry.url entry) = Returned host
            → PingResult.error result = None
              ∧ Forall2 (records_attempt env config (HostAndPort.hostname host))
                  (seq 0 (PingConfig.attempts config)) (PingResult.rawPingResults result)
              ∧ (PingConfig.enableDnsLookup config = true
                 → ∀ error,
                     Env.dns_lookup env (HostAndPort.hostname host) = Raised error
                     → DnsInfo.error (PingResult.dnsInfo result) = Some (error_text error))
              ∧ (1 ≤ PingConfig.attempts config
                 → (∀ i, i < PingConfig.attempts config
                         → ∃ error,
                             Env.ping_probe env (HostAndPort.hostname host)
                               (PingConfig.timeout config / 1000)%float i
                             = Raised error)
                 → PingResult.status result = DOWN))).
Proof.
  split.
  - unfold TestPing.pingUrl.
    destruct (Env.fetch env (UrlEntry.url entry) HEAD) as [response|head_error]; simpl.
    + eexists. split; [reflexivity|]. intros ? ? [=].
    + destruct (Env.fetch env (UrlEntry.url entry) GET) as [response|get_error]; simpl.
      * eexists. split; [reflexivity|]. intros ? ? _ [=].
      * eexists. split; [reflexivity|]. intros ? ? _ [= <-]. done.
  - destruct (extractHostAndPort (UrlEntry.url entry)) as [host|error] eqn:Hhost.
    + destruct (advancedPingUrl_probed env entry config host Hhost)
        as (result & Hres & Hsp & _ & Hstatus & _ & Hrecorded & Hdns & Htime & Herror).
      exists result. split_and!; [done|done|by intros ? [=]|].
      intros ? [= <-]. split_and!; [done|done| |].
      * intros Henabled error Hlookup. rewrite Hdns, Henabled.
        unfold dns_record. by rewrite Hlookup.
      * intros Hpos Hraise. rewrite Hstatus, Hsp.
        assert (successful_attempts env config (HostAndPort.hostname host) = 0) as ->.
        { apply no_attempt_succeeds. intros i Hi. unfold attempt_succeeds.
          by destruct (Hraise i Hi) as [error ->]. }
        destruct (Nat.eqb_spec 0 (PingConfig.attempts config)); [lia|done].
    + rewrite (advancedPingUrl_rejected env entry config error Hhost).
      eexists. split_and!; [reflexivity|done| |by intros ? [=]].
      intros ? [= <-]. done.
Qed.

End AdvancedPing.

(** ** Sorting *)

Section SortingAny.
Context {A R : Type} (is_positive : R → bool) (comparefn : A → A → R).

Lemma sort_insert_Permutation (x : A) (items : list A) :
  sort_insert is_positive comparefn x items ≡ₚ x :: items.
Proof.
  induction items as [|y rest IH]; simpl; [done|].
  destruct (is_positive (comparefn x y)); [|done].
  rewrite IH. apply Permutation_swap.
Qed.

Lemma Array_sort_Permutation (items : list A) :
  Array_sort is_positive comparefn items ≡ₚ items.
Proof.
  induction items as [|x rest IH]; simpl; [done|].
  by rewrite sort_insert_Permutation, IH.
Qed.

End SortingAny.

Section Sorting.
Context {A : Type} (key : A → Z).
Local Abbreviation by_key := (λ a b : A, (key a - key b)%Z).
Local Abbreviation ordered := (λ a b : A, (key a ≤ key b)%Z).

Lemma sort_insert_HdRel (x y : A) (items : list A) :
  (key y ≤ key x)%Z → HdRel ordered y items →
  HdRel ordered y (sort_insert positive_Z by_key x items).
Proof.
  intros Hyx Hhd. destruct items as [|z rest]; simpl; [by constructor|].
  destruct (positive_Z (key x - key z)); constructor; [|done].
  by inversion Hhd.
Qed.

Lemma sort_insert_Sorted (x : A) (items : list A) :
  Sorted ordered items → Sorted ordered (sort_insert positive_Z by_key x items).
Proof.
  induction 1 as [|y rest Hsorted IH Hhd]; simpl; [by repeat constructor|].
  unfold positive_Z at 1. destruct (Z.ltb_spec 0 (key x - key y)).
  - constructor; [done|]. apply sort_insert_HdRel; [lia|done].
  - constructor; [by constructor|]. constructor. lia.
Qed.

Lemma Array_sort_Sorted (items : list A) :
  Sorted ordered (Array_sort positive_Z by_key items).
Proof.
  induction items as [|x rest IH]; simpl; [constructor|].
  by apply sort_insert_Sorted.
Qed.

End Sorting.

(** The sort of the multi-attempt analysis. *)
Section ResultOrder.
Import ListTs.
Local Abbreviation sort_results := (Array_sort positive_number by_status_then_avg).

Lemma by_status_then_avg_stays (x y : PingResult.t) :
  avg_known x → avg_known y →
  positive_number (by_status_then_avg x y) = false → precedes x y.
Proof.
  unfold by_status_then_avg, precedes, avg_known. intros Hx Hy Hcmp Hup.
  rewrite (bool_decide_eq_true_2 _ Hup) in Hcmp. simpl in Hcmp.
  destruct (decide (PingResult.status x = UP)) as [Hxup|Hxdown].
  - rewrite (bool_decide_eq_true_2 _ Hxup) in Hcmp. simpl in Hcmp.
    split; [done|]. apply sub_not_positive_leb; auto.
  - rewrite (bool_decide_eq_false_2 _ Hxdown) in Hcmp. done.
Qed.

Lemma by_status_then_avg_passes (x y : PingResult.t) :
  positive_number (by_status_then_avg x y) = true → precedes y x.
Proof.
  unfold by_status_then_avg, precedes. intros Hcmp Hup.
  rewrite (bool_decide_eq_true_2 _ Hup) in Hcmp. simpl in Hcmp.
  destruct (decide (PingResult.status y = UP)) as [Hyup|Hydown].
  - rewrite (bool_decide_eq_true_2 _ Hyup) in Hcmp. simpl in Hcmp.
    split; [done|]. by apply sub_positive_leb.
  - rewrite (bool_decide_eq_false_2 _ Hydown) in Hcmp. done.
Qed.

Lemma sort_insert_precedes (x : PingResult.t) (sorted : list PingResult.t) :
  avg_known x → Forall avg_known sorted → Sorted precedes sorted →
  Sorted precedes (sort_insert positive_number by_status_then_avg x sorted).
Proof.
  intros Hx Hknown Hsorted.
  induction Hsorted as [|y rest Hrest IH Hhd]; simpl; [by repeat constructor|].
  apply Forall_cons in Hknown as [Hy Hknown].
  destruct (positive_number (by_status_then_avg x y)) eqn:Hcmp.
  - constructor; [by apply IH|].
    destruct rest as [|z rest']; simpl.
    + constructor. by apply by_status_then_avg_passes.
    + destruct (positive_number (by_status_then_avg x z)); constructor.
      * by inversion Hhd.
      * by apply by_status_then_avg_passes.
  - constructor; [by constructor|]. constructor.
    by apply by_status_then_avg_stays.
Qed.

Lemma sort_results_precedes (results : list PingResult.t) :
  Forall avg_known results → Sorted precedes (sort_results results).
Proof.
  induction 1 as [|x rest Hx Hrest IH]; simpl; [constructor|].
  apply sort_insert_precedes; [done| |done].
  by rewrite (Array_sort_Permutation positive_number by_status_then_avg rest).
Qed.

(** A list in that order is the fully reachable results, by ascending
    average, and then the others. *)
Lemma precedes_sorted_split (results : list PingResult.t) :
  Sorted precedes results →
  ∃ ups others,
    results = ups ++ others
    ∧ Forall (λ r, PingResult.status r = UP) ups
    ∧ Forall (λ r, PingResult.status r ≠ UP) others
    ∧ Sorted (λ a b, (PingStatistics.avg (PingResult.statistics a)
                      <=? PingStatistics.avg (PingResult.statistics b))%float = true)
        ups.
Proof.
  induction 1 as [|a rest Hrest (ups & others & -> & Hups & Hothers & Hsorted) Hhd].
  - exists [], []. by repeat split.
  - destruct (decide (PingResult.status a = UP)) as [Hup|Hdown].
    + exists (a :: ups), others. split_and!; [done|by constructor|done|].
      constructor; [done|]. destruct ups as [|b ups']; constructor.
      inversion Hhd as [|? ? Hab]; subst. apply Forall_cons in Hups as [Hb _].
      by destruct (Hab Hb).
    + destruct ups as [|b ups'].
      * exists [], (a :: others). split_and!; [done|constructor|by constructor|constructor].
      * exfalso. inversion Hhd as [|? ? Hab]; subst.
        apply Forall_cons in Hups as [Hb _]. by destruct (Hab Hb).
Qed.

End ResultOrder.

(** ** The batch loop *)

Section Batches.
Import ListTs.
Variable URL_parse : string → option URL.t.
Variable Number_digits : number → string.
Local Abbreviation advancedPingUrl := (ListTs.advancedPingUrl URL_parse Number_digits).
Local Abbreviation batch_loop := (ListTs.batch_loop URL_parse Number_digits).

Lemma Promise_all_returns {A B} (f : A → outcome B) (items : list A) :
  (∀ item, ∃ b, f item = Returned b) →
  ∃ bs, Promise_all f items = Returned bs
        ∧ Forall2 (λ item b, f item = Returned b) items bs.
Proof.
  intros Hf. induction items as [|item rest (bs & Hbs & Hall)]; simpl.
  - exists []. by split.
  - destruct (Hf item) as [b Hb]. rewrite Hb, Hbs.
    exists (b :: bs). split; [done|]. by constructor.
Qed.

Lemma chunks_nil_inv {A} (size : nat) (items : list A) :
  chunks size items = [] → items = [].
Proof. funelim (chunks size items); simp chunks; done. Qed.

Lemma chunks_length {A} (size : nat) (items : list A) :
  0 < size → length (chunks size items) = (length items + size - 1) / size.
Proof.
  intros Hs. funelim (chunks size items); simp chunks.
  - cbn [length]. symmetry. apply Nat.div_small. lia.
  - lia.
  - cbn [length]. rewrite H by lia. rewrite length_drop.
    destruct (decide (length rest ≤ n)) as [Hle|Hgt].
    + replace (length rest - n) with 0 by lia.
      rewrite (Nat.div_small (0 + S n - 1)) by lia.
      apply (Nat.div_unique _ _ 1 (length rest)); lia.
    + apply (Nat.div_unique _ _ _ ((length rest - n + S n - 1) mod S n)).
      * apply Nat.mod_upper_bound. lia.
      * pose proof (Nat.div_mod_eq (length rest - n + S n - 1) (S n)). lia.
Qed.

Lemma chunks_bounded {A} (size : nat) (items : list A) :
  0 < size → Forall (λ batch, 0 < length batch ≤ size) (chunks size items).
Proof.
  intros Hs. funelim (chunks size items); simp chunks.
  - constructor.
  - lia.
  - constructor; [|apply H; lia]. cbn [length]. rewrite length_take. lia.
Qed.

Lemma chunks_concat {A} (size : nat) (items : list A) :
  concat (chunks size items) = items.
Proof.
  funelim (chunks size items); simp chunks; [done|by simpl; rewrite app_nil_r|].
  cbn [concat]. rewrite H. simpl. by rewrite take_drop.
Qed.


Lemma phases_probes k (batch : list UrlEntry.t) :
  phases (ProbeStarted k <$> batch) = replicate (length batch) (2 * k).
Proof. unfold phases. induction batch as [|x batch IH]; csimpl; [done|]. by rewrite IH. Qed.

Lemma phases_trace_of_batches k batches :
  phases (trace_of_batches k batches)
  = match batches with
    | [] => []
    | batch :: rest =>
        replicate (length batch) (2 * k) ++ [2 * k + 1]
          ++ phases (trace_of_batches (S k) rest)
    end.
Proof.
  destruct batches as [|batch rest]; [done|].
  cbn [trace_of_batches]. unfold phases at 1.
  rewrite !omap_app. fold (phases (ProbeStarted k <$> batch)).
  rewrite phases_probes. by destruct rest.
Qed.

Lemma phases_in_order k batches :
  StronglySorted le (phases (trace_of_batches k batches))
  ∧ Forall (le (2 * k)) (phases (trace_of_batches k batches)).
Proof.
  revert k. induction batches as [|batch rest IH]; intros k;
    rewrite phases_trace_of_batches; [split; constructor|].
  destruct (IH (S k)) as [Hsorted Hlow]. rewrite Forall_forall in Hlow.
  split.
  - apply StronglySorted_app_2.
    + intros x1 x2 [-> _]%elem_of_replicate [->%list_elem_of_singleton|Hx2%Hlow]%elem_of_app; lia.
    + generalize (length batch). intros n. induction n as [|n IHn]; simpl; [constructor|].
      constructor; [done|]. apply Forall_forall. by intros ? [-> _]%elem_of_replicate.
    + apply (StronglySorted_app_2 _ [_]); [|repeat constructor|done].
      intros x1 x2 ->%list_elem_of_singleton Hx2%Hlow. lia.
  - rewrite !Forall_app. split_and!.
    + apply Forall_forall. intros ? [-> _]%elem_of_replicate. lia.
    + repeat constructor. lia.
    + apply Forall_forall. intros x Hx%Hlow. lia.
Qed.

(** The loop from the start of batch [S j] on. *)
Lemma batch_loop_from world config uniqueUrls b :
  PingConfig.batchSize config = S b →
  ∀ fuel j results trace,
    length uniqueUrls - j * S b < fuel →
    ∃ batchResults,
      Forall2 (λ entry result, advancedPingUrl (world entry) entry config = Returned result)
        (drop (j * S b) uniqueUrls) batchResults
      ∧ batch_loop fuel world config uniqueUrls (j * S b) results trace
        = Some (Returned (results ++ batchResults,
                          trace ++ trace_of_batches (S j)
                                     (chunks (S b) (drop (j * S b) uniqueUrls)))).
Proof.
  intros Hsize fuel. induction fuel as [|fuel IH]; intros j results trace Hfuel; [lia|].
  cbn [ListTs.batch_loop]. rewrite Hsize.
  destruct (Nat.ltb_spec (j * S b) (length uniqueUrls)) as [Hlt|Hge].
  - destruct (drop (j * S b) uniqueUrls) as [|x rest] eqn:Hdrop.
    { apply (f_equal length) in Hdrop. rewrite length_drop in Hdrop. simpl in Hdrop. lia. }
    assert (Hbatch : slice uniqueUrls (j * S b) (j * S b + S b) = x :: take b rest).
    { unfold slice. replace (j * S b + S b - j * S b) with (S b) by lia.
      by rewrite Hdrop. }
    assert (Hnext : drop (S j * S b) uniqueUrls = drop b rest).
    { replace (S j * S b) with (j * S b + S b) by lia.
      rewrite <- drop_drop, Hdrop. done. }
    rewrite Hbatch. rewrite Nat.div_mul by lia.
    destruct (Promise_all_returns
                (λ entry, advancedPingUrl (world entry) entry config) (x :: take b rest))
      as (rs & -> & Hrs);
      [intros item; apply advancedPingUrl_returns|].
    destruct (IH (S j) (results ++ rs)
                ((trace ++ (ProbeStarted (j + 1) <$> x :: take b rest))
                   ++ [BatchCollected (j + 1) (length rs)]
                   ++ match drop b rest with [] => [] | _ :: _ => [BatchDelay 1000] end))
      as (rs' & Hrs' & Hloop); [lia|].
    exists (rs ++ rs'). split.
    + rewrite <- (take_drop b rest). rewrite app_comm_cons.
      apply Forall2_app; [done|]. by rewrite <- Hnext.
    + simp chunks.
      replace (j * S b + S b) with (S j * S b) by lia.
      assert (Hdelay :
        (if (S j * S b <? length uniqueUrls)%nat
         then (trace ++ (ProbeStarted (j + 1) <$> x :: take b rest))
                ++ [BatchCollected (j + 1) (length rs)] ++ [BatchDelay 1000]
         else (trace ++ (ProbeStarted (j + 1) <$> x :: take b rest))
                ++ [BatchCollected (j + 1) (length rs)])
        = (trace ++ (ProbeStarted (j + 1) <$> x :: take b rest))
            ++ [BatchCollected (j + 1) (length rs)]
            ++ match drop b rest with [] => [] | _ :: _ => [BatchDelay 1000] end).
      { rewrite <- Hnext.
        destruct (Nat.ltb_spec (S j * S b) (length uniqueUrls)) as [Hl|Hl].
        - destruct (drop (S j * S b) uniqueUrls) eqn:Hd; [|done].
          apply (f_equal length) in Hd. rewrite length_drop in Hd. simpl in Hd. lia.
        - rewrite drop_ge by lia. by rewrite app_nil_r. }
      rewrite <- !app_assoc in Hdelay. rewrite <- !app_assoc.
      rewrite Hdelay. rewrite <- !app_assoc in Hloop. rewrite Hloop.
      rewrite Hnext. rewrite <- (Forall2_length _ _ _ Hrs).
      replace (j + 1) with (S j) by lia.
      cbn [trace_of_batches].
      assert (Hrest : match chunks (S b) (drop b rest) with
                      | [] => [] | _ :: _ => [BatchDelay 1000] end
                      = match drop b rest with
                        | [] => [] | _ :: _ => [BatchDelay 1000] end).
      { destruct (drop b rest) eqn:Hd; simp chunks; [done|].
        destruct b; simp chunks; done. }
      rewrite Hrest. done.
  - exists []. rewrite drop_ge by lia. simp chunks. rewrite !app_nil_r. by split.
Qed.


(** The loop never raises: no probe does. *)
Lemma batch_loop_never_raises world config uniqueUrls fuel i results trace error :
  batch_loop fuel world config uniqueUrls i results trace ≠ Some (Raised error).
Proof.
  revert i results trace. induction fuel as [|fuel IH]; intros i results trace; [done|].
  cbn [ListTs.batch_loop].
  destruct (i <? length uniqueUrls)%nat; [|done].
  destruct (Promise_all_returns
              (λ entry, advancedPingUrl (world entry) entry config)
              (slice uniqueUrls i (i + PingConfig.batchSize config)))
    as (rs & -> & _); [intros item; apply advancedPingUrl_returns|].
  apply IH.
Qed.

(** X15 ([runAdvancedPingTest], the batch loop). With a zero batch size the
    loop makes no progress on a catalog that is not empty: no amount of
    fuel lets it return. *)
Lemma batch_loop_zero_batchSize world config uniqueUrls fuel results trace :
  PingConfig.batchSize config = 0 → uniqueUrls ≠ [] →
  batch_loop fuel world config uniqueUrls 0 results trace = None.
Proof.
  intros Hsize Hne. revert results trace.
  induction fuel as [|fuel IH]; intros results trace; [done|].
  cbn [ListTs.batch_loop]. rewrite Hsize.
  destruct uniqueUrls as [|x rest]; [done|]. simpl. apply IH.
Qed.

(** The whole run: the catalog without its duplicates is probed batch by
    batch, six entries at a time, and the results are sorted. *)
Lemma runAdvancedPingTest_returns fuel world urls :
  length urls < fuel →
  ∃ results unsorted,
    ListTs.runAdvancedPingTest URL_parse Number_digits fuel world urls
    = Some (Returned (results, trace_of_batches 1 (chunks 6 (uniqueUrls_Map urls))))
    ∧ Forall2 (λ entry result,
                 advancedPingUrl (world entry) entry run_config = Returned result)
        (uniqueUrls_Map urls) unsorted
    ∧ results ≡ₚ unsorted.
Proof.
  intros Hfuel. unfold ListTs.runAdvancedPingTest.
  destruct (batch_loop_from world run_config (uniqueUrls_Map urls) 5 eq_refl fuel 0 [] [])
    as (unsorted & Hresults & Hloop).
  { pose proof (uniqueUrls_Map_length urls). lia. }
  simpl in Hresults, Hloop. rewrite Hloop.
  eexists _, unsorted. split; [reflexivity|]. split; [done|].
  apply Array_sort_Permutation.
Qed.

(** X13 ([runAdvancedPingTest], the sort). The sorted results of the run:
    the fully reachable endpoints first, in ascending order of their
    average time, provided every such average is a number. *)
Theorem runAdvancedPingTest_sorted fuel world urls results trace :
  ListTs.runAdvancedPingTest URL_parse Number_digits fuel world urls
  = Some (Returned (results, trace)) →
  Forall avg_known results →
  ∃ ups others,
    results = ups ++ others
    ∧ Forall (λ r, PingResult.status r = UP) ups
    ∧ Forall (λ r, PingResult.status r ≠ UP) others
    ∧ Sorted (λ a b, (PingStatistics.avg (PingResult.statistics a)
                      <=? PingStatistics.avg (PingResult.statistics b))%float = true)
        ups.
Proof.
  unfold ListTs.runAdvancedPingTest.
  destruct (batch_loop _ _ _ _ _ _ _) as [[[unsorted trace']|]|]; [|done|done].
  intros [= <- _] Hknown. apply precedes_sorted_split, sort_results_precedes.
  by rewrite (Array_sort_Permutation positive_number by_status_then_avg unsorted)
    in Hknown.
Qed.

End Batches.

(** ** The probes in flight

    The prober with its [await]s in place settles with what the prober
    above returns: the order in which the world answers has no part in the
    result of a probe. *)

Section InFlight.
Import ListTs.
Variable URL_parse : string → option URL.t.
Variable Number_digits : number → string.

Lemma complete_bind {A B} (f : A → Async.task B) (t : Async.task A) :
  Async.complete (t ≫= f) = Async.complete t ≫= (λ a, Async.complete (f a)).
Proof.
  induction t as [[a|error]|request resume IH]; [done|done|]. exact IH.
Qed.

Lemma complete_try_catch {A} (body : Async.task A) (handler : thrown → Async.task A) :
  Async.complete (Async.try_catch body handler)
  = try_catch (Async.complete body) (λ error, Async.complete (handler error)).
Proof.
  induction body as [[a|error]|request resume IH]; [done|done|]. exact IH.
Qed.

Lemma complete_performDnsLookup env hostname :
  Async.complete (Async.performDnsLookup env hostname)
  = ListTs.performDnsLookup env hostname.
Proof.
  unfold Async.performDnsLookup, ListTs.performDnsLookup.
  rewrite complete_try_catch, complete_bind. done.
Qed.

Lemma complete_ping_attempt env config hostname acc i :
  Async.complete (Async.ping_attempt Number_digits env config hostname acc i)
  = Returned (ListTs.ping_attempt Number_digits env config hostname acc i).
Proof.
  destruct acc as [raw times]. unfold Async.ping_attempt, ListTs.ping_attempt.
  rewrite complete_try_catch, complete_bind. cbn [Async.await Async.complete].
  destruct (Env.ping_probe env hostname _ i) as [result|error]; [|done].
  cbn [mbind outcome_bind try_catch].
  destruct (i <? PingConfig.attempts config - 1)%nat; cbn;
    by destruct (PingResponse.alive result).
Qed.

Lemma complete_ping_attempts_over env config hostname indices acc :
  Async.complete (Async.ping_attempts_over Number_digits env config hostname indices acc)
  = Returned (foldl (ListTs.ping_attempt Number_digits env config hostname) acc indices).
Proof.
  revert acc. induction indices as [|i rest IH]; intros acc; [done|].
  cbn [Async.ping_attempts_over foldl].
  rewrite complete_bind, complete_ping_attempt. cbn [mbind outcome_bind]. apply IH.
Qed.

(** Resumed to its end, the prober gives the result of [advancedPingUrl]. *)
Lemma complete_advancedPingUrl env entry config :
  Async.complete (Async.advancedPingUrl URL_parse Number_digits env entry config)
  = ListTs.advancedPingUrl URL_parse Number_digits env entry config.
Proof.
  unfold Async.advancedPingUrl, ListTs.advancedPingUrl.
  rewrite complete_try_catch. f_equal.
  rewrite complete_bind. cbn [Async.now Async.complete].
  destruct (ListTs.extractHostAndPort URL_parse (UrlEntry.url entry)) as [host|error];
    [|done].
  cbn [mbind outcome_bind]. rewrite complete_bind.
  assert (Async.complete
            (if PingConfig.enableDnsLookup config
             then Async.performDnsLookup env (HostAndPort.hostname host)
             else mret (DnsInfo.mk None (HostAndPort.hostname host) 0%Z None))
          = (if PingConfig.enableDnsLookup config
             then ListTs.performDnsLookup env (HostAndPort.hostname host)
             else mret (DnsInfo.mk None (HostAndPort.hostname host) 0%Z None))) as ->.
  { destruct (PingConfig.enableDnsLookup config); [apply complete_performDnsLookup|done]. }
  destruct (if PingConfig.enableDnsLookup config then _ else _) as [dnsInfo|error];
    [|done].
  cbn [mbind outcome_bind]. rewrite complete_bind.
  unfold Async.ping_attempts. rewrite complete_ping_attempts_over.
  cbn [mbind outcome_bind]. unfold ListTs.ping_attempts.
  by destruct (foldl _ _ _) as [raw times].
Qed.

End InFlight.

(** The event loop: whatever the oracle picks, the wait ends after as many
    turns as there are [await]s left, every task has settled, and the
    steps taken interleave the steps of the tasks. *)
Section EventLoop.
Context {A : Type}.
Implicit Types (states : list (Async.task A)) (t : Async.task A).

Lemma resume_nth_in_flight n position states :
  n < Async.in_flight states →
  ∃ j request resume,
    states !! j = Some (Async.Await request resume)
    ∧ Async.resume_nth n position states
      = Some (Async.Resumed (position + j) request (Async.is_settled resume),
              resume, <[j := resume]> states).
Proof.
  revert n position. induction states as [|t states IH]; intros n position.
  { unfold Async.in_flight. simpl. lia. }
  unfold Async.in_flight. rewrite filter_cons. destruct t as [result|request resume].
  - cbn [Async.is_settled]. rewrite decide_False by done. intros Hn.
    destruct (IH n (S position) Hn) as (j & request & resume & Hj & Hnth).
    exists (S j), request, resume. split; [done|]. cbn [Async.resume_nth].
    rewrite Hnth. replace (position + S j) with (S position + j) by lia. done.
  - cbn [Async.is_settled]. rewrite decide_True by done. cbn [length]. intros Hn.
    destruct n as [|n].
    + exists 0, request, resume. split; [done|]. cbn [Async.resume_nth].
      by rewrite Nat.add_0_r.
    + destruct (IH n (S position)) as (j & request' & resume' & Hj & Hnth).
      { unfold Async.in_flight. lia. }
      exists (S j), request', resume'. split; [done|]. cbn [Async.resume_nth].
      rewrite Hnth. replace (position + S j) with (S position + j) by lia. done.
Qed.

Lemma resume_nth_none_in_flight n position states :
  Async.in_flight states = 0 → Async.resume_nth n position states = None.
Proof.
  revert position. induction states as [|t states IH]; intros position; [done|].
  unfold Async.in_flight. rewrite filter_cons. destruct t as [result|request resume].
  - cbn [Async.is_settled]. rewrite decide_False by done. intros Hn.
    cbn [Async.resume_nth]. by rewrite (IH (S position) Hn).
  - cbn [Async.is_settled]. rewrite decide_True by done. done.
Qed.

Lemma in_flight_awaits states :
  Async.in_flight states = 0 ↔ sum_list (Async.awaits <$> states) = 0.
Proof.
  induction states as [|t states IH]; [done|].
  unfold Async.in_flight in *. rewrite filter_cons. csimpl.
  destruct t as [result|request resume]; cbn [Async.is_settled Async.awaits].
  - rewrite decide_False by done. by rewrite IH.
  - rewrite decide_True by done. cbn [length]. lia.
Qed.

Lemma fulfilled_settled states :
  Forall (λ t, ∃ a, Async.complete t = Returned a) states →
  sum_list (Async.awaits <$> states) = 0 →
  Forall2 (λ t a, Async.complete t = Returned a) states (Async.fulfilled states)
  ∧ @interleaves A states [].
Proof.
  intros Hall Hsum. split.
  - induction Hall as [|t states [a Ha] _ IH]; [constructor|].
    csimpl in Hsum. destruct t as [[a'|error]|request resume]; simpl in *; try done.
    injection Ha as ->. constructor; [done|]. apply IH. lia.
  - split; [constructor|]. intros index t Ht. rewrite filter_nil.
    assert (Async.awaits t = 0) as Hzero.
    { apply list_elem_of_lookup_2 in Ht. clear Hall.
      induction states as [|t' states IH]; [by apply elem_of_nil in Ht|].
      csimpl in Hsum. apply elem_of_cons in Ht as [->|Ht]; [lia|]. apply IH; [lia|done]. }
    by destruct t.
Qed.

Lemma sum_awaits_insert states j request resume :
  states !! j = Some (Async.Await request resume) →
  sum_list (Async.awaits <$> states)
  = S (sum_list (Async.awaits <$> <[j := resume]> states)).
Proof.
  revert j. induction states as [|t states IH]; intros [|j]; csimpl; try done.
  - intros [= ->]. done.
  - intros Hj. rewrite (IH j Hj). lia.
Qed.

(** The wait over tasks none of which throws. *)
Lemma drive_returns turns oracle turn states steps :
  Forall (λ t, ∃ a, Async.complete t = Returned a) states →
  sum_list (Async.awaits <$> states) ≤ turns →
  ∃ resumptions values,
    Async.drive turns oracle turn states steps
    = (Returned values, steps ++ resumptions, turn + sum_list (Async.awaits <$> states))
    ∧ Forall2 (λ t a, Async.complete t = Returned a) states values
    ∧ interleaves states resumptions.
Proof.
  revert turn states steps.
  induction turns as [|turns IH]; intros turn states steps Hall Hsum.
  { assert (sum_list (Async.awaits <$> states) = 0) as Hzero by lia.
    destruct (fulfilled_settled states Hall Hzero) as [Hvalues Hinter].
    exists [], (Async.fulfilled states). cbn [Async.drive].
    by rewrite app_nil_r, Hzero, Nat.add_0_r. }
  cbn [Async.drive].
  destruct (decide (Async.in_flight states = 0)) as [Hnone|Hsome].
  { rewrite (resume_nth_none_in_flight _ _ _ Hnone).
    pose proof (proj1 (in_flight_awaits states) Hnone) as Hzero.
    destruct (fulfilled_settled states Hall Hzero) as [Hvalues Hinter].
    exists [], (Async.fulfilled states).
    by rewrite app_nil_r, Hzero, Nat.add_0_r. }
  destruct (resume_nth_in_flight (oracle turn `mod` Async.in_flight states) 0 states)
    as (j & request & resume & Hj & ->).
  { apply Nat.mod_upper_bound. done. }
  pose proof (sum_awaits_insert states j request resume Hj) as Hless.
  assert (∃ a, Async.complete resume = Returned a) as [a Ha].
  { rewrite Forall_forall in Hall. apply (Hall (Async.Await request resume)).
    by eapply list_elem_of_lookup_2. }
  destruct (IH (S turn) (<[j := resume]> states)
              (steps ++ [Async.Resumed (0 + j) request (Async.is_settled resume)]))
    as (resumptions & values & Hdrive & Hvalues & Hlen & Hinter).
  { apply Forall_insert; [done|]. by exists a. }
  { lia. }
  exists (Async.Resumed (0 + j) request (Async.is_settled resume) :: resumptions), values.
  split; [|split; [|split]].
  - assert (Async.drive turns oracle (S turn) (<[j := resume]> states)
              (steps ++ [Async.Resumed (0 + j) request (Async.is_settled resume)])
            = (Returned values,
               steps ++ Async.Resumed (0 + j) request (Async.is_settled resume)
                 :: resumptions,
               turn + sum_list (Async.awaits <$> states))) as Hdrive'.
    { rewrite Hdrive, <- app_assoc, Hless.
      by replace (S turn + sum_list (Async.awaits <$> <[j := resume]> states))
        with (turn + S (sum_list (Async.awaits <$> <[j := resume]> states))) by lia. }
    destruct resume as [[a'|error]|request' resume']; [done|done|done].
  - apply Forall2_same_length_lookup. split.
    { rewrite <- (Forall2_length _ _ _ Hvalues). by rewrite length_insert. }
    intros i t b Ht Hb. destruct (decide (i = j)) as [->|Hij].
    + rewrite Hj in Ht. injection Ht as <-. cbn [Async.complete].
      apply (Forall2_lookup_lr (λ t a, Async.complete t = Returned a) _ _ j resume b
               Hvalues); [|done].
      apply list_lookup_insert_eq. by eapply lookup_lt_Some.
    + apply (Forall2_lookup_lr (λ t a, Async.complete t = Returned a) _ _ i t b
               Hvalues); [|done].
      by rewrite list_lookup_insert_ne.
  - constructor; [|by rewrite length_insert in Hlen].
    cbn. by eapply lookup_lt_Some.
  - intros i t Ht. rewrite filter_cons. cbn [step_index]. rewrite Nat.add_0_l.
    destruct (decide (j = i)) as [->|Hij].
    + rewrite Hj in Ht. injection Ht as <-. cbn [steps_of]. f_equal.
      apply Hinter. apply list_lookup_insert_eq. by eapply lookup_lt_Some.
    + apply Hinter. by rewrite list_lookup_insert_ne.
Qed.

End EventLoop.

(** [Promise.all] over the calls of a batch, and the order of the events
    of a run in batches. *)
Section Dispatcher.
Import ListTs.
Variable URL_parse : string → option URL.t.
Variable Number_digits : number → string.
Local Abbreviation probe := (Async.advancedPingUrl URL_parse Number_digits).

Lemma first_rejection_none {A} (states : list (Async.task A)) :
  Forall (λ t, ∃ a, Async.complete t = Returned a) states →
  Async.first_rejection states = None.
Proof.
  induction 1 as [|t states [a Ha] _ IH]; [done|].
  by destruct t as [[a'|error]|request resume].
Qed.

(** All calls are made before the first resumption. *)
Lemma Promise_all_in_flight {A B} oracle turn (f : A → Async.task B) (items : list A) :
  (∀ item, ∃ b, Async.complete (f item) = Returned b) →
  ∃ resumptions values turn',
    Async.Promise_all oracle turn f items
    = (Returned values, calls_of (f <$> items) ++ resumptions, turn')
    ∧ Forall2 (λ item b, Async.complete (f item) = Returned b) items values
    ∧ interleaves (f <$> items) resumptions.
Proof.
  intros Hf.
  assert (Forall (λ t, ∃ b, Async.complete t = Returned b) (f <$> items)) as Hall.
  { apply Forall_fmap, Forall_forall. intros item _. apply Hf. }
  unfold Async.Promise_all. rewrite (first_rejection_none _ Hall).
  destruct (drive_returns (sum_list (Async.awaits <$> (f <$> items))) oracle turn
              (f <$> items) (calls_of (f <$> items)) Hall (le_n _))
    as (resumptions & values & Hdrive & Hvalues & Hinter).
  unfold calls_of in *. rewrite Hdrive.
  eexists resumptions, values, _. split; [done|]. split; [|done].
  by apply Forall2_fmap_l in Hvalues.
Qed.

Lemma resumptions_Resumed {A} (tasks : list (Async.task A)) steps :
  interleaves tasks steps →
  Forall (λ step, ∃ index request settled, step = Async.Resumed index request settled) steps.
Proof.
  intros [Hindex Hsteps]. apply Forall_forall. intros step Hstep.
  rewrite Forall_forall in Hindex. specialize (Hindex step Hstep).
  destruct (lookup_lt_is_Some_2 tasks (step_index step) Hindex) as [t Ht].
  assert (step ∈ steps_of (step_index step) t) as Hin.
  { rewrite <- (Hsteps _ _ Ht). by apply list_elem_of_filter. }
  clear Ht. generalize dependent (step_index step). intros index _ Hin.
  induction t as [result|request resume IH]; [by apply elem_of_nil in Hin|].
  apply elem_of_cons in Hin as [->|Hin]; [by eexists _, _, _|by apply IH].
Qed.

Lemma stages_imap_Called {A} k (tasks : list (Async.task A))
    (call : nat → Async.task A → Async.Step) :
  (∀ index t, ∃ position in_flight, call index t = Async.Called position in_flight) →
  stages (Async.InBatch k <$> imap call tasks) = replicate (length tasks) (3 * k).
Proof.
  unfold stages. revert call. induction tasks as [|t tasks IH]; intros call Hcall; [done|].
  cbn [imap fmap list_fmap omap list_omap length replicate].
  destruct (Hcall 0 t) as (position & in_flight & ->). cbn [stage].
  f_equal. apply IH. intros index t'. apply Hcall.
Qed.

Lemma stages_calls {A} k (tasks : list (Async.task A)) :
  stages (Async.InBatch k <$> calls_of tasks) = replicate (length tasks) (3 * k).
Proof. apply stages_imap_Called. intros index t. by eexists _, _. Qed.

Lemma stages_resumptions {A} k (tasks : list (Async.task A)) steps :
  interleaves tasks steps →
  stages (Async.InBatch k <$> steps) = replicate (length steps) (3 * k + 1).
Proof.
  intros Hsteps%resumptions_Resumed. unfold stages.
  induction Hsteps as [|step steps (index & request & settled & ->) _ IH]; [done|].
  csimpl. by rewrite IH.
Qed.

Lemma replicate_StronglySorted (n x : nat) : StronglySorted le (replicate n x).
Proof.
  induction n as [|n IH]; simpl; [constructor|].
  constructor; [done|]. apply Forall_forall. by intros ? [-> _]%elem_of_replicate.
Qed.

(** In a run in batches no event comes before one of an earlier stage. *)
Lemma stages_in_order {A} k (batches : list (list (Async.task A))) trace :
  in_batches k batches trace →
  StronglySorted le (stages trace) ∧ Forall (le (3 * k)) (stages trace).
Proof.
  revert k trace. induction batches as [|tasks rest IH]; intros k trace; cbn [in_batches].
  { intros ->. split; constructor. }
  intros (resumptions & later & Hinter & -> & Hlater).
  destruct (IH _ _ Hlater) as [Hsorted Hbound]. rewrite Forall_forall in Hbound.
  assert (stages ((Async.InBatch k <$> calls_of tasks)
                    ++ (Async.InBatch k <$> resumptions)
                    ++ [Async.Collected k (length tasks)]
                    ++ match rest with [] => [] | _ :: _ => [Async.Paused 1000] end
                    ++ later)
          = replicate (length tasks) (3 * k)
              ++ replicate (length resumptions) (3 * k + 1)
              ++ [3 * k + 2] ++ stages later) as ->.
  { unfold stages. rewrite !omap_app.
    fold (stages (Async.InBatch k <$> calls_of tasks)).
    fold (stages (Async.InBatch k <$> resumptions)).
    rewrite stages_calls, (stages_resumptions k tasks resumptions Hinter).
    by destruct rest. }
  split.
  - apply StronglySorted_app_2; [|apply replicate_StronglySorted|].
    + intros x1 x2 [-> _]%elem_of_replicate
        [[-> _]%elem_of_replicate|[->%list_elem_of_singleton|Hx2%Hbound]%elem_of_app]%elem_of_app;
        lia.
    + apply StronglySorted_app_2; [|apply replicate_StronglySorted|].
      * intros x1 x2 [-> _]%elem_of_replicate
          [->%list_elem_of_singleton|Hx2%Hbound]%elem_of_app; lia.
      * apply (StronglySorted_app_2 _ [_]); [|repeat constructor|done].
        intros x1 x2 ->%list_elem_of_singleton Hx2%Hbound. lia.
  - rewrite !Forall_app. split_and!.
    + apply Forall_forall. intros ? [-> _]%elem_of_replicate. lia.
    + apply Forall_forall. intros ? [-> _]%elem_of_replicate. lia.
    + repeat constructor. lia.
    + apply Forall_forall. intros x Hx%Hbound. lia.
Qed.

End Dispatcher.

(** The batch loop with the probes in flight. *)
Section BatchesInFlight.
Import ListTs.
Variable URL_parse : string → option URL.t.
Variable Number_digits : number → string.
Local Abbreviation probe := (Async.advancedPingUrl URL_parse Number_digits).
Local Abbreviation advancedPingUrl := (ListTs.advancedPingUrl URL_parse Number_digits).

Lemma probe_returns env entry config :
  ∃ result, Async.complete (probe env entry config) = Returned result.
Proof. rewrite complete_advancedPingUrl. apply advancedPingUrl_returns. Qed.

(** A call leaves the prober suspended unless it has nothing to wait
    for: no host to probe, or neither a lookup nor an attempt to make. *)
Lemma probe_in_flight env entry config :
  Async.is_settled (probe env entry config) = true
  ↔ (∃ error, extractHostAndPort URL_parse (UrlEntry.url entry) = Raised error)
    ∨ (PingConfig.enableDnsLookup config = false ∧ PingConfig.attempts config = 0).
Proof.
  unfold Async.advancedPingUrl.
  destruct (extractHostAndPort URL_parse (UrlEntry.url entry)) as [host|error].
  - cbn [Async.now mbind Async.task_mbind Async.task_bind].
    destruct (PingConfig.enableDnsLookup config).
    + cbn. split; [done|]. by intros [[? ?]|[? ?]].
    + cbn [mret Async.task_ret Async.task_bind]. unfold Async.ping_attempts.
      destruct (PingConfig.attempts config) as [|n].
      * cbn. split; [|done]. intros _. by right.
      * cbn. split; [done|]. by intros [[? ?]|[? ?]].
  - cbn. split; [|done]. intros _. left. by eexists.
Qed.

(** The loop from the start of batch [S j] on, at any turn of the world. *)
Lemma async_batch_loop_from world config uniqueUrls b :
  PingConfig.batchSize config = S b →
  ∀ fuel oracle j turn results trace,
    length uniqueUrls - j * S b < fuel →
    ∃ batchResults later,
      Forall2 (λ entry result, advancedPingUrl (world entry) entry config = Returned result)
        (drop (j * S b) uniqueUrls) batchResults
      ∧ Async.batch_loop URL_parse Number_digits fuel oracle turn world config uniqueUrls
          (j * S b) results trace
        = Some (Returned (results ++ batchResults, trace ++ later))
      ∧ in_batches (S j)
          ((λ batch : list UrlEntry.t, (λ entry, probe (world entry) entry config) <$> batch)
             <$> chunks (S b) (drop (j * S b) uniqueUrls)) later.
Proof.
  intros Hsize fuel oracle.
  induction fuel as [|fuel IH]; intros j turn results trace Hfuel; [lia|].
  cbn [Async.batch_loop]. rewrite Hsize.
  destruct (Nat.ltb_spec (j * S b) (length uniqueUrls)) as [Hlt|Hge].
  - destruct (drop (j * S b) uniqueUrls) as [|x rest] eqn:Hdrop.
    { apply (f_equal length) in Hdrop. rewrite length_drop in Hdrop. simpl in Hdrop. lia. }
    assert (Hbatch : slice uniqueUrls (j * S b) (j * S b + S b) = x :: take b rest).
    { unfold slice. replace (j * S b + S b - j * S b) with (S b) by lia.
      by rewrite Hdrop. }
    assert (Hnext : drop (S j * S b) uniqueUrls = drop b rest).
    { replace (S j * S b) with (j * S b + S b) by lia.
      rewrite <- drop_drop, Hdrop. done. }
    rewrite Hbatch. rewrite Nat.div_mul by lia.
    destruct (Promise_all_in_flight oracle turn
                (λ entry, probe (world entry) entry config) (x :: take b rest))
      as (resumptions & rs & turn' & -> & Hrs & Hinter);
      [intros item; apply probe_returns|].
    replace (j * S b + S b) with (S j * S b) by lia.
    replace (j + 1) with (S j) by lia.
    set (pause := if (S j * S b <? length uniqueUrls)%nat
                  then [Async.Paused 1000] else []).
    destruct (IH (S j) turn' (results ++ rs)
                (trace
                   ++ (Async.InBatch (S j)
                         <$> calls_of ((λ entry, probe (world entry) entry config)
                                         <$> x :: take b rest))
                   ++ (Async.InBatch (S j) <$> resumptions)
                   ++ [Async.Collected (S j) (length rs)] ++ pause))
      as (rs' & later & Hrs' & Hloop & Hlater); [lia|].
    exists (rs ++ rs'),
      ((Async.InBatch (S j)
          <$> calls_of ((λ entry, probe (world entry) entry config) <$> x :: take b rest))
         ++ (Async.InBatch (S j) <$> resumptions)
         ++ [Async.Collected (S j) (length rs)] ++ pause ++ later).
    split; [|split].
    + rewrite <- (take_drop b rest). rewrite app_comm_cons.
      apply Forall2_app; [|by rewrite <- Hnext].
      eapply Forall2_impl; [exact Hrs|]. intros entry result Hresult.
      rewrite <- complete_advancedPingUrl. exact Hresult.
    + etrans; [|etrans; [exact Hloop|]].
      * f_equal. unfold pause. rewrite fmap_app.
        destruct (S j * S b <? length uniqueUrls)%nat; rewrite <- ?app_assoc; [done|].
        by rewrite app_nil_r.
      * by rewrite <- !app_assoc.
    + simp chunks. cbn [fmap list_fmap in_batches].
      exists resumptions, later. split; [done|]. split; [|by rewrite <- Hnext].
      assert (length (probe (world x) x config
                        :: ((λ entry, probe (world entry) entry config) <$> take b rest))
              = length rs) as ->.
      { rewrite <- (Forall2_length _ _ _ Hrs). simpl. by rewrite !length_fmap. }
      do 3 f_equal. f_equal. unfold pause. rewrite <- Hnext.
      destruct (Nat.ltb_spec (S j * S b) (length uniqueUrls)) as [Hl|Hl].
      * destruct (drop (S j * S b) uniqueUrls) as [|y more] eqn:Hd.
        { apply (f_equal length) in Hd. rewrite length_drop in Hd. simpl in Hd. lia. }
        simp chunks. done.
      * rewrite drop_ge by lia. simp chunks. done.
  - exists [], []. rewrite drop_ge by lia. simp chunks. rewrite !app_nil_r. by split.
Qed.

End BatchesInFlight.

Section BatchesClaim.
Import ListTs.
Variable URL_parse : string → option URL.t.
Variable Number_digits : number → string.
Local Abbreviation probe := (Async.advancedPingUrl URL_parse Number_digits).
Local Abbreviation advancedPingUrl := (ListTs.advancedPingUrl URL_parse Number_digits).

Lemma returned_values_unique {A B} (f : A → outcome B) (items : list A) (bs bs' : list B) :
  Forall2 (λ item b, f item = Returned b) items bs →
  Forall2 (λ item b, f item = Returned b) items bs' →
  bs = bs'.
Proof.
  intros Hbs. revert bs'.
  induction Hbs as [|item b items bs Hb _ IH]; intros bs' Hbs'.
  - by apply Forall2_nil_inv_l in Hbs'.
  - apply Forall2_cons_inv_l in Hbs' as (b' & rest & Hb' & Hrest & ->).
    f_equal; [congruence|by apply IH].
Qed.

(** C5. For a catalog of [N] entries and a batch size [B > 0] the loop,
    given fuel for more than [N] turns, returns, whatever the order in
    which the world answers the probes in flight. It issues the batches
    [chunks B uniqueUrls], which are [ceil (N / B)] many, hold at most [B]
    entries each and together make up the catalog. The probes of a batch
    run concurrently: all of them are called before any of them is
    resumed, a probe with a host to reach is left in flight by its call
    whenever an attempt is to be made, and the resumptions of the batch
    interleave the steps of its probes. The results of the batch are
    collected after the last of these steps, and the probes of the next
    batch are called only after that: the events of the run stand in the
    order of their stages. The results are those of the probes taken one
    by one, in the order of the catalog, which is what the loop of
    [runAdvancedPingTest] above returns. *)
Theorem batch_loop_batches oracle world config uniqueUrls fuel :
  0 < PingConfig.batchSize config →
  length uniqueUrls < fuel →
  ∃ results trace,
    Async.batch_loop URL_parse Number_digits fuel oracle 0 world config uniqueUrls 0 [] []
    = Some (Returned (results, trace))
    ∧ length (chunks (PingConfig.batchSize config) uniqueUrls)
      = (length uniqueUrls + PingConfig.batchSize config - 1)
          / PingConfig.batchSize config
    ∧ Forall (λ batch, 0 < length batch ≤ PingConfig.batchSize config)
        (chunks (PingConfig.batchSize config) uniqueUrls)
    ∧ concat (chunks (PingConfig.batchSize config) uniqueUrls) = uniqueUrls
    ∧ in_batches 1
        ((λ batch : list UrlEntry.t,
            (λ entry, probe (world entry) entry config) <$> batch)
           <$> chunks (PingConfig.batchSize config) uniqueUrls)
        trace
    ∧ (∀ entry host,
         extractHostAndPort URL_parse (UrlEntry.url entry) = Returned host →
         0 < PingConfig.attempts config →
         Async.is_settled (probe (world entry) entry config) = false)
    ∧ StronglySorted le (stages trace)
    ∧ Forall2 (λ entry result,
                 advancedPingUrl (world entry) entry config = Returned result)
        uniqueUrls results
    ∧ ListTs.batch_loop URL_parse Number_digits fuel world config uniqueUrls 0 [] []
      = Some (Returned
                (results,
                 trace_of_batches 1 (chunks (PingConfig.batchSize config) uniqueUrls))).
Proof.
  intros Hsize Hfuel.
  destruct (PingConfig.batchSize config) as [|b] eqn:Hb; [lia|].
  destruct (async_batch_loop_from URL_parse Number_digits world config uniqueUrls b Hb
              fuel oracle 0 0 [] [])
    as (results & trace & Hresults & Hloop & Htrace); [simpl; lia|].
  simpl in Hresults, Hloop, Htrace. exists results, trace. split_and!.
  - done.
  - apply chunks_length. lia.
  - apply chunks_bounded. lia.
  - apply chunks_concat.
  - done.
  - intros entry host Hhost Hattempts.
    destruct (Async.is_settled (probe (world entry) entry config)) eqn:Hsettled; [|done].
    apply probe_in_flight in Hsettled as [[error Herror]|[_ Hnone]]; [congruence|lia].
  - eapply proj1, stages_in_order, Htrace.
  - done.
  - destruct (batch_loop_from URL_parse Number_digits world config uniqueUrls b Hb
                fuel 0 [] [])
      as (results' & Hresults' & Hloop'); [simpl; lia|].
    simpl in Hresults', Hloop'.
    by rewrite (returned_values_unique _ _ _ _ Hresults Hresults').
Qed.

End BatchesClaim.

(** ** The fast check and the listing *)

Section QuickScripts.
Variable URL_parse : string → option URL.t.
Variable Number_digits : number → string.
Local Abbreviation quickPing := (FastCheck.quickPing URL_parse).
Local Abbreviation fastCheck := (FastCheck.fastCheck URL_parse Number_digits).
Local Abbreviation checkUrl := (ListUp.checkUrl URL_parse).
Local Abbreviation listUpUrls := (ListUp.listUpUrls URL_parse Number_digits).

(** The quick probes classify by the answer of the one probe they make. *)
Lemma quickPing_result env entry :
  quickPing env entry
  = Returned
      (FastCheck.SimpleResult.mk (UrlEntry.url entry) (UrlEntry.name entry)
         (match Env.ping_probe env (extractHostname URL_parse (UrlEntry.url entry))
                  2%float 0 with
          | Returned result =>
              if PingResponse.alive result then FastCheck.UP else FastCheck.DOWN
          | Raised _ => FastCheck.DOWN
          end)
         (Env.now_end env - Env.now_start env)%Z).
Proof.
  unfold FastCheck.quickPing.
  by destruct (Env.ping_probe env _ 2%float 0) as [[[] ?]|].
Qed.

Lemma checkUrl_result env entry :
  checkUrl env entry
  = Returned
      (ListUp.CheckResult.mk (UrlEntry.url entry) (UrlEntry.name entry)
         (match Env.ping_probe env (extractHostname URL_parse (UrlEntry.url entry))
                  2%float 0 with
          | Returned result => PingResponse.alive result
          | Raised _ => false
          end)).
Proof.
  unfold ListUp.checkUrl. by destruct (Env.ping_probe env _ 2%float 0).
Qed.

Lemma success_rate_0_0 : FastCheck.successRate Number_digits 0 0 = nan.
Proof. reflexivity. Qed.

(** C9. In the summary of the fast check the reachable endpoints stand in
    ascending order of their latency: each is at most as slow as the next.
    They are the reachable ones among the results, each once. *)
Theorem fastCheck_upSites_sorted clock world urls :
  ∃ output results,
    fastCheck clock world urls = Returned output
    ∧ Forall2 (λ entry result, quickPing (world entry) entry = Returned result)
        (uniqueUrls_Set urls) results
    ∧ Sorted Z.le (FastCheck.UpSite.time <$> FastCheck.SimpleOutput.upSites output)
    ∧ FastCheck.SimpleOutput.upSites output
      ≡ₚ (λ r, FastCheck.UpSite.mk (FastCheck.SimpleResult.url r)
                 (FastCheck.SimpleResult.responseTime r))
           <$> filter (λ r, FastCheck.SimpleResult.status r = FastCheck.UP) results.
Proof.
  unfold FastCheck.fastCheck.
  destruct (Promise_all_returns (λ entry, quickPing (world entry) entry)
              (uniqueUrls_Set urls)) as (results & -> & Hresults).
  { intros entry. rewrite quickPing_result. eauto. }
  simpl. eexists _, results. split; [reflexivity|]. split; [done|]. simpl. split.
  - rewrite <- list_fmap_compose.
    eapply Sorted_fmap;
      [|apply (Array_sort_Sorted FastCheck.SimpleResult.responseTime)].
    done.
  - apply fmap_Permutation.
    apply Array_sort_Permutation.
Qed.

(** C2, as the scripts have it. The aggregation never fails: the fast
    check and the listing return their summary for every catalog. Nothing
    guards the division: for an empty set of checked endpoints the success
    rate is 0 / 0 * 100, which is NaN, and stays NaN through [toFixed] and
    [parseFloat]. *)
Theorem aggregation_total_rate_of_nothing clock world :
  (∀ urls, ∃ output, fastCheck clock world urls = Returned output)
  ∧ (∀ urls, ∃ output, listUpUrls clock world urls = Returned output)
  ∧ (∃ output,
       fastCheck clock world [] = Returned output
       ∧ FastCheck.Summary.total (FastCheck.SimpleOutput.summary output) = 0
       ∧ FastCheck.Summary.successRate (FastCheck.SimpleOutput.summary output) = nan)
  ∧ (∃ output,
       listUpUrls clock world [] = Returned output
       ∧ ListUp.DetailedList.total_checked output.2 = 0
       ∧ ListUp.DetailedList.success_rate output.2 = nan).
Proof.
  split_and!.
  - intros urls. unfold FastCheck.fastCheck.
    destruct (Promise_all_returns (λ entry, quickPing (world entry) entry)
                (uniqueUrls_Set urls)) as (results & -> & _).
    { intros entry. rewrite quickPing_result. eauto. }
    simpl. eauto.
  - intros urls. unfold ListUp.listUpUrls.
    destruct (Promise_all_returns (λ entry, checkUrl (world entry) entry)
                (uniqueUrls_Set urls)) as (results & -> & _).
    { intros entry. rewrite checkUrl_result. eauto. }
    simpl. eauto.
  - eexists. split; [reflexivity|]. by split.
  - eexists. split; [reflexivity|]. by split.
Qed.

End QuickScripts.

(** ** Addresses [new URL] rejects *)

Section MalformedAddresses.
Import ListTs.
Variable URL_parse : string → option URL.t.
Variable Number_digits : number → string.
Local Abbreviation extractHostAndPort := (ListTs.extractHostAndPort URL_parse).
Local Abbreviation advancedPingUrl := (ListTs.advancedPingUrl URL_parse Number_digits).
Local Abbreviation batch_loop := (ListTs.batch_loop URL_parse Number_digits).
Local Abbreviation quickPing := (FastCheck.quickPing URL_parse).
Local Abbreviation checkUrl := (ListUp.checkUrl URL_parse).

Lemma match_host_port_nonempty urlString host digits :
  match_host_port urlString = Some (host, digits) → is_empty host = false.
Proof.
  unfold match_host_port. destruct (after_scheme urlString) as [rest|]; [|done].
  simpl. destruct (span host_char rest) as [h r].
  destruct (is_empty h) eqn:Hh; [done|]. by intros [= <- _].
Qed.

Lemma match_host_nonempty urlString host :
  match_host urlString = Some host → is_empty host = false.
Proof.
  unfold match_host. destruct (after_scheme urlString) as [rest|]; [|done].
  simpl. destruct (span host_char rest) as [h r].
  destruct (is_empty h) eqn:Hh; [done|]. by intros [= <-].
Qed.

(** C3, as the scripts have it. For an address [new URL] rejects the host
    name is the one the fallback pattern finds. When the pattern finds
    none, the multi-attempt prober reports the endpoint DOWN with the
    error "Invalid URL format", and its batch loop goes on, as it never
    raises; the quick probes of the fast check and of the listing instead
    take the address itself for the host name, classify the endpoint by
    the answer of that probe, and keep no error text. *)
Theorem unparseable_address env entry config :
  URL_parse (UrlEntry.url entry) = None →
  (∀ host digits,
     match_host_port (UrlEntry.url entry) = Some (host, digits)
     → ∃ extracted,
         extractHostAndPort (UrlEntry.url entry) = Returned extracted
         ∧ HostAndPort.hostname extracted = host)
  ∧ (match_host_port (UrlEntry.url entry) = None
     → extractHostAndPort (UrlEntry.url entry) = Raised (ErrorObject "Invalid URL format")
       ∧ ∃ result,
           advancedPingUrl env entry config = Returned result
           ∧ PingResult.status result = DOWN
           ∧ PingResult.error result = Some "Invalid URL format")
  ∧ (∀ fuel world uniqueUrls i results trace error,
       batch_loop fuel world config uniqueUrls i results trace ≠ Some (Raised error))
  ∧ (∀ host,
       match_host (UrlEntry.url entry) = Some host
       → extractHostname URL_parse (UrlEntry.url entry) = host)
  ∧ (match_host (UrlEntry.url entry) = None
     → extractHostname URL_parse (UrlEntry.url entry) = UrlEntry.url entry
       ∧ quickPing env entry
         = Returned
             (FastCheck.SimpleResult.mk (UrlEntry.url entry) (UrlEntry.name entry)
                (match Env.ping_probe env (UrlEntry.url entry) 2%float 0 with
                 | Returned result =>
                     if PingResponse.alive result then FastCheck.UP else FastCheck.DOWN
                 | Raised _ => FastCheck.DOWN
                 end)
                (Env.now_end env - Env.now_start env)%Z)
       ∧ checkUrl env entry
         = Returned
             (ListUp.CheckResult.mk (UrlEntry.url entry) (UrlEntry.name entry)
                (match Env.ping_probe env (UrlEntry.url entry) 2%float 0 with
                 | Returned result => PingResponse.alive result
                 | Raised _ => false
                 end))).
Proof.
  intros Hparse. split_and!.
  - intros host digits Hmatch. unfold ListTs.extractHostAndPort.
    rewrite Hparse, Hmatch, (match_host_port_nonempty _ _ _ Hmatch). eauto.
  - intros Hmatch.
    assert (Hraised : extractHostAndPort (UrlEntry.url entry)
                      = Raised (ErrorObject "Invalid URL format")).
    { unfold ListTs.extractHostAndPort. by rewrite Hparse, Hmatch. }
    split; [done|].
    rewrite (advancedPingUrl_rejected _ _ env entry config _ Hraised). eauto.
  - intros. apply batch_loop_never_raises.
  - intros host Hmatch. unfold extractHostname.
    by rewrite Hparse, Hmatch, (match_host_nonempty _ _ Hmatch).
  - intros Hmatch.
    assert (Hname : extractHostname URL_parse (UrlEntry.url entry) = UrlEntry.url entry).
    { unfold extractHostname. by rewrite Hparse, Hmatch. }
    split; [done|]. rewrite quickPing_result, checkUrl_result, Hname. done.
Qed.

End MalformedAddresses.

(** ** The order of the numbers *)

Section Binary64Compare.
Local Open Scope Z_scope.

Lemma SFcompare_key f1 f2 :
  f1 ≠ S754_nan → f2 ≠ S754_nan →
  (SFleb f1 f2 = true ↔ key_le (SF_key f1) (SF_key f2))
  ∧ (SFltb f1 f2 = true ↔ key_lt (SF_key f1) (SF_key f2)).
Proof.
  intros H1 H2. unfold SFleb, SFltb, key_le, key_lt.
  destruct f1 as [s1|s1| |s1 m1 e1], f2 as [s2|s2| |s2 m2 e2]; try done;
    try destruct s1; try destruct s2; simpl; try (split; split; (done || lia)).
  - change (PosDef.Pos.compare_cont Eq m1 m2) with (m1 ?= m2)%positive.
    destruct (Z.compare_spec e1 e2), (Pos.compare_spec m1 m2); simpl;
      split; split; (done || lia).
  - change (PosDef.Pos.compare_cont Eq m1 m2) with (m1 ?= m2)%positive.
    destruct (Z.compare_spec e1 e2), (Pos.compare_spec m1 m2); simpl;
      split; split; (done || lia).
Qed.

Lemma is_number_Prim2SF x : is_number x ↔ Prim2SF x ≠ S754_nan.
Proof.
  unfold is_number, is_nan. rewrite eqb_spec. unfold SFeqb.
  destruct (Prim2SF x) as [s|s| |s m e]; simpl.
  - by destruct s.
  - by destruct s.
  - split; [done|]. by intros [].
  - change (PosDef.Pos.compare_cont Eq m m) with (m ?= m)%positive.
    rewrite Z.compare_refl, Pos.compare_refl. by destruct s.
Qed.

Lemma leb_is_number x y : (x <=? y)%float = true → is_number x ∧ is_number y.
Proof.
  rewrite leb_spec, !is_number_Prim2SF. unfold SFleb.
  by destruct (Prim2SF x), (Prim2SF y).
Qed.

Lemma leb_refl x : is_number x → (x <=? x)%float = true.
Proof.
  intros Hx%is_number_Prim2SF. rewrite leb_spec.
  apply (SFcompare_key _ _ Hx Hx). unfold key_le. lia.
Qed.

Lemma leb_trans x y z :
  (x <=? y)%float = true → (y <=? z)%float = true → (x <=? z)%float = true.
Proof.
  intros Hxy Hyz.
  destruct (leb_is_number _ _ Hxy) as [Hx%is_number_Prim2SF Hy%is_number_Prim2SF].
  destruct (leb_is_number _ _ Hyz) as [_ Hz%is_number_Prim2SF].
  rewrite leb_spec in *.
  apply (SFcompare_key _ _ Hx Hy) in Hxy. apply (SFcompare_key _ _ Hy Hz) in Hyz.
  apply (SFcompare_key _ _ Hx Hz). unfold key_le in *. lia.
Qed.

Lemma ltb_leb x y : (x <? y)%float = true → (x <=? y)%float = true.
Proof.
  rewrite ltb_spec, leb_spec. unfold SFltb, SFleb.
  by destruct (SFcompare _ _) as [[]|].
Qed.

Lemma not_ltb_leb x y :
  is_number x → is_number y → (x <? y)%float = false → (y <=? x)%float = true.
Proof.
  intros Hx%is_number_Prim2SF Hy%is_number_Prim2SF. rewrite ltb_spec, leb_spec.
  intros Hlt. apply (SFcompare_key _ _ Hy Hx).
  destruct (SFltb (Prim2SF x) (Prim2SF y)) eqn:E; [done|].
  assert (¬ key_lt (SF_key (Prim2SF x)) (SF_key (Prim2SF y))) as Hn.
  { intros Hk. apply (SFcompare_key _ _ Hx Hy) in Hk. congruence. }
  unfold key_lt, key_le in *. lia.
Qed.

Lemma zeros_leb x y : is_zero x = true → is_zero y = true → (x <=? y)%float = true.
Proof.
  unfold is_zero. rewrite !eqb_spec, leb_spec. unfold SFeqb, SFleb.
  change (Prim2SF zero) with (S754_zero false).
  destruct (Prim2SF x) as [s1|s1| |s1 m1 e1], (Prim2SF y) as [s2|s2| |s2 m2 e2];
    simpl; try done; try (by destruct s1); try (by destruct s2).
Qed.

Lemma infinity_leb x : (infinity <=? x)%float = true → x = infinity.
Proof.
  rewrite leb_spec. change (Prim2SF infinity) with (S754_infinity false).
  intros H. apply Prim2SF_inj. change (Prim2SF infinity) with (S754_infinity false).
  by destruct (Prim2SF x) as [s|[]| |s m e]; try destruct s.
Qed.

Lemma leb_neg_infinity x : (x <=? neg_infinity)%float = true → x = neg_infinity.
Proof.
  rewrite leb_spec. change (Prim2SF neg_infinity) with (S754_infinity true).
  intros H. apply Prim2SF_inj. change (Prim2SF neg_infinity) with (S754_infinity true).
  by destruct (Prim2SF x) as [s|[]| |s m e]; try destruct s.
Qed.

Lemma existsb_is_nan values : Forall is_number values → existsb is_nan values = false.
Proof. induction 1 as [|x values Hx _ IH]; [done|]. simpl. by rewrite Hx, IH. Qed.

Lemma Math_min_fold values lowest :
  Forall is_number values → is_number lowest →
  let result :=
    foldl (λ lowest x,
             if (is_neg_zero x && is_pos_zero lowest) || (x <? lowest)%float
             then x else lowest) lowest values in
  (result = lowest ∨ result ∈ values)
  ∧ (result <=? lowest)%float = true
  ∧ Forall (λ t, (result <=? t)%float = true) values.
Proof.
  intros Hvalues. revert lowest.
  induction Hvalues as [|x values Hx _ IH]; intros lowest Hlowest; cbn [foldl].
  { split; [by left|]. split; [by apply leb_refl|constructor]. }
  set (next := if (is_neg_zero x && is_pos_zero lowest) || (x <? lowest)%float
               then x else lowest).
  assert ((next = lowest ∨ next = x) ∧ (next <=? lowest)%float = true
          ∧ (next <=? x)%float = true) as (Hnext & Hnl & Hnx).
  { unfold next. destruct (is_neg_zero x && is_pos_zero lowest) eqn:Hzeros; simpl.
    - apply andb_prop in Hzeros as [[Hzx _]%andb_prop [Hzl _]%andb_prop].
      split; [by right|]. split; [by apply zeros_leb|by apply leb_refl].
    - destruct (x <? lowest)%float eqn:Hlt.
      + split; [by right|]. split; [by apply ltb_leb|by apply leb_refl].
      + split; [by left|]. split; [by apply leb_refl|by apply not_ltb_leb]. }
  destruct (IH next) as (Hmem & Hle & Hall).
  { by destruct Hnext as [-> | ->]. }
  cbv zeta. split; [|split].
  - destruct Hmem as [->|Hmem]; [|right; by right].
    destruct Hnext as [->| ->]; [by left|right; by left].
  - by eapply leb_trans.
  - constructor; [by eapply leb_trans|done].
Qed.

Lemma Math_max_fold values highest :
  Forall is_number values → is_number highest →
  let result :=
    foldl (λ highest x,
             if (is_pos_zero x && is_neg_zero highest) || (highest <? x)%float
             then x else highest) highest values in
  (result = highest ∨ result ∈ values)
  ∧ (highest <=? result)%float = true
  ∧ Forall (λ t, (t <=? result)%float = true) values.
Proof.
  intros Hvalues. revert highest.
  induction Hvalues as [|x values Hx _ IH]; intros highest Hhighest; cbn [foldl].
  { split; [by left|]. split; [by apply leb_refl|constructor]. }
  set (next := if (is_pos_zero x && is_neg_zero highest) || (highest <? x)%float
               then x else highest).
  assert ((next = highest ∨ next = x) ∧ (highest <=? next)%float = true
          ∧ (x <=? next)%float = true) as (Hnext & Hnl & Hnx).
  { unfold next. destruct (is_pos_zero x && is_neg_zero highest) eqn:Hzeros; simpl.
    - apply andb_prop in Hzeros as [[Hzx _]%andb_prop [Hzl _]%andb_prop].
      split; [by right|]. split; [by apply zeros_leb|by apply leb_refl].
    - destruct (highest <? x)%float eqn:Hlt.
      + split; [by right|]. split; [by apply ltb_leb|by apply leb_refl].
      + split; [by left|]. split; [by apply leb_refl|by apply not_ltb_leb]. }
  destruct (IH next) as (Hmem & Hle & Hall).
  { by destruct Hnext as [-> | ->]. }
  cbv zeta. split; [|split].
  - destruct Hmem as [->|Hmem]; [|right; by right].
    destruct Hnext as [->| ->]; [by left|right; by left].
  - by eapply leb_trans.
  - constructor; [by eapply leb_trans|done].
Qed.

Lemma Math_min_bounds values :
  values ≠ [] → Forall is_number values →
  Math_min values ∈ values ∧ Forall (λ t, (Math_min values <=? t)%float = true) values.
Proof.
  intros Hne Hvalues. unfold Math_min. rewrite (existsb_is_nan _ Hvalues).
  destruct (Math_min_fold values infinity Hvalues eq_refl) as ([Heq|Hmem] & _ & Hall);
    [|done].
  split; [|done]. rewrite Heq in *. destruct values as [|x values]; [done|].
  apply Forall_cons in Hall as [->%infinity_leb _]. by left.
Qed.

Lemma Math_max_bounds values :
  values ≠ [] → Forall is_number values →
  Math_max values ∈ values ∧ Forall (λ t, (t <=? Math_max values)%float = true) values.
Proof.
  intros Hne Hvalues. unfold Math_max. rewrite (existsb_is_nan _ Hvalues).
  destruct (Math_max_fold values neg_infinity Hvalues eq_refl) as ([Heq|Hmem] & _ & Hall);
    [|done].
  split; [|done]. rewrite Heq in *. destruct values as [|x values]; [done|].
  apply Forall_cons in Hall as [->%leb_neg_infinity _]. by left.
Qed.

End Binary64Compare.

(** X8 ([calculateStatistics]). For samples that are numbers, one at least,
    the reported minimum and maximum are samples themselves, every sample
    lies between the two, and the loss the function returns is 0. *)
Theorem calculateStatistics_bounds times :
  times ≠ [] → Forall is_number times →
  ListTs.PingStatistics.min (ListTs.calculateStatistics times) ∈ times
  ∧ ListTs.PingStatistics.max (ListTs.calculateStatistics times) ∈ times
  ∧ Forall (λ t, (ListTs.PingStatistics.min (ListTs.calculateStatistics times) <=? t)%float
                 = true
                 ∧ (t <=? ListTs.PingStatistics.max (ListTs.calculateStatistics times))%float
                   = true) times
  ∧ ListTs.PingStatistics.loss (ListTs.calculateStatistics times) = 0%float.
Proof.
  intros Hne Hnum.
  destruct (Math_min_bounds times Hne Hnum) as [Hmin Hmins].
  destruct (Math_max_bounds times Hne Hnum) as [Hmax Hmaxs].
  destruct times as [|t times]; [done|]. cbn [ListTs.calculateStatistics
    ListTs.PingStatistics.min ListTs.PingStatistics.max ListTs.PingStatistics.loss].
  split; [done|]. split; [done|]. split; [|done].
  apply Forall_forall. intros x Hx. rewrite Forall_forall in Hmins, Hmaxs. auto.
Qed.


(** ** Sums and quotients that are exact *)

Section Binary64Unit.
Local Open Scope Z_scope.

Lemma add_zero_finite (x : number) : finite_pos x → (0 + x)%float = x.
Proof.
  intros (m & e & Hx). apply Prim2SF_inj. rewrite add_spec, Hx. reflexivity.
Qed.

Lemma div_eucl_exact (a b : Z) : 0 < b → Z.div_eucl (a * b) b = (a, 0).
Proof.
  intros Hb.
  pose proof (Z.div_mul a b ltac:(lia)) as Hd.
  pose proof (Z.mod_mul a b ltac:(lia)) as Hm.
  unfold Z.div, Z.modulo in Hd, Hm.
  destruct (Z.div_eucl (a * b) b) as [q r]. by subst.
Qed.

Lemma div_one_finite (x : number) : finite_pos x → (x / 1)%float = x.
Proof.
  intros (m & e & Hx). apply Prim2SF_inj. rewrite div_spec, Hx.
  pose proof (Prim2SF_valid x) as Hvalid. rewrite Hx in Hvalid.
  cbn [SpecFloat.valid_binary] in Hvalid.
  pose proof (bounded_canonical m e Hvalid) as (Hmin & Hdigits & Hnormal).
  assert (e <= 971) as Hmax.
  { unfold bounded in Hvalid. apply andb_prop in Hvalid as [_ He].
    apply Z.leb_le in He. exact He. }
  change (Prim2SF 1) with (S754_finite false 4503599627370496 (-52)).
  unfold SF64div, SFdiv, SFdiv_core_binary. cbn [xorb Zdigits2].
  change (Z.pos (digits2_pos 4503599627370496)) with 53.
  destruct (decide (e = -1074)) as [->|Hne].
  - assert (Z.min (fexp prec emax (Z.pos (digits2_pos m) + -1074 - (53 + -52)))
              (-1074 - -52) = -1074) as ->.
    { unfold fexp, emin, prec, emax. lia. }
    change (-1074 - -52 - -1074) with 52.
    cbv beta iota zeta. rewrite Z.shiftl_mul_pow2 by lia.
    change (2 ^ 52) with 4503599627370496.
    rewrite (div_eucl_exact (Z.pos m) 4503599627370496) by lia.
    change (new_location 4503599627370496 0) with loc_Exact.
    unfold binary_round_aux, shr_fexp. cbn [Zdigits2 shr_record_of_loc].
    assert (fexp prec emax (Z.pos (digits2_pos m) + -1074) - -1074 = 0) as ->.
    { unfold fexp, emin, prec, emax. lia. }
    cbn. 
    assert (fexp prec emax (Z.pos (digits2_pos m) + -1074) - -1074 = 0) as ->.
    { unfold fexp, emin, prec, emax. lia. }
    done.
  - specialize (Hnormal ltac:(lia)). rewrite Hnormal.
    assert (Z.min (fexp prec emax (53 + e - (53 + -52))) (e - -52) = e - 1) as ->.
    { unfold fexp, emin, prec, emax. lia. }
    replace (e - -52 - (e - 1)) with 53 by lia.
    cbv beta iota zeta. rewrite Z.shiftl_mul_pow2 by lia.
    replace (Z.pos m * 2 ^ 53) with (Z.pos m~0 * 4503599627370496) by lia.
    rewrite (div_eucl_exact (Z.pos m~0) 4503599627370496) by lia.
    change (new_location 4503599627370496 0) with loc_Exact.
    unfold binary_round_aux, shr_fexp. cbn [Zdigits2 shr_record_of_loc digits2_pos].
    assert (fexp prec emax (Z.pos (Pos.succ (digits2_pos m)) + (e - 1)) - (e - 1) = 1)
      as ->.
    { unfold fexp, emin, prec, emax. lia. }
    cbn [shr iter_pos shr_1 shr_m loc_of_shr_record shr_r shr_s orb round_nearest_even
         Zdigits2 shr_record_of_loc].
    replace (e - 1 + 1) with e by lia.
    assert (fexp prec emax (Z.pos (digits2_pos m) + e) - e = 0) as ->.
    { unfold fexp, emin, prec, emax. lia. }
    cbn [shr shr_m]. change (emax - prec) with 971.
    destruct (Z.leb_spec e 971); [done|lia].
Qed.

End Binary64Unit.

Lemma finite_pos_is_number (x : number) : finite_pos x → is_number x.
Proof. intros (m & e & Hx). apply is_number_Prim2SF. by rewrite Hx. Qed.

(** X9 ([calculateStatistics]). A single sample, finite and above zero, is
    its own minimum, maximum and average, with no deviation. *)
Theorem calculateStatistics_single (x : number) :
  finite_pos x →
  ListTs.calculateStatistics [x] = ListTs.PingStatistics.mk x x x 0%float 0%float.
Proof.
  intros Hx. pose proof (finite_pos_is_number x Hx) as Hnum.
  destruct (Math_min_bounds [x]) as [Hmin%list_elem_of_singleton _]; [done|by constructor|].
  destruct (Math_max_bounds [x]) as [Hmax%list_elem_of_singleton _]; [done|by constructor|].
  unfold ListTs.calculateStatistics. rewrite Hmin, Hmax. cbn [foldl length].
  change (nat2num 1) with 1%float.
  rewrite (add_zero_finite x Hx), (div_one_finite x Hx), (sub_diag_finite x Hx).
  reflexivity.
Qed.


(** ** The two ways of removing duplicates, side by side *)

Section DedupExtra.

Lemma Map_fold_keys urls (m : list (string * UrlEntry.t)) :
  (foldl (λ m kv, Map_set m kv.1 kv.2) m (url_entries urls)).*1
  = m.*1 ++ (UrlEntry.url <$> filter_unseen (list_to_set m.*1) urls).
Proof.
  revert m. induction urls as [|item urls IH]; intros m; csimpl.
  - by rewrite app_nil_r.
  - rewrite IH. case_decide as Hin.
    + apply elem_of_list_to_set in Hin. by rewrite (Map_set_keys m _ _ Hin).
    + rewrite elem_of_list_to_set in Hin. rewrite (Map_set_fresh m _ _ Hin).
      rewrite fmap_app. csimpl. rewrite <- app_assoc. csimpl.
      replace (list_to_set (m.*1 ++ [UrlEntry.url item]) : gset string)
        with ({[UrlEntry.url item]} ∪ list_to_set m.*1 : gset string); [done|].
      apply leibniz_equiv. rewrite list_to_set_app. set_solver.
Qed.

Lemma uniqueUrls_Map_urls urls :
  UrlEntry.url <$> uniqueUrls_Map urls = UrlEntry.url <$> uniqueUrls_Set urls.
Proof.
  unfold uniqueUrls_Map, uniqueUrls_Set, Map_values, Map_new.
  pose proof (Map_fold_invariant urls [] (NoDup_nil_2) (Forall_nil_2 _)) as (_ & Hkeyed & _).
  pose proof (Map_fold_keys urls []) as Hkeys. csimpl in *.
  unfold url_entries in *. rewrite <- Hkeys.
  clear Hkeys. induction Hkeyed as [|[k v] m Hkv _ IH]; csimpl; [done|].
  simpl in Hkv. by rewrite IH, Hkv.
Qed.
(** X2 ([runAdvancedPingTest], the [Map]). The [Map] keeps the same addresses
    in the same order as the [Set] filter of the other scripts, as many of
    them, but for each address the entry that comes last with it. *)
Theorem uniqueUrls_Map_addresses urls :
  UrlEntry.url <$> uniqueUrls_Map urls = UrlEntry.url <$> uniqueUrls_Set urls
  ∧ length (uniqueUrls_Map urls) = length (uniqueUrls_Set urls)
  ∧ (∀ item, item ∈ uniqueUrls_Map urls
             → last_with_url (UrlEntry.url item) urls = Some item).
Proof.
  split; [apply uniqueUrls_Map_urls|]. split.
  - by rewrite <- (length_fmap UrlEntry.url), uniqueUrls_Map_urls, length_fmap.
  - apply (uniqueUrls_Map_last_occurrence urls).
Qed.

End DedupExtra.

(** ** Reading the host and the port off an address *)

Section Patterns.
Variable URL_parse : string → option URL.t.
Import ListTs.
Local Abbreviation extractHostAndPort := (ListTs.extractHostAndPort URL_parse).

Lemma span_app p a b :
  chars_all p a → stops p b → span p (a +:+ b) = (a, b).
Proof.
  intros Ha Hb. induction a as [|c a IH]; simpl.
  - destruct b as [|c b]; [done|]. simpl in *. by rewrite Hb.
  - apply Forall_cons in Ha as [-> Ha]. by rewrite (IH Ha).
Qed.

Lemma span_spec p s taken remaining :
  span p s = (taken, remaining) →
  s = taken +:+ remaining ∧ chars_all p taken ∧ stops p remaining.
Proof.
  revert taken remaining. induction s as [|c s IH]; simpl; intros taken remaining.
  - intros [= <- <-]. repeat split. constructor.
  - destruct (p c) eqn:Hc.
    + destruct (span p s) as [t r]. intros [= <- <-].
      destruct (IH _ _ eq_refl) as (-> & Ht & Hr). repeat split; [|done].
      by constructor.
    + intros [= <- <-]. repeat split; [constructor|done].
Qed.

Lemma strip_prefix_spec pre s rest :
  strip_prefix pre s = Some rest ↔ s = pre +:+ rest.
Proof.
  revert s. induction pre as [|a pre IH]; intros s; simpl.
  - split; [by intros [= ->]|by intros ->].
  - destruct s as [|b s]; [done|].
    destruct (Ascii.eqb_spec a b) as [->|Hab].
    + rewrite IH. split; [by intros ->|by intros [= ->]].
    + split; [done|]. intros [= -> _]. done.
Qed.

Lemma after_scheme_spec urlString rest :
  after_scheme urlString = Some rest
  ↔ urlString = "https://" +:+ rest ∨ urlString = "http://" +:+ rest.
Proof.
  unfold after_scheme. split.
  - destruct (strip_prefix "http" urlString) as [r|] eqn:Hr; [|done].
    cbn [mbind option_bind].
    apply strip_prefix_spec in Hr. subst urlString.
    destruct (strip_prefix "s://" r) as [r'|] eqn:Hr'.
    + apply strip_prefix_spec in Hr'. subst r. intros [= ->]. by left.
    + intros Hr%strip_prefix_spec. subst r. by right.
  - intros [->| ->]; [done|]. csimpl.
    destruct rest as [|c rest]; [done|]. done.
Qed.

Lemma startsWith_https urlString rest :
  after_scheme urlString = Some rest →
  startsWith urlString "https" = bool_decide (urlString = "https://" +:+ rest).
Proof.
  intros [->| ->]%after_scheme_spec.
  - by rewrite bool_decide_eq_true_2.
  - by rewrite bool_decide_eq_false_2.
Qed.

Lemma is_empty_true s : is_empty s = true ↔ s = "".
Proof. by destruct s. Qed.

Lemma is_empty_false s : is_empty s = false ↔ s ≠ "".
Proof. by destruct s. Qed.

Lemma match_host_port_spec urlString host digits :
  match_host_port urlString = Some (host, digits)
  ↔ ∃ rest remaining,
      after_scheme urlString = Some rest
      ∧ span host_char rest = (host, remaining)
      ∧ host ≠ ""
      ∧ digits = match remaining with
                 | String ":" more =>
                     let '(ds, _) := span is_digit more in
                     if is_empty ds then None else Some ds
                 | _ => None
                 end.
Proof.
  unfold match_host_port. split.
  - destruct (after_scheme urlString) as [rest|]; [|done]. cbn [mbind option_bind].
    destruct (span host_char rest) as [h remaining] eqn:Hspan.
    destruct (is_empty h) eqn:Hh; [done|]. intros [= <- <-].
    exists rest, remaining. by apply is_empty_false in Hh.
  - intros (rest & remaining & -> & Hspan & Hh & ->). cbn [mbind option_bind].
    rewrite Hspan. apply is_empty_false in Hh. by rewrite Hh.
Qed.

Lemma match_host_of_match_host_port urlString host digits :
  match_host_port urlString = Some (host, digits) → match_host urlString = Some host.
Proof.
  intros (rest & remaining & Hrest & Hspan & Hh & _)%match_host_port_spec.
  unfold match_host. rewrite Hrest. cbn [mbind option_bind]. rewrite Hspan.
  apply is_empty_false in Hh. by rewrite Hh.
Qed.

(** X7 ([extractHostname], [extractHostAndPort]). Whenever the extractor of
    the multi-attempt analysis finds a host, the extractor of the quick
    scripts finds the same one. *)
Theorem extractHostname_agrees urlString extracted :
  extractHostAndPort urlString = Returned extracted →
  extractHostname URL_parse urlString = HostAndPort.hostname extracted.
Proof.
  unfold ListTs.extractHostAndPort, extractHostname.
  destruct (URL_parse urlString) as [url|]; [by intros [= <-]|].
  destruct (match_host_port urlString) as [[host digits]|] eqn:Hmatch; [|done].
  rewrite (match_host_of_match_host_port _ _ _ Hmatch).
  destruct (is_empty host); [done|]. by intros [= <-].
Qed.

Lemma match_host_port_None urlString :
  match_host_port urlString = None
  ↔ ¬ ∃ c rest, host_char c = true
       ∧ (urlString = "https://" +:+ String c rest
          ∨ urlString = "http://" +:+ String c rest).
Proof.
  split.
  - intros Hnone (c & rest & Hc & Hurl). apply after_scheme_spec in Hurl.
    unfold match_host_port in Hnone. rewrite Hurl in Hnone.
    cbn [mbind option_bind] in Hnone. simpl in Hnone. rewrite Hc in Hnone.
    by destruct (span host_char rest).
  - intros Hno. destruct (match_host_port urlString) as [[host digits]|] eqn:Hmatch; [|done].
    exfalso. apply Hno.
    apply match_host_port_spec in Hmatch as (rest & remaining & Hrest & Hspan & Hh & _).
    apply span_spec in Hspan as (-> & Hall & _).
    destruct host as [|c host]; [done|]. apply Forall_cons in Hall as [Hc _].
    exists c, (host +:+ remaining). split; [done|]. by apply after_scheme_spec.
Qed.

Lemma extractHostAndPort_error urlString error :
  extractHostAndPort urlString = Raised error → error = ErrorObject "Invalid URL format".
Proof.
  unfold ListTs.extractHostAndPort.
  destruct (URL_parse urlString) as [url|]; [done|].
  destruct (match_host_port urlString) as [[host digits]|]; [|by intros [= <-]].
  destruct (is_empty host); [by intros [= <-]|done].
Qed.

(** X6 ([extractHostAndPort]). The only error raised is
    [Error('Invalid URL format')], and it is raised exactly for the
    addresses that [new URL] rejects and that do not begin with [http://]
    or [https://] followed by a character other than [:] and [/]. *)
Theorem extractHostAndPort_raises urlString :
  (∀ error, extractHostAndPort urlString = Raised error
            → error = ErrorObject "Invalid URL format")
  ∧ ((∃ error, extractHostAndPort urlString = Raised error)
     ↔ URL_parse urlString = None
       ∧ ¬ ∃ c rest, host_char c = true
            ∧ (urlString = "https://" +:+ String c rest
               ∨ urlString = "http://" +:+ String c rest)).
Proof.
  rewrite <- match_host_port_None. unfold ListTs.extractHostAndPort.
  destruct (URL_parse urlString) as [url|].
  { split; [done|]. split; [by intros [? ?]|by intros [? _]]. }
  destruct (match_host_port urlString) as [[host digits]|] eqn:Hmatch.
  - apply match_host_port_spec in Hmatch as (_ & _ & _ & _ & Hh%is_empty_false & _).
    rewrite Hh. split; [done|]. split; [by intros [? ?]|by intros [_ ?]].
  - split; [by intros error [= <-]|]. split; [done|]. by eexists.
Qed.

(** X5 ([extractHostAndPort], fallback). For an address [new URL] rejects,
    the host found is the longest run of characters other than [:] and [/]
    after the scheme; it is not empty, the address is marked as https
    exactly when its scheme is, and a port is always given. *)
Theorem extractHostAndPort_fallback_shape urlString extracted :
  URL_parse urlString = None →
  extractHostAndPort urlString = Returned extracted →
  HostAndPort.hostname extracted ≠ ""
  ∧ chars_all host_char (HostAndPort.hostname extracted)
  ∧ (∃ rest,
       urlString
       = (if HostAndPort.isHttps extracted then "https://" else "http://")
           +:+ HostAndPort.hostname extracted +:+ rest
       ∧ stops host_char rest)
  ∧ (∃ port, HostAndPort.port extracted = Some port).
Proof.
  intros Hparse. unfold ListTs.extractHostAndPort. rewrite Hparse.
  destruct (match_host_port urlString) as [[host digits]|] eqn:Hmatch; [|done].
  apply match_host_port_spec in Hmatch as (rest & remaining & Hrest & Hspan & Hh & _).
  rewrite (proj2 (is_empty_false _) Hh), (startsWith_https _ _ Hrest).
  intros [= <-]. cbn. apply span_spec in Hspan as (-> & Hall & Hstop).
  split; [done|]. split; [done|]. split; [|by eexists].
  exists remaining. split; [|done].
  apply after_scheme_spec in Hrest as [->| ->].
  - by rewrite bool_decide_eq_true_2.
  - by rewrite bool_decide_eq_false_2.
Qed.

Lemma append_empty_r s : s +:+ "" = s.
Proof.
  induction s as [|c s IH]; [done|].
  change (String c (s +:+ "") = String c s). by rewrite IH.
Qed.

Lemma digit_not_space c : is_digit c = true → is_space c = false.
Proof.
  unfold is_digit, is_space. cbv zeta.
  destruct (Nat.leb_spec 48 (nat_of_ascii c)), (Nat.leb_spec (nat_of_ascii c) 57); try done.
  intros _. destruct (Nat.leb_spec 9 (nat_of_ascii c)),
    (Nat.leb_spec (nat_of_ascii c) 13), (Nat.eqb_spec (nat_of_ascii c) 32); try done; lia.
Qed.

Lemma take_sign_digit c s : is_digit c = true → take_sign (String c s) = (false, String c s).
Proof. by destruct c as [[] [] [] [] [] [] [] []]. Qed.

Lemma parseInt_digits digits :
  digits ≠ "" → chars_all is_digit digits → parseInt digits = Z2num (digits_value digits).
Proof.
  intros Hne Hall. destruct digits as [|c digits]; [done|].
  pose proof Hall as [Hc _]%Forall_cons. unfold parseInt.
  assert (span is_space (String c digits) = ("", String c digits)) as ->.
  { simpl. by rewrite (digit_not_space c Hc). }
  rewrite (take_sign_digit c digits Hc).
  pose proof (span_app is_digit (String c digits) "" Hall I) as Hspan.
  rewrite append_empty_r in Hspan. by rewrite Hspan.
Qed.

(** X4 ([extractHostAndPort], fallback). An address [new URL] rejects that
    is written scheme, host, optional [:] and port digits, then nothing or
    a path, is read back into its parts: the host, the number the digits
    denote (443 or 80 by the scheme without them), and the scheme. *)
Theorem extractHostAndPort_fallback https host port tail :
  URL_parse (address https host port tail) = None →
  host ≠ "" → chars_all host_char host →
  (∀ digits, port = Some digits → digits ≠ "" ∧ chars_all is_digit digits) →
  starts_path tail →
  extractHostAndPort (address https host port tail)
  = Returned
      (HostAndPort.mk host
         (Some match port with
               | Some digits => Z2num (digits_value digits)
               | None => (if https then 443 else 80)%float
               end)
         https).
Proof.
  intros Hparse Hhost Hall Hport Htail. unfold ListTs.extractHostAndPort. rewrite Hparse.
  set (remaining := match port with Some digits => ":" +:+ digits | None => "" end +:+ tail).
  assert (stops host_char remaining) as Hstop.
  { unfold remaining. destruct port; [done|]. destruct tail; [done|]. simpl in *. by subst. }
  assert (after_scheme (address https host port tail) = Some (host +:+ remaining)) as Hrest.
  { apply after_scheme_spec. unfold address. by destruct https; [left|right]. }
  assert (match_host_port (address https host port tail)
          = Some (host, port)) as ->.
  { apply match_host_port_spec. exists (host +:+ remaining), remaining.
    split; [done|]. split; [by apply span_app|]. split; [done|].
    unfold remaining. destruct port as [digits|].
    - destruct (Hport digits eq_refl) as [Hne Hdigits].
      change (Some digits = let '(ds, _) := span is_digit (digits +:+ tail) in
                            if is_empty ds then None else Some ds).
      rewrite (span_app is_digit digits tail Hdigits).
      + apply is_empty_false in Hne. by rewrite Hne.
      + destruct tail; [done|]. simpl in *. by subst.
    - destruct tail as [|c tail]; [done|]. simpl in *. by subst. }
  rewrite (proj2 (is_empty_false _) Hhost), (startsWith_https _ _ Hrest).
  do 2 f_equal.
  - destruct port as [digits|].
    + destruct (Hport digits eq_refl) as [Hne Hdigits]. by rewrite parseInt_digits.
    + f_equal. unfold address. destruct https; [by rewrite bool_decide_eq_true_2|].
      by rewrite bool_decide_eq_false_2.
  - unfold address. destruct https; [by rewrite bool_decide_eq_true_2|].
    by rewrite bool_decide_eq_false_2.
Qed.

(** X3 ([extractHostAndPort], parsed). For an address [new URL] accepts, the
    host is the parsed one, the port is the number of the explicit port
    and, without one, 443 for [https:] and 80 for every other protocol,
    [ftp:] included. *)
Theorem extractHostAndPort_parsed urlString url :
  URL_parse urlString = Some url →
  ∃ port,
    extractHostAndPort urlString
    = Returned (HostAndPort.mk (URL.hostname url) (Some port)
                  (bool_decide (URL.protocol url = "https:")))
    ∧ (URL.port url = ""
       → port = if bool_decide (URL.protocol url = "https:")
                then 443%float else 80%float)
    ∧ (URL.port url ≠ "" → chars_all is_digit (URL.port url)
       → port = Z2num (digits_value (URL.port url))).
Proof.
  intros Hparse. unfold ListTs.extractHostAndPort. rewrite Hparse.
  eexists. split; [reflexivity|]. split.
  - intros ->. by destruct (bool_decide _).
  - intros Hne Hdigits. rewrite (proj2 (is_empty_false _) Hne).
    by apply parseInt_digits.
Qed.

End Patterns.

(** ** The records of the attempts *)

Section AdvancedPingMore.
Import ListTs.
Variable URL_parse : string → option URL.t.
Variable Number_digits : number → string.
Local Abbreviation extractHostAndPort := (ListTs.extractHostAndPort URL_parse).
Local Abbreviation ping_attempt := (ListTs.ping_attempt Number_digits).
Local Abbreviation ping_attempts := (ListTs.ping_attempts Number_digits).
Local Abbreviation advancedPingUrl := (ListTs.advancedPingUrl URL_parse Number_digits).

Lemma dns_step env config hostname :
  (if PingConfig.enableDnsLookup config
   then performDnsLookup env hostname
   else mret (DnsInfo.mk None hostname 0%Z None))
  = Returned (if PingConfig.enableDnsLookup config
              then dns_record env hostname
              else DnsInfo.mk None hostname 0%Z None).
Proof.
  destruct (PingConfig.enableDnsLookup config); [|done].
  unfold ListTs.performDnsLookup, dns_record. by destruct (Env.dns_lookup env hostname).
Qed.

Lemma ping_attempt_times_step env config hostname raw times i :
  ∃ r,
    RawPing.attempt r = i + 1
    ∧ ping_attempt env config hostname (raw, times) i
      = (raw ++ [r],
         times ++ (RawPing.time <$> filter (λ r, RawPing.alive r = true) [r])).
Proof.
  unfold ListTs.ping_attempt.
  destruct (Env.ping_probe env hostname _ i) as [[alive time]|error]; simpl.
  - exists (RawPing.mk alive
              match time with
              | None => Z2num (Env.ping_elapsed env hostname i)
              | Some time => parseFloat (Number_toString Number_digits time)
              end (i + 1)).
    split; [done|]. destruct alive.
    + rewrite filter_cons_True by done. by rewrite filter_nil.
    + rewrite filter_cons_False by done. by rewrite filter_nil, app_nil_r.
  - exists (RawPing.mk false (PingConfig.timeout config) (i + 1)).
    split; [done|]. rewrite filter_cons_False by done.
    by rewrite filter_nil, app_nil_r.
Qed.

Lemma ping_attempt_times env config hostname (indices : list nat) raw times :
  ∃ recorded,
    foldl (ping_attempt env config hostname) (raw, times) indices
    = (raw ++ recorded,
       times ++ (RawPing.time <$> filter (λ r, RawPing.alive r = true) recorded))
    ∧ RawPing.attempt <$> recorded = (λ i, i + 1) <$> indices.
Proof.
  revert raw times. induction indices as [|i rest IH]; intros raw times; cbn [foldl].
  - exists []. by rewrite filter_nil, !app_nil_r.
  - destruct (ping_attempt_times_step env config hostname raw times i) as (r & Hr & ->).
    edestruct IH as (recorded & -> & Hrec).
    exists (r :: recorded). rewrite <- !app_assoc. split.
    + f_equal. f_equal. rewrite <- fmap_app. f_equal.
      by rewrite <- filter_app.
    + csimpl. by rewrite Hr, Hrec.
Qed.

(** X10 ([advancedPingUrl]). For an endpoint whose host was extracted, the
    attempts are recorded under the numbers 1, 2, ... up to the configured
    count, the successful pings are the records marked alive, and minimum,
    maximum, average and deviation are the statistics of the times of
    exactly those records. *)
Theorem advancedPingUrl_statistics env entry config host :
  extractHostAndPort (UrlEntry.url entry) = Returned host →
  ∃ result times,
    advancedPingUrl env entry config = Returned result
    ∧ times = RawPing.time
                <$> filter (λ r, RawPing.alive r = true) (PingResult.rawPingResults result)
    ∧ PingResult.successfulPings result = length times
    ∧ PingStatistics.min (PingResult.statistics result)
      = PingStatistics.min (calculateStatistics times)
    ∧ PingStatistics.max (PingResult.statistics result)
      = PingStatistics.max (calculateStatistics times)
    ∧ PingStatistics.avg (PingResult.statistics result)
      = PingStatistics.avg (calculateStatistics times)
    ∧ PingStatistics.stddev (PingResult.statistics result)
      = PingStatistics.stddev (calculateStatistics times)
    ∧ RawPing.attempt <$> PingResult.rawPingResults result
      = seq 1 (PingConfig.attempts config).
Proof.
  intros Hhost. unfold ListTs.advancedPingUrl. rewrite Hhost. cbn [mbind outcome_bind].
  rewrite dns_step. cbn [mbind outcome_bind]. unfold ListTs.ping_attempts.
  destruct (ping_attempt_times env config (HostAndPort.hostname host)
              (seq 0 (PingConfig.attempts config)) [] []) as (recorded & -> & Hnum).
  cbn [app]. eexists _, _. split; [reflexivity|]. cbn.
  split; [reflexivity|]. split_and!; try done.
  rewrite Hnum. rewrite <- (fmap_S_seq). apply list_fmap_ext. intros; lia.
Qed.

(** X11 ([advancedPingUrl]). With zero attempts configured, an endpoint
    whose host was extracted is not probed and is reported fully reachable
    ([0 === 0]), with a loss that is [NaN] (0 / 0). *)
Theorem advancedPingUrl_no_attempts env entry config host :
  extractHostAndPort (UrlEntry.url entry) = Returned host →
  PingConfig.attempts config = 0 →
  ∃ result,
    advancedPingUrl env entry config = Returned result
    ∧ PingResult.status result = UP
    ∧ PingResult.successfulPings result = 0
    ∧ PingResult.rawPingResults result = []
    ∧ is_nan (PingStatistics.loss (PingResult.statistics result)) = true
    ∧ PingStatistics.avg (PingResult.statistics result) = 0%float.
Proof.
  intros Hhost Hzero. unfold ListTs.advancedPingUrl. rewrite Hhost.
  cbn [mbind outcome_bind]. rewrite dns_step. cbn [mbind outcome_bind].
  unfold ListTs.ping_attempts. rewrite Hzero. cbn.
  eexists. split; [reflexivity|]. cbn. by split_and!.
Qed.

End AdvancedPingMore.

(** ** The results by network *)

Section Networks.
Import ListTs.

Lemma Record_push_fresh {V} (record : list (string * list V)) key value :
  key ∉ record.*1 → Record_push record key value = record ++ [(key, [value])].
Proof.
  induction record as [|[k values] record IH]; csimpl; [done|].
  intros [Hk Hrest]%not_elem_of_cons. rewrite decide_False by done. by rewrite IH.
Qed.

Lemma grouped_other keys done result :
  network_of result ∉ keys → grouped keys (done ++ [result]) = grouped keys done.
Proof.
  intros Hnot. unfold grouped. apply list_fmap_ext. intros i k Hk. f_equal.
  rewrite filter_app, filter_cons_False, filter_nil, app_nil_r; [done|].
  intros <-. apply Hnot. by eapply list_elem_of_lookup_2.
Qed.

Lemma Record_push_present keys done result :
  NoDup keys → network_of result ∈ keys →
  Record_push (grouped keys done) (network_of result) result
  = grouped keys (done ++ [result]).
Proof.
  induction 1 as [|k keys Hk Hnodup IH]; [by intros []%elem_of_nil|].
  intros Hin. change (grouped (k :: keys) ?l)
    with ((k, filter (λ r, network_of r = k) l) :: grouped keys l).
  cbn [Record_push]. destruct (decide (k = network_of result)) as [->|Hne].
  - rewrite grouped_other by done.
    by rewrite filter_app, (filter_cons_True _ result), filter_nil.
  - apply elem_of_cons in Hin as [?|Hin]; [done|]. rewrite IH by done.
    by rewrite filter_app, filter_cons_False, filter_nil, app_nil_r.
Qed.

Lemma Record_push_grouped keys done result :
  NoDup keys →
  Forall (λ r, network_of r ∈ keys) done →
  Record_push (grouped keys done) (network_of result) result
  = grouped (if decide (network_of result ∈ keys) then keys
             else keys ++ [network_of result]) (done ++ [result]).
Proof.
  intros Hnodup Hdone. case_decide as Hin; [by apply Record_push_present|].
  rewrite Record_push_fresh.
  - unfold grouped at 2. rewrite fmap_app. fold (grouped keys (done ++ [result])).
    rewrite grouped_other by done. csimpl. do 3 f_equal.
    rewrite filter_app, filter_cons_True, filter_nil by done.
    replace (filter _ done) with (@nil PingResult.t); [done|].
    symmetry. apply nil_length_inv, filter_length_none.
    eapply Forall_impl; [exact Hdone|]. intros r Hr Heq. apply Hin. by rewrite <- Heq.
  - unfold grouped. by rewrite <- list_fmap_compose, list_fmap_id.
Qed.

Lemma in_order_of_appearance_fold (seen keys : list string) :
  NoDup seen →
  let result := foldl (λ seen k, if decide (k ∈ seen) then seen else seen ++ [k]) seen keys in
  NoDup result ∧ ∀ k, k ∈ result ↔ k ∈ seen ∨ k ∈ keys.
Proof.
  revert seen. induction keys as [|k keys IH]; intros seen Hnodup; cbn [foldl].
  - split; [done|]. intros k. rewrite elem_of_nil. naive_solver.
  - destruct (decide (k ∈ seen)) as [Hin|Hin].
    + destruct (IH seen Hnodup) as [Hnd Helem]. split; [done|]. intros k'.
      rewrite Helem, elem_of_cons. naive_solver.
    + destruct (IH (seen ++ [k])) as [Hnd Helem].
      { apply NoDup_app. split; [done|]. split; [|apply NoDup_singleton].
        intros x Hx ->%list_elem_of_singleton. done. }
      split; [done|]. intros k'.
      rewrite Helem, elem_of_app, list_elem_of_singleton, elem_of_cons. naive_solver.
Qed.

Lemma categorize_fold keys done rest :
  NoDup keys →
  Forall (λ r, network_of r ∈ keys) done →
  foldl (λ categories result, Record_push categories (network_of result) result)
    (grouped keys done) rest
  = grouped (foldl (λ seen k, if decide (k ∈ seen) then seen else seen ++ [k]) keys
               (network_of <$> rest)) (done ++ rest).
Proof.
  revert keys done. induction rest as [|result rest IH]; intros keys done Hnodup Hdone.
  - by rewrite app_nil_r.
  - cbn [foldl fmap list_fmap]. rewrite Record_push_grouped by done.
    rewrite IH.
    + by rewrite <- app_assoc.
    + case_decide; [done|]. apply NoDup_app. split; [done|].
      split; [|apply NoDup_singleton]. by intros x Hx ->%list_elem_of_singleton.
    + apply Forall_app. split.
      * eapply Forall_impl; [exact Hdone|]. intros r Hr. case_decide; [done|].
        apply elem_of_app. by left.
      * apply Forall_singleton. case_decide; [done|]. apply elem_of_app. right.
        by apply list_elem_of_singleton.
Qed.

Lemma categorizeByNetwork_grouped results :
  categorizeByNetwork results
  = grouped (in_order_of_appearance (network_of <$> results)) results.
Proof. apply (categorize_fold [] [] results); constructor. Qed.

Lemma grouped_concat keys results :
  NoDup keys → Forall (λ r, network_of r ∈ keys) results →
  concat (grouped keys results).*2 ≡ₚ results.
Proof.
  intros Hnodup. induction results as [|r results IH] using rev_ind; intros Hall.
  - unfold grouped. induction keys as [|k keys IHk]; [done|]. csimpl.
    apply NoDup_cons in Hnodup as [_ Hnodup]. by apply IHk.
  - apply Forall_app in Hall as [Hall [Hr _]%Forall_cons].
    rewrite <- (Record_push_present keys results r Hnodup Hr).
    rewrite <- (IH Hall) at 2. clear IH Hall.
    generalize (grouped keys results). intros record.
    assert (∀ key, concat (Record_push record key r).*2 ≡ₚ concat record.*2 ++ [r]) as H.
    { intros key. induction record as [|[k values] record IHr]; csimpl; [done|].
      case_decide; csimpl.
      - rewrite <- !app_assoc. f_equiv. apply Permutation_app_comm.
      - by rewrite IHr, app_assoc. }
    apply H.
Qed.

Lemma appearing_keys (keys : list string) :
  NoDup (in_order_of_appearance keys)
  ∧ ∀ k, k ∈ in_order_of_appearance keys ↔ k ∈ keys.
Proof.
  destruct (in_order_of_appearance_fold [] keys (NoDup_nil_2)) as [Hnodup Helem].
  split; [done|]. intros k. rewrite (Helem k), elem_of_nil. naive_solver.
Qed.

Lemma categorizeByNetwork_keys results :
  (categorizeByNetwork results).*1 = in_order_of_appearance (network_of <$> results).
Proof.
  rewrite categorizeByNetwork_grouped. unfold grouped.
  by rewrite <- list_fmap_compose, list_fmap_id.
Qed.

Lemma categorizeByNetwork_sites results subnet sites :
  (subnet, sites) ∈ categorizeByNetwork results
  ↔ sites = filter (λ r, network_of r = subnet) results ∧ sites ≠ [].
Proof.
  destruct (appearing_keys (network_of <$> results)) as [_ Helem].
  rewrite categorizeByNetwork_grouped. unfold grouped. rewrite list_elem_of_fmap. split.
  - intros (k & [= -> ->] & Hk). split; [done|].
    apply Helem, list_elem_of_fmap in Hk as (r & -> & Hr).
    intros Hnil. assert (r ∈ filter (λ r', network_of r' = network_of r) results) as Hin.
    { by apply list_elem_of_filter. }
    rewrite Hnil in Hin. by apply elem_of_nil in Hin.
  - intros [-> Hne]. exists subnet. split; [done|]. apply Helem.
    destruct (filter _ results) as [|r rs] eqn:Hf; [done|].
    assert (r ∈ filter (λ r', network_of r' = subnet) results) as Hin.
    { rewrite Hf. by left. }
    apply list_elem_of_filter in Hin as [<- Hin]. by apply list_elem_of_fmap_2.
Qed.

(** X16 ([categorizeByNetwork]). The categories have distinct keys, in the
    order in which the keys first appear among the results; the sites
    under a key are the results of that key, in their order, and no
    category is empty: together the categories hold every result once. *)
Theorem categorizeByNetwork_groups results :
  NoDup (categorizeByNetwork results).*1
  ∧ (∀ subnet sites,
       (subnet, sites) ∈ categorizeByNetwork results
       ↔ sites = filter (λ r, network_of r = subnet) results ∧ sites ≠ [])
  ∧ concat (categorizeByNetwork results).*2 ≡ₚ results
  ∧ (categorizeByNetwork results).*1
    = in_order_of_appearance (network_of <$> results).
Proof.
  destruct (appearing_keys (network_of <$> results)) as [Hnodup Helem].
  split; [by rewrite categorizeByNetwork_keys|].
  split; [apply categorizeByNetwork_sites|]. split; [|apply categorizeByNetwork_keys].
  rewrite categorizeByNetwork_grouped. apply grouped_concat; [done|].
  apply Forall_forall. intros r Hr. by apply Helem, list_elem_of_fmap_2.
Qed.

End Networks.

Section Subnets.
Import ListTs.

Lemma split_dotless a : dotless a → split "." a = [a].
Proof.
  induction a as [|c a IH]; [done|]. intros [Hc Ha]%Forall_cons. cbn [split].
  destruct (Ascii.eqb_spec c ".") as [->|_]; [done|]. by rewrite (IH Ha).
Qed.

Lemma split_dotted a rest :
  dotless a → split "." (a +:+ "." +:+ rest) = a :: split "." rest.
Proof.
  induction a as [|c a IH]; [done|]. intros [Hc Ha]%Forall_cons.
  change (String c a +:+ "." +:+ rest) with (String c (a +:+ "." +:+ rest)).
  cbn [split]. destruct (Ascii.eqb_spec c ".") as [->|_]; [done|]. by rewrite (IH Ha).
Qed.

Lemma chars_append a b :
  String.list_ascii_of_string (a +:+ b)
  = String.list_ascii_of_string a ++ String.list_ascii_of_string b.
Proof.
  induction a as [|c a IH]; [done|].
  change (String c a +:+ b) with (String c (a +:+ b)). simpl. by rewrite IH.
Qed.

Lemma subnet_of_not_Unknown ip : subnet_of ip ≠ "Unknown".
Proof.
  unfold subnet_of. cbv zeta. intros Heq.
  apply (f_equal String.list_ascii_of_string) in Heq.
  rewrite chars_append in Heq.
  assert ("."%char ∈ String.list_ascii_of_string "Unknown") as Hin.
  { rewrite <- Heq. apply elem_of_app. right. by left. }
  simpl in Hin. repeat (apply elem_of_cons in Hin as [?|Hin]; [done|]).
  by apply elem_of_nil in Hin.
Qed.

(** X17 ([categorizeByNetwork], the key). A result is filed under
    ['Unknown'] exactly when it has no resolved address or an empty one.
    An address of four dot-separated parts is filed under its first three
    parts and [x]; an address without a dot, as the IPv6 ones are, under
    the address followed by [.undefined.undefined.x]. *)
Theorem network_of_address result :
  (network_of result = "Unknown"
   ↔ DnsInfo.ip (PingResult.dnsInfo result) = None
     ∨ DnsInfo.ip (PingResult.dnsInfo result) = Some "")
  ∧ (∀ a b c d,
       DnsInfo.ip (PingResult.dnsInfo result)
       = Some (a +:+ "." +:+ b +:+ "." +:+ c +:+ "." +:+ d)
       → dotless a → dotless b → dotless c
       → network_of result = a +:+ "." +:+ b +:+ "." +:+ c +:+ ".x")
  ∧ (∀ ip,
       DnsInfo.ip (PingResult.dnsInfo result) = Some ip
       → ip ≠ "" → dotless ip
       → network_of result = ip +:+ ".undefined.undefined.x").
Proof.
  unfold network_of. split; [|split].
  - destruct (DnsInfo.ip _) as [[|c ip]|]; [naive_solver| |naive_solver].
    cbn [is_empty]. split; [by intros ?%subnet_of_not_Unknown|by intros [|]].
  - intros a b c d -> Ha Hb Hc.
    assert (is_empty (a +:+ "." +:+ b +:+ "." +:+ c +:+ "." +:+ d) = false) as ->.
    { by destruct a. }
    unfold subnet_of. by rewrite !split_dotted by done.
  - intros ip -> Hne Hip. destruct ip as [|c ip]; [done|]. cbn [is_empty].
    unfold subnet_of. by rewrite split_dotless.
Qed.

End Subnets.

(** ** Sorting by any comparison *)

Section SortingBy.
Context {A R : Type} (is_positive : R → bool) (comparefn : A → A → R).
Context (rel : A → A → Prop) (ok : A → Prop).
Hypothesis stays : ∀ x y, ok x → ok y → is_positive (comparefn x y) = false → rel x y.
Hypothesis passes : ∀ x y, is_positive (comparefn x y) = true → rel y x.

Lemma sort_insert_Sorted_by (x : A) (items : list A) :
  ok x → Forall ok items → Sorted rel items →
  Sorted rel (sort_insert is_positive comparefn x items).
Proof.
  intros Hx Hok Hsorted. induction Hsorted as [|y rest Hsorted IH Hhd]; simpl.
  { by repeat constructor. }
  apply Forall_cons in Hok as [Hy Hok].
  destruct (is_positive (comparefn x y)) eqn:Hxy.
  - constructor; [by apply IH|]. destruct rest as [|z rest]; simpl.
    + constructor. by apply passes.
    + destruct (is_positive (comparefn x z)); constructor; [by inversion Hhd|].
      by apply passes.
  - constructor; [by constructor|]. constructor. by apply stays.
Qed.

Lemma Array_sort_Sorted_by (items : list A) :
  Forall ok items → Sorted rel (Array_sort is_positive comparefn items).
Proof.
  induction 1 as [|x rest Hx Hrest IH]; simpl; [constructor|].
  apply sort_insert_Sorted_by; [done| |done].
  by rewrite (Array_sort_Permutation is_positive comparefn rest).
Qed.

End SortingBy.

(** ** The report *)

Section ReportProperties.
Import ListTs.
Variable URL_parse : string → option URL.t.
Variable Number_digits : number → string.
Local Abbreviation generateDetailedReport := (ListTs.generateDetailedReport Number_digits).
Local Abbreviation advancedPingUrl := (ListTs.advancedPingUrl URL_parse Number_digits).
Local Abbreviation extractHostAndPort := (ListTs.extractHostAndPort URL_parse).

Lemma status_counts (results : list PingResult.t) :
  length (filter (λ r, PingResult.status r = UP) results)
  + length (filter (λ r, PingResult.status r = PARTIAL) results)
  + length (filter (λ r, PingResult.status r = DOWN) results)
  = length results.
Proof.
  induction results as [|r results IH]; [done|].
  rewrite !filter_cons. destruct (PingResult.status r) eqn:Hs; simpl; lia.
Qed.

Lemma slice_0_length {B} (items : list B) n : length (slice items 0 n) ≤ n.
Proof. unfold slice. rewrite length_take. lia. Qed.

Lemma slice_0_take {B} (items : list B) n : slice items 0 n = take n items.
Proof. unfold slice. by rewrite Nat.sub_0_r. Qed.

(** X18 ([generateDetailedReport]). The three counts of the report add up
    to the number of results; it lists at most 10 networks, 15 fastest
    sites, 10 unstable sites and 15 failed sites, the failed ones being
    the first 15 unreachable results in their order. *)
Theorem generateDetailedReport_counts results :
  Report.fullyUp (generateDetailedReport results)
  + Report.partiallyUp (generateDetailedReport results)
  + Report.down (generateDetailedReport results)
  = length results
  ∧ length (Report.networks (generateDetailedReport results)) ≤ 10
  ∧ length (Report.fastest (generateDetailedReport results)) ≤ 15
  ∧ length (Report.unstable (generateDetailedReport results)) ≤ 10
  ∧ length (Report.failed (generateDetailedReport results)) ≤ 15
  ∧ FailedRow.site <$> Report.failed (generateDetailedReport results)
    = take 15 (filter (λ r, PingResult.status r = DOWN) results).
Proof.
  unfold ListTs.generateDetailedReport. cbn [Report.fullyUp Report.partiallyUp Report.down
    Report.networks Report.fastest Report.unstable Report.failed].
  rewrite !length_fmap. split; [apply status_counts|].
  split; [apply slice_0_length|]. split; [apply slice_0_length|].
  split; [|split; [apply slice_0_length|]].
  - case_match; [apply slice_0_length|simpl; lia].
  - rewrite <- list_fmap_compose, slice_0_take. apply list_fmap_id.
Qed.

Lemma network_row_counts (entry : string * list PingResult.t) :
  NetworkRow.subnet (network_row entry) = entry.1
  ∧ NetworkRow.sites (network_row entry) = length entry.2
  ∧ NetworkRow.upCount (network_row entry)
    = length (filter (λ s, PingResult.status s = UP) entry.2)
  ∧ NetworkRow.partialCount (network_row entry)
    = length (filter (λ s, PingResult.status s = PARTIAL) entry.2)
  ∧ NetworkRow.downCount (network_row entry)
    = Z.of_nat (length (filter (λ s, PingResult.status s = DOWN) entry.2)).
Proof.
  destruct entry as [subnet sites]. cbn. split_and!; try done.
  pose proof (status_counts sites). lia.
Qed.

(** X19 ([generateDetailedReport], networks). The networks listed are the
    first 10 of the categories in descending order of size. Each line
    counts the sites of its key among the results, one at least, and its
    three status counts add up to that number, none being negative. *)
Theorem generateDetailedReport_networks results :
  ∃ categories,
    categories ≡ₚ categorizeByNetwork results
    ∧ Sorted (λ a b, length b.2 ≤ length a.2) categories
    ∧ Report.networks (generateDetailedReport results)
      = network_row <$> take 10 categories
    ∧ Forall (λ row,
                0 < NetworkRow.sites row
                ∧ (Z.of_nat (NetworkRow.upCount row) + Z.of_nat (NetworkRow.partialCount row)
                   + NetworkRow.downCount row = Z.of_nat (NetworkRow.sites row))%Z
                ∧ (0 ≤ NetworkRow.downCount row)%Z
                ∧ NetworkRow.sites row
                  = length (filter (λ r, network_of r = NetworkRow.subnet row) results))
        (Report.networks (generateDetailedReport results)).
Proof.
  set (sorted := Array_sort positive_Z
                   (λ a b : string * list PingResult.t,
                      Z.of_nat (length b.2) - Z.of_nat (length a.2))%Z
                   (categorizeByNetwork results)).
  assert (sorted ≡ₚ categorizeByNetwork results) as Hperm
    by apply Array_sort_Permutation.
  exists sorted. split; [done|]. split; [|split].
  - apply (Array_sort_Sorted_by _ _ _ (λ _, True)).
    + intros x y _ _. unfold positive_Z. intros ?%Z.ltb_ge. lia.
    + intros x y. unfold positive_Z. intros ?%Z.ltb_lt. lia.
    + by apply Forall_forall.
  - unfold ListTs.generateDetailedReport. cbn [Report.networks].
    by rewrite slice_0_take.
  - unfold ListTs.generateDetailedReport. cbn [Report.networks].
    rewrite slice_0_take. fold sorted. apply Forall_fmap, Forall_forall.
    intros entry (i & Hentry%list_elem_of_lookup_2 & _)%elem_of_take.
    assert (entry ∈ categorizeByNetwork results) as Hin by (by rewrite <- Hperm).
    clear Hentry. rename Hin into Hentry. unfold compose.
    destruct entry as [subnet sites].
    apply categorizeByNetwork_sites in Hentry as [-> Hne].
    destruct (network_row_counts (subnet, filter (λ r, network_of r = subnet) results))
      as (Hs & Hn & Hu & Hp & Hd).
    cbn [fst snd] in Hs, Hn, Hu, Hp, Hd. rewrite Hs, Hn, Hu, Hp, Hd.
    pose proof (status_counts (filter (λ r, network_of r = subnet) results)).
    split_and!; try done; try lia.
    destruct (filter _ results); [done|simpl; lia].
Qed.

(** X20 ([generateDetailedReport], fastest sites). The sites listed are the
    first 15 of the fully reachable results put in ascending order of
    their average time (provided these averages are numbers). *)
Theorem generateDetailedReport_fastest results :
  ∃ upResults,
    upResults ≡ₚ filter (λ r, PingResult.status r = UP) results
    ∧ FastestRow.site <$> Report.fastest (generateDetailedReport results)
      = take 15 upResults
    ∧ (Forall avg_known results
       → Sorted (λ a b, (PingStatistics.avg (PingResult.statistics a)
                         <=? PingStatistics.avg (PingResult.statistics b))%float = true)
           upResults).
Proof.
  set (sorted := Array_sort positive_number
                   (λ a b, PingStatistics.avg (PingResult.statistics a)
                           - PingStatistics.avg (PingResult.statistics b))%float
                   (filter (λ r, PingResult.status r = UP) results)).
  exists sorted. split; [apply Array_sort_Permutation|]. split.
  - unfold ListTs.generateDetailedReport. cbn [Report.fastest].
    rewrite <- list_fmap_compose, slice_0_take. apply list_fmap_id.
  - intros Hknown.
    apply (Array_sort_Sorted_by _ _ _
             (λ r, is_nan (PingStatistics.avg (PingResult.statistics r)) = false)).
    + intros x y Hx Hy. by apply sub_not_positive_leb.
    + intros x y. apply sub_positive_leb.
    + apply Forall_forall. intros r [Hup Hr]%list_elem_of_filter.
      rewrite Forall_forall in Hknown. by apply Hknown.
Qed.

(** X21 ([generateDetailedReport], unstable sites). The sites listed are the
    first 10 of the partially reachable results put in descending order
    of their successful pings. *)
Theorem generateDetailedReport_unstable results :
  ∃ partialResults,
    partialResults ≡ₚ filter (λ r, PingResult.status r = PARTIAL) results
    ∧ UnstableRow.site <$> Report.unstable (generateDetailedReport results)
      = take 10 partialResults
    ∧ Sorted (λ a b, PingResult.successfulPings b ≤ PingResult.successfulPings a)
        partialResults.
Proof.
  set (sorted := Array_sort positive_Z
                   (λ a b, Z.of_nat (PingResult.successfulPings b)
                           - Z.of_nat (PingResult.successfulPings a))%Z
                   (filter (λ r, PingResult.status r = PARTIAL) results)).
  exists sorted. split; [apply Array_sort_Permutation|]. split.
  - unfold ListTs.generateDetailedReport. cbn [Report.unstable]. fold sorted.
    case_match eqn:Hlen.
    + rewrite <- list_fmap_compose, slice_0_take. apply list_fmap_id.
    + apply Nat.ltb_ge in Hlen. unfold sorted.
      destruct (filter _ results); [done|simpl in Hlen; lia].
  - apply (Array_sort_Sorted_by _ _ _ (λ _, True)).
    + intros x y _ _. unfold positive_Z. intros ?%Z.ltb_ge. lia.
    + intros x y. unfold positive_Z. intros ?%Z.ltb_lt. lia.
    + by apply Forall_forall.
Qed.

(** X22 ([generateDetailedReport] with [advancedPingUrl]). What the report
    prints as the failure of a probed endpoint: ['Invalid URL format']
    when no host was extracted; otherwise the message of the DNS error
    when the lookup was made and failed with a message, and ['Complete
    ping failure'] in every other case, whatever the probes raised. *)
Theorem failure_of_probed env entry config result :
  advancedPingUrl env entry config = Returned result →
  (∀ error, extractHostAndPort (UrlEntry.url entry) = Raised error
            → failure_of result = "Invalid URL format")
  ∧ (∀ host, extractHostAndPort (UrlEntry.url entry) = Returned host
             → failure_of result
               = if PingConfig.enableDnsLookup config
                 then match Env.dns_lookup env (HostAndPort.hostname host) with
                      | Raised error =>
                          or_else (Some (error_text error)) "Complete ping failure"
                      | Returned _ => "Complete ping failure"
                      end
                 else "Complete ping failure").
Proof.
  intros Hresult. split.
  - intros error Herror.
    rewrite (advancedPingUrl_rejected URL_parse Number_digits env entry config error Herror)
      in Hresult.
    injection Hresult as <-.
    by rewrite (extractHostAndPort_error URL_parse _ _ Herror).
  - intros host Hhost.
    destruct (advancedPingUrl_probed URL_parse Number_digits env entry config host Hhost)
      as (result' & Hresult' & _ & _ & _ & _ & _ & Hdns & _ & Herror).
    rewrite Hresult in Hresult'. injection Hresult' as <-.
    unfold failure_of. rewrite Herror, Hdns. cbn [or_else]. unfold dns_record.
    destruct (PingConfig.enableDnsLookup config); [|done].
    by destruct (Env.dns_lookup env (HostAndPort.hostname host)).
Qed.

End ReportProperties.

(** ** The whole run of the multi-attempt analysis *)

Section WholeRun.
Import ListTs.
Variable URL_parse : string → option URL.t.
Variable Number_digits : number → string.
Local Abbreviation advancedPingUrl := (ListTs.advancedPingUrl URL_parse Number_digits).
Local Abbreviation batch_loop := (ListTs.batch_loop URL_parse Number_digits).
Local Abbreviation runAdvancedPingTest := (ListTs.runAdvancedPingTest URL_parse Number_digits).

Lemma advancedPingUrl_entry env entry config result :
  advancedPingUrl env entry config = Returned result →
  PingResult.url result = UrlEntry.url entry
  ∧ PingResult.name result = UrlEntry.name entry
  ∧ PingResult.type result = UrlEntry.type entry.
Proof.
  destruct (ListTs.extractHostAndPort URL_parse (UrlEntry.url entry)) as [host|error] eqn:Hhost.
  - unfold ListTs.advancedPingUrl. rewrite Hhost. cbn [mbind outcome_bind].
    rewrite dns_step. cbn [mbind outcome_bind].
    destruct (ListTs.ping_attempts _ _ _ _) as [raw times]. by intros [= <-].
  - rewrite (advancedPingUrl_rejected URL_parse Number_digits env entry config error Hhost).
    by intros [= <-].
Qed.

Lemma probed_entries world config (entries : list UrlEntry.t) results :
  Forall2 (λ entry result, advancedPingUrl (world entry) entry config = Returned result)
    entries results →
  Forall2 (λ entry result,
             PingResult.url result = UrlEntry.url entry
             ∧ PingResult.name result = UrlEntry.name entry
             ∧ PingResult.type result = UrlEntry.type entry) entries results.
Proof.
  intros Hprobed. eapply Forall2_impl; [exact Hprobed|].
  intros entry result. apply advancedPingUrl_entry.
Qed.

Lemma probed_urls (entries : list UrlEntry.t) (results : list PingResult.t) :
  Forall2 (λ entry result,
             PingResult.url result = UrlEntry.url entry
             ∧ PingResult.name result = UrlEntry.name entry
             ∧ PingResult.type result = UrlEntry.type entry) entries results →
  PingResult.url <$> results = UrlEntry.url <$> entries.
Proof. induction 1 as [|entry result ? ? (Hu & _) _ IH]; [done|]. csimpl. by rewrite Hu, IH. Qed.

(** X12 ([runAdvancedPingTest]). Given fuel for its batches, the run returns
    one result for every distinct address of the catalog and no other: the
    addresses of the results are those of the catalog, each once, and a
    result carries the name and type of the last entry with its address. *)
Theorem runAdvancedPingTest_one_result_per_address fuel world urls :
  length urls < fuel →
  ∃ results trace,
    runAdvancedPingTest fuel world urls = Some (Returned (results, trace))
    ∧ PingResult.url <$> results ≡ₚ UrlEntry.url <$> uniqueUrls_Set urls
    ∧ NoDup (PingResult.url <$> results)
    ∧ (∀ address, address ∈ PingResult.url <$> results
                  ↔ address ∈ UrlEntry.url <$> urls)
    ∧ (∀ result, result ∈ results
                 → ∃ item,
                     last_with_url (PingResult.url result) urls = Some item
                     ∧ PingResult.name result = UrlEntry.name item
                     ∧ PingResult.type result = UrlEntry.type item).
Proof.
  intros Hfuel.
  destruct (runAdvancedPingTest_returns URL_parse Number_digits fuel world urls Hfuel)
    as (results & unsorted & Hrun & Hprobed & Hperm).
  apply probed_entries in Hprobed.
  pose proof (probed_urls _ _ Hprobed) as Hurls.
  assert (PingResult.url <$> results ≡ₚ UrlEntry.url <$> uniqueUrls_Set urls) as Haddr.
  { by rewrite Hperm, Hurls, uniqueUrls_Map_urls. }
  eexists _, _. split; [exact Hrun|]. split; [done|]. split; [|split].
  - rewrite Haddr. apply filter_unseen_NoDup.
  - intros address. rewrite Haddr. unfold uniqueUrls_Set.
    rewrite elem_of_filter_unseen. set_solver.
  - intros result Hresult. rewrite Hperm in Hresult.
    apply list_elem_of_lookup_1 in Hresult as [i Hi].
    destruct (Forall2_lookup_r _ _ _ _ _ Hprobed Hi) as (item & Hitem & Hu & Hn & Ht).
    exists item. split; [|done]. rewrite Hu.
    apply list_elem_of_lookup_2 in Hitem.
    by apply (uniqueUrls_Map_last_occurrence urls) in Hitem.
Qed.

Lemma by_status_then_avg_passes_UP (x y : PingResult.t) :
  positive_number (by_status_then_avg x y) = true → PingResult.status y = UP.
Proof.
  unfold by_status_then_avg.
  destruct (decide (PingResult.status x = UP)) as [Hx|Hx],
    (decide (PingResult.status y = UP)) as [Hy|Hy]; try done.
  - rewrite (bool_decide_eq_true_2 _ Hx), (bool_decide_eq_false_2 _ Hy). done.
  - rewrite (bool_decide_eq_false_2 _ Hx), (bool_decide_eq_false_2 _ Hy). done.
Qed.

Lemma sort_insert_keeps_others (x : PingResult.t) (sorted : list PingResult.t) :
  filter (λ r, PingResult.status r ≠ UP)
    (sort_insert positive_number by_status_then_avg x sorted)
  = filter (λ r, PingResult.status r ≠ UP) (x :: sorted).
Proof.
  induction sorted as [|y sorted IH]; [done|]. cbn [sort_insert].
  destruct (positive_number (by_status_then_avg x y)) eqn:Hxy; [|done].
  apply by_status_then_avg_passes_UP in Hxy.
  rewrite (filter_cons_False _ y) by naive_solver. rewrite IH.
  rewrite !(filter_cons _ x). case_decide; [|by rewrite filter_cons_False by naive_solver].
  by rewrite (filter_cons_False _ y) by naive_solver.
Qed.

Lemma sort_results_keeps_others (results : list PingResult.t) :
  filter (λ r, PingResult.status r ≠ UP)
    (Array_sort positive_number by_status_then_avg results)
  = filter (λ r, PingResult.status r ≠ UP) results.
Proof.
  induction results as [|x results IH]; [done|]. cbn [Array_sort foldr].
  fold (Array_sort positive_number by_status_then_avg results).
  rewrite sort_insert_keeps_others, !(filter_cons _ x). by rewrite IH.
Qed.

Lemma batch_loop_more_fuel world config uniqueUrls fuel fuel' i results trace r :
  batch_loop fuel world config uniqueUrls i results trace = Some r →
  fuel ≤ fuel' →
  batch_loop fuel' world config uniqueUrls i results trace = Some r.
Proof.
  revert fuel' i results trace.
  induction fuel as [|fuel IH]; intros fuel' i results trace; [done|].
  intros Hloop Hle. destruct fuel' as [|fuel']; [lia|].
  cbn [ListTs.batch_loop] in *. case_match; [|done].
  case_match; [|done]. apply IH; [done|lia].
Qed.

(** Where the comparison yields a number on every two results, the
    averages of the fully reachable ones are finite. *)
Lemma comparable_finite results r :
  comparable results → r ∈ results →
  ListTs.PingResult.status r = ListTs.UP →
  match Prim2SF (ListTs.PingStatistics.avg (ListTs.PingResult.statistics r)) with
  | S754_nan | S754_infinity _ => False
  | _ => True
  end.
Proof.
  intros Hall Hr Hup. unfold comparable in Hall.
  rewrite Forall_forall in Hall. specialize (Hall r Hr).
  rewrite Forall_forall in Hall. specialize (Hall r Hr).
  unfold ListTs.by_status_then_avg in Hall.
  rewrite !bool_decide_eq_true_2 in Hall by done. cbn [negb andb] in Hall.
  unfold is_nan in Hall. rewrite eqb_spec, sub_spec in Hall.
  destruct (Prim2SF _) as [s|s| |s m e]; [done| | |done].
  - by destruct s.
  - done.
Qed.

(** X14 ([runAdvancedPingTest], the sort). Where the comparison of the
    sort yields a number on every two of the results, the sort moves
    nothing but the fully reachable results: the partially reachable and
    unreachable ones stand in the results in the order in which they were
    probed. *)
Theorem runAdvancedPingTest_keeps_order_of_failures fuel world urls results trace :
  runAdvancedPingTest fuel world urls = Some (Returned (results, trace)) →
  comparable results →
  ∃ probed,
    Forall2 (λ entry result,
               advancedPingUrl (world entry) entry run_config = Returned result)
      (uniqueUrls_Map urls) probed
    ∧ filter (λ r, PingResult.status r ≠ UP) results
      = filter (λ r, PingResult.status r ≠ UP) probed.
Proof.
  unfold ListTs.runAdvancedPingTest.
  destruct (batch_loop _ _ _ _ _ _) as [[[unsorted trace']|]|] eqn:Hloop; [|done|done].
  intros [= <- <-] _. exists unsorted. split; [|apply sort_results_keeps_others].
  destruct (batch_loop_from URL_parse Number_digits world run_config (uniqueUrls_Map urls)
              5 eq_refl (fuel + S (length urls)) 0 [] [])
    as (probed & Hprobed & Hloop').
  { pose proof (uniqueUrls_Map_length urls). lia. }
  simpl in Hprobed, Hloop'.
  apply (batch_loop_more_fuel _ _ _ _ (fuel + S (length urls))) in Hloop; [|lia].
  rewrite Hloop in Hloop'. by injection Hloop' as -> _.
Qed.

End WholeRun.

(** ** The outputs of the two quick scripts *)

Section QuickScriptsMore.
Variable URL_parse : string → option URL.t.
Variable Number_digits : number → string.
Local Abbreviation quickPing := (FastCheck.quickPing URL_parse).
Local Abbreviation fastCheck := (FastCheck.fastCheck URL_parse Number_digits).
Local Abbreviation checkUrl := (ListUp.checkUrl URL_parse).
Local Abbreviation listUpUrls := (ListUp.listUpUrls URL_parse Number_digits).

Lemma Promise_all_fmap {A B} (f : A → outcome B) (g : A → B) (items : list A) :
  (∀ item, f item = Returned (g item)) → Promise_all f items = Returned (g <$> items).
Proof.
  intros Hf. induction items as [|item items IH]; [done|].
  cbn [Promise_all]. by rewrite Hf, IH.
Qed.

Lemma filter_fmap {A B} (f : A → B) (P : B → Prop) `{∀ y, Decision (P y)} (l : list A) :
  filter P (f <$> l) = f <$> filter (λ x, P (f x)) l.
Proof.
  induction l as [|x l IH]; [done|]. csimpl. rewrite !filter_cons, IH.
  by case_decide.
Qed.

Lemma filter_complement {A} (P : A → Prop) `{∀ x, Decision (P x)} (l : list A) :
  filter P l ++ filter (λ x, ¬ P x) l ≡ₚ l.
Proof.
  induction l as [|x l IH]; [done|]. rewrite !filter_cons.
  destruct (decide (P x)) as [HP|HP].
  - rewrite decide_False by naive_solver. simpl. by rewrite IH.
  - rewrite decide_True by done. by rewrite <- Permutation_middle, IH.
Qed.

Lemma quickPing_answers env entry :
  quickPing env entry
  = Returned
      (FastCheck.SimpleResult.mk (UrlEntry.url entry) (UrlEntry.name entry)
         (if answers URL_parse env entry then FastCheck.UP else FastCheck.DOWN)
         (Env.now_end env - Env.now_start env)%Z).
Proof.
  rewrite quickPing_result. unfold answers.
  by destruct (Env.ping_probe env _ _ _).
Qed.

Lemma checkUrl_answers env entry :
  checkUrl env entry
  = Returned (ListUp.CheckResult.mk (UrlEntry.url entry) (UrlEntry.name entry)
                (answers URL_parse env entry)).
Proof.
  rewrite checkUrl_result. unfold answers.
  by destruct (Env.ping_probe env _ _ _).
Qed.

Lemma answering_partition world (unique : list UrlEntry.t) :
  filter (λ entry, answers URL_parse (world entry) entry = true) unique
    ++ filter (λ entry, answers URL_parse (world entry) entry = false) unique
  ≡ₚ unique.
Proof.
  assert (filter (λ entry, answers URL_parse (world entry) entry = false) unique
          = filter (λ entry, ¬ answers URL_parse (world entry) entry = true) unique) as ->.
  { apply list_filter_iff. intros entry.
    by destruct (answers URL_parse (world entry) entry). }
  apply filter_complement.
Qed.

Lemma fastCheck_returns clock world urls :
  ∃ output,
    fastCheck clock world urls = Returned output
    ∧ FastCheck.SimpleOutput.summary output
      = FastCheck.Summary.mk (length (uniqueUrls_Set urls))
          (length (filter (λ entry, answers URL_parse (world entry) entry = true)
                     (uniqueUrls_Set urls)))
          (length (filter (λ entry, answers URL_parse (world entry) entry = false)
                     (uniqueUrls_Set urls)))
          (FastCheck.successRate Number_digits
             (length (filter (λ entry, answers URL_parse (world entry) entry = true)
                        (uniqueUrls_Set urls)))
             (length (uniqueUrls_Set urls)))
    ∧ FastCheck.SimpleOutput.downSites output
      = UrlEntry.url
          <$> filter (λ entry, answers URL_parse (world entry) entry = false)
                (uniqueUrls_Set urls)
    ∧ FastCheck.UpSite.url <$> FastCheck.SimpleOutput.upSites output
      ≡ₚ UrlEntry.url
           <$> filter (λ entry, answers URL_parse (world entry) entry = true)
                 (uniqueUrls_Set urls)
    ∧ FastCheck.SimpleOutput.totalTime output
      = (Clock.endTime clock - Clock.startTime clock)%Z.
Proof.
  unfold FastCheck.fastCheck.
  rewrite (Promise_all_fmap _ _ _ (λ entry, quickPing_answers (world entry) entry)).
  cbn [mbind outcome_bind mret outcome_ret]. eexists. split; [reflexivity|].
  cbn [FastCheck.SimpleOutput.summary FastCheck.SimpleOutput.upSites
       FastCheck.SimpleOutput.downSites FastCheck.SimpleOutput.totalTime].
  set (unique := uniqueUrls_Set urls).
  set (result := λ entry, FastCheck.SimpleResult.mk _ _ _ _).
  rewrite !filter_fmap.
  assert (filter (λ x, FastCheck.SimpleResult.status (result x) = FastCheck.UP) unique
          = filter (λ entry, answers URL_parse (world entry) entry = true) unique) as ->.
  { apply list_filter_iff. intros entry. unfold result. simpl.
    by destruct (answers URL_parse (world entry) entry). }
  assert (filter (λ x, FastCheck.SimpleResult.status (result x) = FastCheck.DOWN) unique
          = filter (λ entry, answers URL_parse (world entry) entry = false) unique) as ->.
  { apply list_filter_iff. intros entry. unfold result. simpl.
    by destruct (answers URL_parse (world entry) entry). }
  set (sorted := Array_sort _ _ _).
  assert (sorted ≡ₚ result <$> filter (λ entry, answers URL_parse (world entry) entry = true)
                                 unique) as Hsorted by apply Array_sort_Permutation.
  rewrite !length_fmap, (Permutation_length Hsorted), !length_fmap.
  split; [done|]. split; [by rewrite <- list_fmap_compose|]. split; [|done].
  by rewrite <- list_fmap_compose, Hsorted, <- list_fmap_compose.
Qed.

(** X23 ([fastCheck]). Every distinct address of the catalog is reported
    once, among the reachable sites when its probe found the host alive
    and among the unreachable ones otherwise, these in catalog order; the
    counts of the summary are the lengths of the two lists and add up to
    the total. *)
Theorem fastCheck_every_address_once clock world urls :
  ∃ output,
    fastCheck clock world urls = Returned output
    ∧ FastCheck.Summary.total (FastCheck.SimpleOutput.summary output)
      = length (uniqueUrls_Set urls)
    ∧ FastCheck.Summary.up (FastCheck.SimpleOutput.summary output)
      + FastCheck.Summary.down (FastCheck.SimpleOutput.summary output)
      = FastCheck.Summary.total (FastCheck.SimpleOutput.summary output)
    ∧ FastCheck.Summary.up (FastCheck.SimpleOutput.summary output)
      = length (FastCheck.SimpleOutput.upSites output)
    ∧ FastCheck.Summary.down (FastCheck.SimpleOutput.summary output)
      = length (FastCheck.SimpleOutput.downSites output)
    ∧ FastCheck.SimpleOutput.downSites output
      = UrlEntry.url
          <$> filter (λ entry, answers URL_parse (world entry) entry = false)
                (uniqueUrls_Set urls)
    ∧ FastCheck.UpSite.url <$> FastCheck.SimpleOutput.upSites output
      ≡ₚ UrlEntry.url
           <$> filter (λ entry, answers URL_parse (world entry) entry = true)
                 (uniqueUrls_Set urls)
    ∧ NoDup ((FastCheck.UpSite.url <$> FastCheck.SimpleOutput.upSites output)
             ++ FastCheck.SimpleOutput.downSites output)
    ∧ (∀ address,
         address ∈ (FastCheck.UpSite.url <$> FastCheck.SimpleOutput.upSites output)
                   ++ FastCheck.SimpleOutput.downSites output
         ↔ address ∈ UrlEntry.url <$> urls).
Proof.
  destruct (fastCheck_returns clock world urls) as (output & Hout & Hsum & Hdown & Hup & _).
  exists output. split; [done|]. rewrite Hsum, Hdown.
  cbn [FastCheck.Summary.total FastCheck.Summary.up FastCheck.Summary.down].
  pose proof (answering_partition world (uniqueUrls_Set urls)) as Hpart.
  assert ((FastCheck.UpSite.url <$> FastCheck.SimpleOutput.upSites output)
          ++ (UrlEntry.url
                <$> filter (λ entry, answers URL_parse (world entry) entry = false)
                      (uniqueUrls_Set urls))
          ≡ₚ UrlEntry.url <$> uniqueUrls_Set urls) as Hall.
  { by rewrite Hup, <- fmap_app, Hpart. }
  split_and!; try done.
  - by rewrite <- (Permutation_length Hpart), length_app.
  - by rewrite <- (length_fmap FastCheck.UpSite.url), (Permutation_length Hup), length_fmap.
  - by rewrite length_fmap.
  - rewrite Hall. apply filter_unseen_NoDup.
  - intros address. rewrite Hall. unfold uniqueUrls_Set.
    rewrite elem_of_filter_unseen. set_solver.
Qed.

Lemma listUpUrls_returns clock world urls :
  listUpUrls clock world urls
  = Returned
      (UrlEntry.url
         <$> filter (λ entry, answers URL_parse (world entry) entry = true)
               (uniqueUrls_Set urls),
       ListUp.DetailedList.mk (Clock.timestamp clock) (length (uniqueUrls_Set urls))
         (length (filter (λ entry, answers URL_parse (world entry) entry = true)
                    (uniqueUrls_Set urls)))
         (FastCheck.successRate Number_digits
            (length (filter (λ entry, answers URL_parse (world entry) entry = true)
                       (uniqueUrls_Set urls)))
            (length (uniqueUrls_Set urls)))
         ((λ entry, ListUp.WorkingUrl.mk (UrlEntry.url entry) (UrlEntry.name entry))
            <$> filter (λ entry, answers URL_parse (world entry) entry = true)
                  (uniqueUrls_Set urls))).
Proof.
  unfold ListUp.listUpUrls.
  rewrite (Promise_all_fmap _ _ _ (λ entry, checkUrl_answers (world entry) entry)).
  cbn [mbind outcome_bind mret outcome_ret].
  rewrite !filter_fmap. cbn [ListUp.CheckResult.isUp].
  by rewrite !length_fmap, <- !list_fmap_compose.
Qed.

(** X24 ([listUpUrls]). The working URLs, in the text file and in the JSON
    object alike, are the addresses of the deduplicated entries whose probe
    found the host alive, in catalog order and each once; the counts are
    the lengths of the lists. *)
Theorem listUpUrls_working clock world urls :
  ∃ workingUrls detailedList,
    listUpUrls clock world urls = Returned (workingUrls, detailedList)
    ∧ workingUrls
      = UrlEntry.url
          <$> filter (λ entry, answers URL_parse (world entry) entry = true)
                (uniqueUrls_Set urls)
    ∧ ListUp.WorkingUrl.url <$> ListUp.DetailedList.working_urls detailedList = workingUrls
    ∧ ListUp.DetailedList.working_count detailedList = length workingUrls
    ∧ ListUp.DetailedList.working_count detailedList
      ≤ ListUp.DetailedList.total_checked detailedList
    ∧ ListUp.DetailedList.total_checked detailedList ≤ length urls
    ∧ workingUrls `sublist_of` UrlEntry.url <$> urls
    ∧ NoDup workingUrls.
Proof.
  rewrite listUpUrls_returns. eexists _, _. split; [reflexivity|].
  cbn [ListUp.DetailedList.working_urls ListUp.DetailedList.working_count
       ListUp.DetailedList.total_checked].
  split_and!.
  - done.
  - by rewrite <- list_fmap_compose.
  - by rewrite length_fmap.
  - apply length_filter.
  - apply filter_unseen_length.
  - apply fmap_sublist. etrans; [apply sublist_filter|apply filter_unseen_sublist].
  - eapply sublist_NoDup; [apply (filter_unseen_NoDup ∅ urls)|].
    apply fmap_sublist, sublist_filter.
Qed.

Lemma successRate_all (n : nat) :
  1 ≤ n → safe_integer n → FastCheck.successRate Number_digits n n = 100%float.
Proof.
  intros Hn Hsafe. unfold FastCheck.successRate.
  by rewrite (div_diag_finite _ (nat2num_finite_pos n Hn Hsafe)).
Qed.

Lemma successRate_none (n : nat) :
  1 ≤ n → safe_integer n → FastCheck.successRate Number_digits 0 n = 0%float.
Proof.
  intros Hn Hsafe. unfold FastCheck.successRate.
  by rewrite nat2num_0, (zero_div_finite _ (nat2num_finite_pos n Hn Hsafe)).
Qed.

(** X25 ([fastCheck], [listUpUrls]). For a catalog that is not empty, the
    success rate both scripts write is exactly 100 when every probe finds
    its host alive and exactly 0 when none does. *)
Theorem success_rate_all_or_none clock world urls (up : bool) :
  urls ≠ [] → safe_integer (length urls) →
  (∀ entry, entry ∈ urls → answers URL_parse (world entry) entry = up) →
  (∃ output,
     fastCheck clock world urls = Returned output
     ∧ FastCheck.Summary.successRate (FastCheck.SimpleOutput.summary output)
       = if up then 100%float else 0%float)
  ∧ (∃ workingUrls detailedList,
       listUpUrls clock world urls = Returned (workingUrls, detailedList)
       ∧ ListUp.DetailedList.success_rate detailedList
         = if up then 100%float else 0%float).
Proof.
  intros Hne Hsafe Hall.
  assert (1 ≤ length (uniqueUrls_Set urls)) as Hone.
  { destruct urls as [|item urls]; [done|]. unfold uniqueUrls_Set. simpl.
    rewrite decide_False by set_solver. simpl. lia. }
  assert (safe_integer (length (uniqueUrls_Set urls))) as Hsafe'.
  { unfold safe_integer in *. pose proof (filter_unseen_length ∅ urls).
    unfold uniqueUrls_Set. lia. }
  assert (FastCheck.successRate Number_digits
            (length (filter (λ entry, answers URL_parse (world entry) entry = true)
                       (uniqueUrls_Set urls)))
            (length (uniqueUrls_Set urls))
          = if up then 100%float else 0%float) as Hrate.
  { assert (Forall (λ entry, answers URL_parse (world entry) entry = up)
              (uniqueUrls_Set urls)) as Hunique.
    { apply Forall_forall. intros entry Hentry. apply Hall.
      eapply elem_of_sublist; [exact Hentry|apply filter_unseen_sublist]. }
    destruct up.
    - rewrite (proj2 (filter_length_all _ _) Hunique). by apply successRate_all.
    - rewrite (proj2 (filter_length_none _ _)); [by apply successRate_none|].
      eapply Forall_impl; [exact Hunique|]. intros entry ->. done. }
  split.
  - destruct (fastCheck_returns clock world urls) as (output & Hout & Hsum & _).
    exists output. split; [done|]. by rewrite Hsum.
  - rewrite listUpUrls_returns. eexists _, _. split; [reflexivity|]. exact Hrate.
Qed.

End QuickScriptsMore.

(** ** The fetch-based test *)

Section FetchProbe.
Import TestPing.
Variable Number_digits : number → string.







End FetchProbe.

(** ** Sorting what is sorted *)

Section Binary64Resort.
Local Open Scope Z_scope.

Lemma SFsub_leb_not_positive (x y : spec_float) :
  valid_binary x = true → valid_binary y = true →
  SFleb x y = true →
  SFltb (S754_zero false) (SFsub prec emax x y) = false.
Proof.
  intros Hx Hy Hle.
  destruct (SFltb (S754_zero false) (SFsub prec emax x y)) eqn:Hpos; [|done].
  pose proof (SFsub_positive x y Hx Hy Hpos) as Hge.
  assert (x ≠ S754_nan ∧ y ≠ S754_nan) as [Hxn Hyn].
  { by destruct x, y. }
  apply (SFcompare_key _ _ Hxn Hyn) in Hle. apply (SFcompare_key _ _ Hyn Hxn) in Hge.
  unfold key_le in Hle, Hge.
  destruct x as [sx|sx| |sx mx ex], y as [sy|sy| |sy my ey]; try done;
    try (destruct sx; destruct sy; simpl in *; (done || lia)).
  assert (sx = sy ∧ mx = my ∧ ex = ey) as (-> & -> & ->).
  { destruct sx, sy; simpl in *; split_and!; (done || lia). }
  unfold SFsub in Hpos. rewrite Z.min_id, Z.sub_diag in Hpos. done.
Qed.

Lemma leb_sub_not_positive (a b : number) :
  (a <=? b)%float = true → positive_number (a - b)%float = false.
Proof.
  unfold positive_number. rewrite leb_spec, ltb_spec, sub_spec.
  apply SFsub_leb_not_positive; apply Prim2SF_valid.
Qed.

End Binary64Resort.

Section SortedAlready.
Context {A R : Type} (is_positive : R → bool) (comparefn : A → A → R).
Context (rel : A → A → Prop).
Hypothesis in_place : ∀ x y, rel x y → is_positive (comparefn x y) = false.

Lemma Array_sort_of_Sorted (items : list A) :
  Sorted rel items → Array_sort is_positive comparefn items = items.
Proof.
  induction 1 as [|x items Hsorted IH Hhd]; [done|].
  cbn [Array_sort foldr]. fold (Array_sort is_positive comparefn items). rewrite IH.
  destruct Hhd as [|y items' Hxy]; [done|]. cbn [sort_insert]. by rewrite in_place.
Qed.

End SortedAlready.

(** ** The run, its results and its report *)

Section RunAndReport.
Import ListTs.
Variable URL_parse : string → option URL.t.
Variable Number_digits : number → string.
Local Abbreviation generateDetailedReport := (ListTs.generateDetailedReport Number_digits).
Local Abbreviation advancedPingUrl := (ListTs.advancedPingUrl URL_parse Number_digits).
Local Abbreviation extractHostAndPort := (ListTs.extractHostAndPort URL_parse).
Local Abbreviation runAdvancedPingTest := (ListTs.runAdvancedPingTest URL_parse Number_digits).

Lemma filter_UP_split (ups others : list PingResult.t) :
  Forall (λ r, PingResult.status r = UP) ups →
  Forall (λ r, PingResult.status r ≠ UP) others →
  filter (λ r, PingResult.status r = UP) (ups ++ others) = ups.
Proof.
  intros Hups Hothers. rewrite filter_app.
  replace (filter _ others) with (@nil PingResult.t).
  - rewrite app_nil_r. induction Hups as [|r ups Hr _ IH]; [done|].
    by rewrite filter_cons_True, IH.
  - symmetry. by apply nil_length_inv, filter_length_none.
Qed.

(** X28 ([runAdvancedPingTest] with [generateDetailedReport]). The fastest
    sites of the report of a run are the results the run wrote, from the
    first one on and in the same order, as far as there are fully
    reachable ones and 15 at most (provided the averages are numbers). *)
Theorem generateDetailedReport_of_run fuel world urls results trace :
  runAdvancedPingTest fuel world urls = Some (Returned (results, trace)) →
  Forall avg_known results →
  FastestRow.site <$> Report.fastest (generateDetailedReport results)
  = take (15 `min` Report.fullyUp (generateDetailedReport results)) results.
Proof.
  intros Hrun Hknown.
  assert (Sorted precedes results) as Hsorted.
  { revert Hrun. unfold ListTs.runAdvancedPingTest.
    destruct (batch_loop _ _ _ _ _ _ _ _ _) as [[[unsorted trace']|]|]; [|done|done].
    intros [= <- _]. apply sort_results_precedes.
    by rewrite (Array_sort_Permutation positive_number by_status_then_avg unsorted)
      in Hknown. }
  destruct (precedes_sorted_split results Hsorted)
    as (ups & others & -> & Hups & Hothers & Hascending).
  unfold ListTs.generateDetailedReport. cbn [Report.fastest Report.fullyUp].
  rewrite (filter_UP_split ups others Hups Hothers).
  rewrite <- list_fmap_compose, slice_0_take.
  assert (Array_sort positive_number
            (λ a b, PingStatistics.avg (PingResult.statistics a)
                    - PingStatistics.avg (PingResult.statistics b))%float ups = ups) as ->.
  { apply (Array_sort_of_Sorted _ _
             (λ a b, (PingStatistics.avg (PingResult.statistics a)
                      <=? PingStatistics.avg (PingResult.statistics b))%float = true));
      [|done].
    intros a b. apply leb_sub_not_positive. }
  etrans; [apply (list_fmap_id (take 15 ups))|].
  rewrite take_app_le by lia.
  destruct (decide (15 ≤ length ups)); [by rewrite Nat.min_l|].
  rewrite Nat.min_r by lia. by rewrite !take_ge by lia.
Qed.

(** X29 ([advancedPingUrl] with [performDnsLookup], [categorizeByNetwork]).
    A failed DNS lookup does not fail the endpoint: the attempts are made
    and counted all the same and the result has no error text of its own,
    only the message of the lookup in its DNS record. Such a result, and
    every result when the lookup is switched off, has no address and is
    filed under ['Unknown']. *)
Theorem dns_failure_is_not_fatal env entry config host :
  extractHostAndPort (UrlEntry.url entry) = Returned host →
  ∃ result,
    advancedPingUrl env entry config = Returned result
    ∧ PingResult.error result = None
    ∧ PingResult.successfulPings result
      = successful_attempts env config (HostAndPort.hostname host)
    ∧ (PingConfig.enableDnsLookup config = false
       → DnsInfo.error (PingResult.dnsInfo result) = None
         ∧ network_of result = "Unknown")
    ∧ (∀ error,
         PingConfig.enableDnsLookup config = true
         → Env.dns_lookup env (HostAndPort.hostname host) = Raised error
         → DnsInfo.error (PingResult.dnsInfo result) = Some (error_text error)
           ∧ network_of result = "Unknown")
    ∧ (∀ ip,
         PingConfig.enableDnsLookup config = true
         → Env.dns_lookup env (HostAndPort.hostname host) = Returned ip
         → DnsInfo.error (PingResult.dnsInfo result) = None
           ∧ DnsInfo.ip (PingResult.dnsInfo result) = Some ip).
Proof.
  intros Hhost.
  destruct (advancedPingUrl_probed URL_parse Number_digits env entry config host Hhost)
    as (result & Hresult & Hpings & _ & _ & _ & _ & Hdns & _ & Herror).
  exists result. split; [done|]. split; [done|]. split; [done|].
  unfold network_of. rewrite Hdns. unfold dns_record. split; [|split].
  - by intros ->.
  - intros error -> ->. done.
  - intros ip -> ->. done.
Qed.

End RunAndReport.

(** ** Examples *)

(** The address "localhost" has no scheme: [new URL] rejects it and the
    pattern does not match it. The quick probe pings "localhost" all the
    same and reports the endpoint UP when the host answers. *)
Lemma quickPing_localhost :
  rejecting_parser (UrlEntry.url entry_localhost) = None
  ∧ match_host (UrlEntry.url entry_localhost) = None
  ∧ FastCheck.quickPing rejecting_parser answering_env entry_localhost
    = Returned (FastCheck.SimpleResult.mk "localhost" "local" FastCheck.UP 250).
Proof. by vm_compute. Qed.

(** The scenario of the specification, catalog A, B, C with A and B at one
    address, through the multi-attempt analysis: two endpoints are probed,
    in one batch, and the entry kept for the shared address is B. *)
Example runAdvancedPingTest_A_B_C :
  ∃ results,
    ListTs.runAdvancedPingTest rejecting_parser no_digits 4 (λ _, answering_env)
      [entry_A; entry_B; entry_C]
    = Some (Returned
              (results,
               [ListTs.ProbeStarted 1 entry_B; ListTs.ProbeStarted 1 entry_C;
                ListTs.BatchCollected 1 2]))
    ∧ ListTs.PingResult.name <$> results = ["B"; "C"]
    ∧ ListTs.PingResult.status <$> results = [ListTs.UP; ListTs.UP].
Proof. eexists. split; [by vm_compute|]. by vm_compute. Qed.

Example runAdvancedPingTest_A_B_C_sorted :
  ∃ results trace,
    ListTs.runAdvancedPingTest rejecting_parser no_digits 4 (λ _, answering_env)
      [entry_A; entry_B; entry_C]
    = Some (Returned (results, trace))
    ∧ Forall avg_known results
    ∧ Sorted (λ a b, (ListTs.PingStatistics.avg (ListTs.PingResult.statistics a)
                      <=? ListTs.PingStatistics.avg (ListTs.PingResult.statistics b))%float
                     = true) results.
Proof.
  eexists _, _. split; [by vm_compute|]. split.
  - repeat constructor.
  - repeat constructor.
Qed.

(** The same catalog through the fast check: A and C are probed, both
    answer, and the success rate is 100. *)
Example fastCheck_A_B_C :
  ∃ output,
    FastCheck.fastCheck rejecting_parser no_digits sample_clock (λ _, answering_env)
      [entry_A; entry_B; entry_C]
    = Returned output
    ∧ FastCheck.SimpleOutput.summary output = FastCheck.Summary.mk 2 2 0 100%float
    ∧ FastCheck.UpSite.url <$> FastCheck.SimpleOutput.upSites output
      = ["http://a.example"; "http://b.example"].
Proof. eexists. split; [by vm_compute|]. by vm_compute. Qed.

(** C3 as stated fails on the quick probe: an address that is neither
    parseable nor matched by the pattern need not be reported DOWN. *)
Lemma quickPing_unmatched_address_not_DOWN :
  ¬ (∀ URL_parse env entry,
       URL_parse (UrlEntry.url entry) = None
       → match_host (UrlEntry.url entry) = None
       → ∃ result,
           FastCheck.quickPing URL_parse env entry = Returned result
           ∧ FastCheck.SimpleResult.status result = FastCheck.DOWN).
Proof.
  intros Hclaim.
  destruct (Hclaim rejecting_parser answering_env entry_localhost eq_refl eq_refl)
    as (result & Hresult & Hstatus).
  destruct quickPing_localhost as (_ & _ & Hup).
  rewrite Hup in Hresult. injection Hresult as <-. discriminate Hstatus.
Qed.

(** C8 as stated fails on the multi-attempt prober: when every attempt
    on a host raises, the endpoint is reported DOWN, each attempt is
    recorded with the timeout for its time, and no error text is kept. *)
Lemma advancedPingUrl_raising_attempts_keep_no_text :
  ∃ result,
    ListTs.advancedPingUrl rejecting_parser no_digits silent_env entry_A ListTs.DEFAULT_CONFIG
    = Returned result
    ∧ (∀ i, Env.ping_probe silent_env "a.example" 5%float i
            = Raised (ErrorObject "connect ETIMEDOUT"))
    ∧ ListTs.PingResult.status result = ListTs.DOWN
    ∧ ListTs.PingResult.error result = None
    ∧ ListTs.DnsInfo.error (ListTs.PingResult.dnsInfo result) = None
    ∧ ListTs.PingResult.rawPingResults result
      = (λ i, ListTs.RawPing.mk false 5000%float i) <$> [1; 2; 3; 4; 5].
Proof. eexists. split; [by vm_compute|]. by vm_compute. Qed.

(** C2 as stated fails on the empty catalog: the success rate the fast
    check reports is NaN, not 0. *)
Lemma fastCheck_empty_rate_not_zero :
  ∃ output,
    FastCheck.fastCheck rejecting_parser no_digits sample_clock (λ _, answering_env) []
    = Returned output
    ∧ FastCheck.Summary.total (FastCheck.SimpleOutput.summary output) = 0
    ∧ is_nan (FastCheck.Summary.successRate (FastCheck.SimpleOutput.summary output)) = true
    ∧ FastCheck.Summary.successRate (FastCheck.SimpleOutput.summary output) ≠ 0%float.
Proof.
  eexists. split; [reflexivity|]. split; [reflexivity|]. split; [reflexivity|].
  vm_compute. discriminate.
Qed.

Lemma advancedPingUrl_classification_flaky :
  ∃ result,
    ListTs.advancedPingUrl rejecting_parser no_digits flaky_env entry_A ListTs.DEFAULT_CONFIG
    = Returned result
    ∧ ListTs.PingResult.successfulPings result = 3
    ∧ ListTs.PingResult.status result = ListTs.PARTIAL
    ∧ ListTs.PingStatistics.loss (ListTs.PingResult.statistics result) = 40%float.
Proof.
  destruct (advancedPingUrl_classification rejecting_parser no_digits
              flaky_env entry_A ListTs.DEFAULT_CONFIG
              (ListTs.HostAndPort.mk "a.example" (Some 80%float) false)
              eq_refl ltac:(vm_compute; lia))
    as (result & Hresult & _ & _ & _ & Hsuccesses & _ & _ & Hfive).
  exists result. split; [exact Hresult|].
  assert (Hthree : ListTs.PingResult.successfulPings result = 3)
    by (rewrite Hsuccesses; reflexivity).
  split; [exact Hthree|].
  exact (proj1 (proj2 (Hfive eq_refl)) Hthree).
Defined.

Lemma advancedPingUrl_invariant_flaky :
  ∃ result,
    ListTs.advancedPingUrl rejecting_parser no_digits flaky_env entry_A ListTs.DEFAULT_CONFIG
    = Returned result
    ∧ ListTs.PingResult.successfulPings result ≤ 5
    ∧ alive_count (ListTs.PingResult.rawPingResults result)
      = ListTs.PingResult.successfulPings result.
Proof.
  destruct (advancedPingUrl_invariant rejecting_parser no_digits
              flaky_env entry_A ListTs.DEFAULT_CONFIG
              ltac:(vm_compute; lia) ltac:(vm_compute; reflexivity))
    as (result & Hresult & [_ Hle] & Hattempts & _ & _ & _ & Hraw).
  exists result. split; [exact Hresult|]. split.
  - rewrite Hattempts in Hle. exact Hle.
  - exact (proj1 (Hraw _ eq_refl)).
Defined.

(** Three entries in batches of two, the world answering the probes in
    flight each in turn: the second batch is called after the first is
    collected, and its only probe, of an address without a host, settles
    in its call. *)
Lemma batch_loop_batches_two_batches :
  ∃ results,
    Async.batch_loop rejecting_parser no_digits 4 each_in_turn 0 (λ _, answering_env)
      pairs_config [entry_A; entry_C; entry_localhost] 0 [] []
    = Some (Returned
              (results,
               [Async.InBatch 1 (Async.Called 0 true);
                Async.InBatch 1 (Async.Called 1 true);
                Async.InBatch 1 (Async.Resumed 0 (Async.dnsLookup "a.example") false);
                Async.InBatch 1 (Async.Resumed 1 (Async.dnsLookup "b.example") false);
                Async.InBatch 1
                  (Async.Resumed 0 (Async.ping_promise_probe "a.example" 5%float) true);
                Async.InBatch 1
                  (Async.Resumed 1 (Async.ping_promise_probe "b.example" 5%float) true);
                Async.Collected 1 2;
                Async.Paused 1000;
                Async.InBatch 2 (Async.Called 0 false);
                Async.Collected 2 1]))
    ∧ ListTs.PingResult.status <$> results = [ListTs.UP; ListTs.UP; ListTs.DOWN].
Proof.
  destruct (batch_loop_batches rejecting_parser no_digits each_in_turn (λ _, answering_env)
              pairs_config [entry_A; entry_C; entry_localhost] 4
              ltac:(vm_compute; lia) ltac:(vm_compute; lia))
    as (results & trace & Hloop & _ & _ & _ & _ & _ & _ & Hresults & _).
  exists results. split.
  - rewrite Hloop. vm_compute in Hloop. injection Hloop as _ <-. reflexivity.
  - apply Forall2_cons_inv_l in Hresults as (rA & rest & HA & Hresults & ->).
    apply Forall2_cons_inv_l in Hresults as (rC & rest' & HC & Hresults & ->).
    apply Forall2_cons_inv_l in Hresults as (rL & rest'' & HL & Hresults & ->).
    apply Forall2_nil_inv_l in Hresults as ->.
    vm_compute in HA, HC, HL.
    injection HA as <-. injection HC as <-. injection HL as <-. reflexivity.
Defined.

(** Another order of the answers gives another order of the resumptions,
    and the same results. *)
Example batch_loop_schedules :
  ∃ results,
    Async.batch_loop rejecting_parser no_digits 4 first_in_flight 0 (λ _, answering_env)
      pairs_config [entry_A; entry_C; entry_localhost] 0 [] []
    = Some (Returned
              (results,
               [Async.InBatch 1 (Async.Called 0 true);
                Async.InBatch 1 (Async.Called 1 true);
                Async.InBatch 1 (Async.Resumed 0 (Async.dnsLookup "a.example") false);
                Async.InBatch 1
                  (Async.Resumed 0 (Async.ping_promise_probe "a.example" 5%float) true);
                Async.InBatch 1 (Async.Resumed 1 (Async.dnsLookup "b.example") false);
                Async.InBatch 1
                  (Async.Resumed 1 (Async.ping_promise_probe "b.example" 5%float) true);
                Async.Collected 1 2;
                Async.Paused 1000;
                Async.InBatch 2 (Async.Called 0 false);
                Async.Collected 2 1]))
    ∧ Async.batch_loop rejecting_parser no_digits 4 each_in_turn 0 (λ _, answering_env)
        pairs_config [entry_A; entry_C; entry_localhost] 0 [] []
      = Some (Returned
                (results,
                 [Async.InBatch 1 (Async.Called 0 true);
                  Async.InBatch 1 (Async.Called 1 true);
                  Async.InBatch 1 (Async.Resumed 0 (Async.dnsLookup "a.example") false);
                  Async.InBatch 1 (Async.Resumed 1 (Async.dnsLookup "b.example") false);
                  Async.InBatch 1
                    (Async.Resumed 0 (Async.ping_promise_probe "a.example" 5%float) true);
                  Async.InBatch 1
                    (Async.Resumed 1 (Async.ping_promise_probe "b.example" 5%float) true);
                  Async.Collected 1 2;
                  Async.Paused 1000;
                  Async.InBatch 2 (Async.Called 0 false);
                  Async.Collected 2 1])).
Proof. eexists. split; vm_compute; reflexivity. Qed.

Lemma unparseable_address_localhost :
  ∃ result,
    ListTs.advancedPingUrl rejecting_parser no_digits answering_env entry_localhost
      ListTs.DEFAULT_CONFIG = Returned result
    ∧ ListTs.PingResult.status result = ListTs.DOWN
    ∧ ListTs.PingResult.error result = Some "Invalid URL format".
Proof.
  exact (proj2 (proj1 (proj2 (unparseable_address rejecting_parser no_digits
                                answering_env entry_localhost ListTs.DEFAULT_CONFIG
                                eq_refl)) eq_refl)).
Defined.

(** Instances of the further properties. *)

Lemma calculateStatistics_bounds_10_20_30 :
  ListTs.PingStatistics.min (ListTs.calculateStatistics [20; 10; 30]%float) = 10%float
  ∧ ListTs.PingStatistics.max (ListTs.calculateStatistics [20; 10; 30]%float) = 30%float
  ∧ ListTs.PingStatistics.min (ListTs.calculateStatistics [20; 10; 30]%float)
    ∈ [20; 10; 30]%float.
Proof.
  split; [reflexivity|]. split; [reflexivity|].
  apply (calculateStatistics_bounds [20; 10; 30]%float); [done|].
  repeat constructor.
Defined.


Lemma calculateStatistics_single_12_5 :
  ListTs.calculateStatistics [12.5%float]
  = ListTs.PingStatistics.mk 12.5%float 12.5%float 12.5%float 0%float 0%float.
Proof. apply (calculateStatistics_single 12.5%float). by eexists _, _. Defined.

Lemma extractHostAndPort_fallback_spaced_host :
  ListTs.extractHostAndPort rejecting_parser "https://exa mple.com:8080/list"
  = Returned (ListTs.HostAndPort.mk "exa mple.com" (Some 8080%float) true).
Proof.
  apply (extractHostAndPort_fallback rejecting_parser true "exa mple.com" (Some "8080") "/list").
  - reflexivity.
  - done.
  - repeat constructor.
  - intros digits [= <-]. split; [done|repeat constructor].
  - reflexivity.
Defined.

Lemma extractHostAndPort_parsed_ftp :
  ListTs.extractHostAndPort ftp_parser "ftp://ftp.example/pub"
  = Returned (ListTs.HostAndPort.mk "ftp.example" (Some 80%float) false).
Proof.
  destruct (extractHostAndPort_parsed ftp_parser "ftp://ftp.example/pub"
              (URL.mk "ftp.example" "" "ftp:") eq_refl)
    as (port & Hextracted & Hdefault & _).
  rewrite Hextracted, (Hdefault eq_refl). reflexivity.
Defined.

Lemma extractHostAndPort_fallback_shape_spaced_host :
  ∃ rest,
    "https://exa mple.com:8080/list" = "https://" +:+ "exa mple.com" +:+ rest
    ∧ stops host_char rest.
Proof.
  destruct (extractHostAndPort_fallback_shape rejecting_parser
              "https://exa mple.com:8080/list"
              (ListTs.HostAndPort.mk "exa mple.com" (Some 8080%float) true)
              eq_refl ltac:(vm_compute; reflexivity))
    as (_ & _ & Hrest & _).
  exact Hrest.
Defined.

Lemma extractHostname_agrees_a_example :
  extractHostname rejecting_parser "http://a.example" = "a.example".
Proof.
  apply (extractHostname_agrees rejecting_parser "http://a.example"
           (ListTs.HostAndPort.mk "a.example" (Some 80%float) false)).
  reflexivity.
Defined.

Lemma advancedPingUrl_statistics_flaky :
  ∃ result,
    ListTs.advancedPingUrl rejecting_parser no_digits flaky_env entry_A ListTs.DEFAULT_CONFIG
    = Returned result
    ∧ ListTs.RawPing.attempt <$> ListTs.PingResult.rawPingResults result = [1; 2; 3; 4; 5].
Proof.
  destruct (advancedPingUrl_statistics rejecting_parser no_digits flaky_env entry_A
              ListTs.DEFAULT_CONFIG
              (ListTs.HostAndPort.mk "a.example" (Some 80%float) false) eq_refl)
    as (result & times & Hresult & _ & _ & _ & _ & _ & _ & Hnumbers).
  exists result. split; [exact Hresult|exact Hnumbers].
Defined.

Lemma advancedPingUrl_no_attempts_answering :
  ∃ result,
    ListTs.advancedPingUrl rejecting_parser no_digits answering_env entry_A
      no_attempts_config = Returned result
    ∧ ListTs.PingResult.status result = ListTs.UP
    ∧ ListTs.PingResult.successfulPings result = 0
    ∧ ListTs.PingResult.rawPingResults result = []
    ∧ is_nan (ListTs.PingStatistics.loss (ListTs.PingResult.statistics result)) = true
    ∧ ListTs.PingStatistics.avg (ListTs.PingResult.statistics result) = 0%float.
Proof.
  apply (advancedPingUrl_no_attempts rejecting_parser no_digits answering_env entry_A
           no_attempts_config (ListTs.HostAndPort.mk "a.example" (Some 80%float) false)).
  - reflexivity.
  - reflexivity.
Defined.

Lemma runAdvancedPingTest_one_result_per_address_A_B_C :
  ∃ results trace,
    ListTs.runAdvancedPingTest rejecting_parser no_digits 4 (λ _, answering_env)
      [entry_A; entry_B; entry_C]
    = Some (Returned (results, trace))
    ∧ NoDup (ListTs.PingResult.url <$> results).
Proof.
  destruct (runAdvancedPingTest_one_result_per_address rejecting_parser no_digits 4
              (λ _, answering_env) [entry_A; entry_B; entry_C])
    as (results & trace & Hrun & _ & Hnodup & _).
  - simpl. lia.
  - exists results, trace. split; [exact Hrun|exact Hnodup].
Defined.

Lemma runAdvancedPingTest_sorted_A_B_C :
  ∃ results trace ups others,
    ListTs.runAdvancedPingTest rejecting_parser no_digits 4 (λ _, answering_env)
      [entry_A; entry_B; entry_C]
    = Some (Returned (results, trace))
    ∧ results = ups ++ others
    ∧ Forall (λ r, ListTs.PingResult.status r = ListTs.UP) ups.
Proof.
  assert (∃ results trace,
            ListTs.runAdvancedPingTest rejecting_parser no_digits 4 (λ _, answering_env)
              [entry_A; entry_B; entry_C]
            = Some (Returned (results, trace))
            ∧ Forall avg_known results) as (results & trace & Hrun & Hknown).
  { eexists _, _. split; [vm_compute; reflexivity|]. repeat constructor. }
  destruct (runAdvancedPingTest_sorted rejecting_parser no_digits 4 (λ _, answering_env)
              [entry_A; entry_B; entry_C] results trace Hrun Hknown)
    as (ups & others & Hsplit & Hups & _).
  exists results, trace, ups, others. split; [exact Hrun|]. split; [exact Hsplit|exact Hups].
Defined.

(** A run where the sort moves the one fully reachable result to the
    front and leaves the other two as they were probed. *)
Lemma runAdvancedPingTest_keeps_order_of_failures_mixed :
  ∃ results trace probed,
    ListTs.runAdvancedPingTest rejecting_parser no_digits 5 mixed_world
      [entry_A; entry_B; entry_C; entry_localhost]
    = Some (Returned (results, trace))
    ∧ ListTs.PingResult.name <$> probed = ["B"; "C"; "local"]
    ∧ ListTs.PingResult.status <$> probed = [ListTs.PARTIAL; ListTs.UP; ListTs.DOWN]
    ∧ ListTs.PingResult.name <$> results = ["C"; "B"; "local"]
    ∧ filter (λ r, ListTs.PingResult.status r ≠ ListTs.UP) results
      = filter (λ r, ListTs.PingResult.status r ≠ ListTs.UP) probed.
Proof.
  assert (∃ results trace,
            ListTs.runAdvancedPingTest rejecting_parser no_digits 5 mixed_world
              [entry_A; entry_B; entry_C; entry_localhost]
            = Some (Returned (results, trace))
            ∧ comparable results
            ∧ ListTs.PingResult.name <$> results = ["C"; "B"; "local"])
    as (results & trace & Hrun & Hcomparable & Hnames).
  { eexists _, _. split; [vm_compute; reflexivity|]. split; [|reflexivity].
    repeat constructor. }
  destruct (runAdvancedPingTest_keeps_order_of_failures rejecting_parser no_digits 5
              mixed_world [entry_A; entry_B; entry_C; entry_localhost] results trace
              Hrun Hcomparable)
    as (probed & Hprobed & Hfailures).
  exists results, trace, probed. split; [exact Hrun|].
  change (uniqueUrls_Map [entry_A; entry_B; entry_C; entry_localhost])
    with [entry_B; entry_C; entry_localhost] in Hprobed.
  apply Forall2_cons_inv_l in Hprobed as (rB & rest & HB & Hprobed & ->).
  apply Forall2_cons_inv_l in Hprobed as (rC & rest' & HC & Hprobed & ->).
  apply Forall2_cons_inv_l in Hprobed as (rL & rest'' & HL & Hprobed & ->).
  apply Forall2_nil_inv_l in Hprobed as ->.
  vm_compute in HB, HC, HL.
  injection HB as <-. injection HC as <-. injection HL as <-.
  split; [reflexivity|]. split; [reflexivity|]. split; [exact Hnames|exact Hfailures].
Defined.

Lemma batch_loop_zero_batchSize_entry_A :
  ListTs.batch_loop rejecting_parser no_digits 1000 (λ _, answering_env)
    zero_batch_config [entry_A] 0 [] [] = None.
Proof.
  apply (batch_loop_zero_batchSize rejecting_parser no_digits (λ _, answering_env)
           zero_batch_config [entry_A] 1000 [] []).
  - reflexivity.
  - discriminate.
Defined.

Lemma failure_of_probed_silent :
  ∃ result,
    ListTs.advancedPingUrl rejecting_parser no_digits silent_env entry_A ListTs.DEFAULT_CONFIG
    = Returned result
    ∧ ListTs.failure_of result = "Complete ping failure".
Proof.
  destruct (advancedPingUrl_returns rejecting_parser no_digits silent_env entry_A
              ListTs.DEFAULT_CONFIG) as [result Hresult].
  destruct (failure_of_probed rejecting_parser no_digits silent_env entry_A
              ListTs.DEFAULT_CONFIG result Hresult) as [_ Hprobed].
  exists result. split; [exact Hresult|].
  rewrite (Hprobed (ListTs.HostAndPort.mk "a.example" (Some 80%float) false) eq_refl).
  reflexivity.
Defined.

Lemma success_rate_all_or_none_A_B_C :
  ∃ output,
    FastCheck.fastCheck rejecting_parser no_digits sample_clock (λ _, answering_env)
      [entry_A; entry_B; entry_C] = Returned output
    ∧ FastCheck.Summary.successRate (FastCheck.SimpleOutput.summary output) = 100%float.
Proof.
  apply (success_rate_all_or_none rejecting_parser no_digits sample_clock
           (λ _, answering_env) [entry_A; entry_B; entry_C] true).
  - discriminate.
  - unfold safe_integer. simpl. lia.
  - intros entry _. reflexivity.
Defined.

Lemma generateDetailedReport_of_run_A_B_C :
  ∃ results trace,
    ListTs.runAdvancedPingTest rejecting_parser no_digits 4 (λ _, answering_env)
      [entry_A; entry_B; entry_C]
    = Some (Returned (results, trace))
    ∧ ListTs.FastestRow.site
        <$> ListTs.Report.fastest (ListTs.generateDetailedReport no_digits results)
      = take (15 `min` ListTs.Report.fullyUp (ListTs.generateDetailedReport no_digits results))
          results.
Proof.
  assert (∃ results trace,
            ListTs.runAdvancedPingTest rejecting_parser no_digits 4 (λ _, answering_env)
              [entry_A; entry_B; entry_C]
            = Some (Returned (results, trace))
            ∧ Forall avg_known results) as (results & trace & Hrun & Hknown).
  { eexists _, _. split; [vm_compute; reflexivity|]. repeat constructor. }
  exists results, trace. split; [exact Hrun|].
  exact (generateDetailedReport_of_run rejecting_parser no_digits 4 (λ _, answering_env)
           [entry_A; entry_B; entry_C] results trace Hrun Hknown).
Defined.

Lemma dns_failure_is_not_fatal_flaky :
  ∃ result,
    ListTs.advancedPingUrl rejecting_parser no_digits flaky_env entry_A ListTs.DEFAULT_CONFIG
    = Returned result
    ∧ ListTs.PingResult.error result = None
    ∧ ListTs.DnsInfo.error (ListTs.PingResult.dnsInfo result)
      = Some "getaddrinfo ENOTFOUND"
    ∧ ListTs.network_of result = "Unknown".
Proof.
  destruct (dns_failure_is_not_fatal rejecting_parser no_digits flaky_env entry_A
              ListTs.DEFAULT_CONFIG
              (ListTs.HostAndPort.mk "a.example" (Some 80%float) false) eq_refl)
    as (result & Hresult & Herror & _ & _ & Hfailed & _).
  exists result. split; [exact Hresult|]. split; [exact Herror|].
  exact (Hfailed (ErrorObject "getaddrinfo ENOTFOUND") eq_refl eq_refl).
Defined.
